(** * pixel-tracker: the tracking-event capture pipeline of [main.go]

    A shallow embedding of the Go program.  Go strings are byte sequences and
    are modelled by [string] (a list of 8-bit [ascii]); [int64] values are
    [Z] with the wrap-around written out; Go maps are [gmap]s; slices are
    headers (array, length, capacity) over a heap of backing arrays, so that
    aliasing between the event store, its snapshots and the event handed to
    the handlers is visible.

    The first part models the pieces of the Go standard library the program
    calls ([strings], [unicode/utf8], [net], [regexp], [crypto/md5],
    [encoding/hex], [net/http]); the second part is the program itself, with
    the names of [main.go]. *)

From stdpp Require Import gmap strings list fin_maps.
From Stdlib Require Import ZArith NArith Ascii Lia.

Local Open Scope N_scope.

(** ** Bytes and byte strings *)

Definition byte_val (c : ascii) : N := N_of_ascii c.
Definition byte_of (n : N) : ascii := ascii_of_N n.

(** [s[i:]], [s[:i]] and [s[i:j]] on Go strings. *)
Fixpoint str_drop (i : nat) (s : string) : string :=
  match i, s with
  | O, _ => s
  | S i', String _ s' => str_drop i' s'
  | S _, EmptyString => EmptyString
  end.

Fixpoint str_take (i : nat) (s : string) : string :=
  match i, s with
  | S i', String c s' => String c (str_take i' s')
  | _, _ => EmptyString
  end.

Definition str_sub (i j : nat) (s : string) : string :=
  str_take (j - i) (str_drop i s).

Definition str_index (s : string) (i : nat) : ascii :=
  match String.get i s with Some c => c | None => Ascii.zero end.

Fixpoint str_rev_onto (s acc : string) : string :=
  match s with
  | EmptyString => acc
  | String c s' => str_rev_onto s' (String c acc)
  end.

Definition str_rev (s : string) : string := str_rev_onto s EmptyString.

(** ** unicode/utf8 and unicode *)
Module utf8.

Definition RuneError : N := 0xFFFD.
Definition RuneSelf : N := 0x80.
Definition UTFMax : nat := 4.

(** The continuation-byte range [locb..hicb]. *)
Definition cont (b : N) : bool := (0x80 <=? b) && (b <=? 0xBF).

(** [first[s0]]: the length of the sequence a leading byte announces and
    the range accepted for its second byte; [None] for a byte that starts
    no multi-byte sequence. *)
Definition first (s0 : N) : option (nat * (N * N)) :=
  if (0xC2 <=? s0) && (s0 <=? 0xDF) then Some (2%nat, (0x80, 0xBF))
  else if s0 =? 0xE0 then Some (3%nat, (0xA0, 0xBF))
  else if s0 =? 0xED then Some (3%nat, (0x80, 0x9F))
  else if (0xE1 <=? s0) && (s0 <=? 0xEF) then Some (3%nat, (0x80, 0xBF))
  else if s0 =? 0xF0 then Some (4%nat, (0x90, 0xBF))
  else if (0xF1 <=? s0) && (s0 <=? 0xF3) then Some (4%nat, (0x80, 0xBF))
  else if s0 =? 0xF4 then Some (4%nat, (0x80, 0x8F))
  else None.

Definition DecodeRuneInString (s : string) : N * nat :=
  match s with
  | EmptyString => (RuneError, 0%nat)
  | String c0 rest =>
    let s0 := byte_val c0 in
    if s0 <? RuneSelf then (s0, 1%nat)
    else match first s0 with
    | None => (RuneError, 1%nat)
    | Some (sz, (lo, hi)) =>
      if (String.length s <? sz)%nat then (RuneError, 1%nat)
      else
        let s1 := byte_val (str_index s 1) in
        if (s1 <? lo) || (hi <? s1) then (RuneError, 1%nat)
        else if (sz <=? 2)%nat then
          (N.lor (N.shiftl (N.land s0 0x1F) 6) (N.land s1 0x3F), 2%nat)
        else
          let s2 := byte_val (str_index s 2) in
          if negb (cont s2) then (RuneError, 1%nat)
          else if (sz <=? 3)%nat then
            (N.lor (N.lor (N.shiftl (N.land s0 0x0F) 12)
                          (N.shiftl (N.land s1 0x3F) 6))
                   (N.land s2 0x3F), 3%nat)
          else
            let s3 := byte_val (str_index s 3) in
            if negb (cont s3) then (RuneError, 1%nat)
            else
              (N.lor (N.lor (N.lor (N.shiftl (N.land s0 0x07) 18)
                                   (N.shiftl (N.land s1 0x3F) 12))
                            (N.shiftl (N.land s2 0x3F) 6))
                     (N.land s3 0x3F), 4%nat)
    end
  end.

Definition RuneStart (b : N) : bool := negb (N.land b 0xC0 =? 0x80).

(** The backward scan of [DecodeLastRuneInString]:
    [for start--; start >= lim; start-- { if RuneStart(s[start]) { break } }]. *)
Fixpoint scan_back (fuel : nat) (s : string) (start lim : Z) : Z :=
  match fuel with
  | O => start
  | S fuel' =>
    if (start <? lim)%Z then start
    else if RuneStart (byte_val (str_index s (Z.to_nat start))) then start
    else scan_back fuel' s (start - 1)%Z lim
  end.

Definition DecodeLastRuneInString (s : string) : N * nat :=
  let en := String.length s in
  match en with
  | O => (RuneError, 0%nat)
  | S last =>
    let r := byte_val (str_index s last) in
    if r <? RuneSelf then (r, 1%nat)
    else
      let lim := Z.max 0 (Z.of_nat en - Z.of_nat UTFMax) in
      let start := scan_back (S UTFMax) s (Z.of_nat last - 1)%Z lim in
      let start := Z.to_nat (Z.max 0 start) in
      let '(r, size) := DecodeRuneInString (str_sub start en s) in
      if (start + size =? en)%nat then (r, size) else (RuneError, 1%nat)
  end.

End utf8.

Module unicode.

(** [unicode.IsSpace]: the Latin-1 cases and the [White_Space] table. *)
Definition IsSpace (r : N) : bool :=
  if r <=? 0xFF then
    (r =? 0x09) || (r =? 0x0A) || (r =? 0x0B) || (r =? 0x0C) || (r =? 0x0D)
    || (r =? 0x20) || (r =? 0x85) || (r =? 0xA0)
  else
    (r =? 0x1680) || ((0x2000 <=? r) && (r <=? 0x200A))
    || (r =? 0x2028) || (r =? 0x2029) || (r =? 0x202F) || (r =? 0x205F)
    || (r =? 0x3000).

End unicode.

(** ** strings *)
Module strings_.

(** [asciiSpace]: tab, newline, vertical tab, form feed, carriage return, space. *)
Definition asciiSpace (c : ascii) : bool :=
  let b := byte_val c in
  (b =? 0x09) || (b =? 0x0A) || (b =? 0x0B) || (b =? 0x0C) || (b =? 0x0D)
  || (b =? 0x20).

(** [indexFunc(s, f, false)] followed by [s[i:]], as [TrimLeftFunc] does:
    runes are decoded as a [range] loop does, an invalid byte being one
    [RuneError] of width 1. Each turn drops at least one byte, so
    [length s] turns are enough. *)
Fixpoint trimLeft_go (fuel : nat) (f : N -> bool) (s : string) : string :=
  match fuel with
  | O => EmptyString
  | S fuel' =>
    match s with
    | EmptyString => EmptyString
    | _ =>
      let '(r, size) := utf8.DecodeRuneInString s in
      if f r then trimLeft_go fuel' f (str_drop size s) else s
    end
  end.

Definition TrimLeftFunc (s : string) (f : N -> bool) : string :=
  trimLeft_go (String.length s) f s.

(** [lastIndexFunc(s, f, false)]; [None] is Go's [-1]. *)
Fixpoint lastIndexFunc_go (fuel : nat) (f : N -> bool) (s : string) (i : nat)
  : option nat :=
  match fuel with
  | O => None
  | S fuel' =>
    match i with
    | O => None
    | _ =>
      let '(r, size) := utf8.DecodeLastRuneInString (str_take i s) in
      let i' := (i - size)%nat in
      if negb (f r) then Some i' else lastIndexFunc_go fuel' f s i'
    end
  end.

Definition TrimRightFunc (s : string) (f : N -> bool) : string :=
  match lastIndexFunc_go (S (String.length s)) f s (String.length s) with
  | Some i =>
    if utf8.RuneSelf <=? byte_val (str_index s i) then
      let '(_, wid) := utf8.DecodeRuneInString (str_drop i s) in
      str_take (i + wid) s
    else str_take (S i) s
  | None => str_take 0 s
  end.

Definition TrimFunc (s : string) (f : N -> bool) : string :=
  TrimRightFunc (TrimLeftFunc s f) f.

(** The second loop of [TrimSpace], on the reversed remainder [r] of
    [s[start:]]: ASCII white space is dropped from the end, and the first
    non-ASCII byte met hands what is left to [TrimRightFunc]. *)
Fixpoint trimSpace_stop (r : string) : string :=
  match r with
  | EmptyString => EmptyString
  | String c r' =>
    if utf8.RuneSelf <=? byte_val c then TrimRightFunc (str_rev r) unicode.IsSpace
    else if asciiSpace c then trimSpace_stop r'
    else str_rev r
  end.

(** [strings.TrimSpace]: the ASCII fast path from the start, falling back
    to [TrimFunc] on the first non-ASCII byte, then the same from the end. *)
Fixpoint TrimSpace (s : string) : string :=
  match s with
  | EmptyString => EmptyString
  | String c s' =>
    if utf8.RuneSelf <=? byte_val c then TrimFunc s unicode.IsSpace
    else if asciiSpace c then TrimSpace s'
    else trimSpace_stop (str_rev s)
  end.

(** [strings.Split(s, sep)] for a one-byte separator (the program passes
    [","] and [";"]): the pieces between the separators, one more than
    there are separators; [Split("", sep)] is [[""]]. *)
Fixpoint Split (s : string) (sep : ascii) : list string :=
  match s with
  | EmptyString => [EmptyString]
  | String c s' =>
    if Ascii.eqb c sep then EmptyString :: Split s' sep
    else match Split s' sep with
         | x :: xs => String c x :: xs
         | [] => [String c EmptyString]
         end
  end.

Fixpoint IndexByte (s : string) (c : ascii) : option nat :=
  match s with
  | EmptyString => None
  | String c' s' =>
    if Ascii.eqb c' c then Some O else S <$> IndexByte s' c
  end.

Fixpoint LastIndexByte (s : string) (c : ascii) : option nat :=
  match s with
  | EmptyString => None
  | String c' s' =>
    match LastIndexByte s' c with
    | Some i => Some (S i)
    | None => if Ascii.eqb c' c then Some O else None
    end
  end.

End strings_.

(** ** net *)
Module net.

(** The reasons [SplitHostPort] gives in its [AddrError]. *)
Inductive AddrError :=
| missingPort | tooManyColons | missingBracket
| unexpectedOpen | unexpectedClose.

Definition found (o : option nat) : bool :=
  match o with Some _ => true | None => false end.

(** [net.SplitHostPort]: [inl (host, port)] or the error. *)
Definition SplitHostPort (hostport : string) : (string * string) + AddrError :=
  match strings_.LastIndexByte hostport ":" with
  | None => inr missingPort
  | Some i =>
    let parsed : (string * nat * nat) + AddrError :=
      if Ascii.eqb (str_index hostport 0) "[" then
        match strings_.IndexByte hostport "]" with
        | None => inr missingBracket
        | Some en =>
          if (S en =? String.length hostport)%nat then inr missingPort
          else if (S en =? i)%nat then inl (str_sub 1 en hostport, 1%nat, S en)
          else if Ascii.eqb (str_index hostport (S en)) ":" then inr tooManyColons
          else inr missingPort
        end
      else
        let host := str_take i hostport in
        if found (strings_.IndexByte host ":") then inr tooManyColons
        else inl (host, 0%nat, 0%nat)
    in
    match parsed with
    | inr e => inr e
    | inl (host, j, k) =>
      if found (strings_.IndexByte (str_drop j hostport) "[") then inr unexpectedOpen
      else if found (strings_.IndexByte (str_drop k hostport) "]") then inr unexpectedClose
      else inl (host, str_drop (S i) hostport)
    end
  end.

End net.

(** ** regexp

    The fragment of the syntax the program's six patterns use, with
    leftmost-first semantics: the match begins as early as possible and is
    the one a backtracking search finds first.  Matching is on bytes; the
    patterns' literals are ASCII and their classes contain every non-ASCII
    rune, so this agrees with matching on runes. *)
Module regexp.

Inductive class :=
| NotSpace   (* \S : anything but \t \n \f \r and space *)
| AnyChar.   (* .  : anything but \n *)

Definition in_class (k : class) (c : ascii) : bool :=
  let b := byte_val c in
  match k with
  | NotSpace =>
    negb ((b =? 0x09) || (b =? 0x0A) || (b =? 0x0C) || (b =? 0x0D) || (b =? 0x20))
  | AnyChar => negb (b =? 0x0A)
  end.

Inductive Regexp :=
| Lit (s : string)              (* literal text *)
| Plus (k : class)              (* k+   greedy *)
| StarLazy (k : class)          (* k*?  non-greedy *)
| Cat (r1 r2 : Regexp)
| Group (r : Regexp).           (* ( r ) capturing *)

Fixpoint strip_prefix (p s : string) : option string :=
  match p, s with
  | EmptyString, _ => Some s
  | String a p', String b s' => if Ascii.eqb a b then strip_prefix p' s' else None
  | String _ _, EmptyString => None
  end.

(** What a sub-match consumed: [s] up to the remainder [rest]. *)
Definition consumed (s rest : string) : string :=
  str_take (String.length s - String.length rest) s.

Section Backtrack.
Context {R : Type}.

(** [k*] greedy: the longer alternative is tried first. *)
Fixpoint star_greedy (k : class) (s : string) (cont : string -> option R)
  : option R :=
  match s with
  | String c s' =>
    if in_class k c then
      match star_greedy k s' cont with
      | Some r => Some r
      | None => cont s
      end
    else cont s
  | EmptyString => cont s
  end.

Definition plus_greedy (k : class) (s : string) (cont : string -> option R)
  : option R :=
  match s with
  | String c s' => if in_class k c then star_greedy k s' cont else None
  | EmptyString => None
  end.

(** [k*?] non-greedy: the shorter alternative is tried first. *)
Fixpoint star_lazy (k : class) (s : string) (cont : string -> option R)
  : option R :=
  match cont s with
  | Some r => Some r
  | None =>
    match s with
    | String c s' => if in_class k c then star_lazy k s' cont else None
    | EmptyString => None
    end
  end.

(** [run r s caps cont]: match [r] at the start of [s]; [cont] receives
    the remainder and the groups captured so far. *)
Fixpoint run (r : Regexp) (s : string) (caps : list string)
         (cont : string -> list string -> option R) : option R :=
  match r with
  | Lit p =>
    match strip_prefix p s with
    | Some rest => cont rest caps
    | None => None
    end
  | Plus k => plus_greedy k s (fun rest => cont rest caps)
  | StarLazy k => star_lazy k s (fun rest => cont rest caps)
  | Cat r1 r2 => run r1 s caps (fun rest caps' => run r2 rest caps' cont)
  | Group r' =>
    run r' s caps (fun rest caps' => cont rest (caps' ++ [consumed s rest]))
  end.
End Backtrack.

(** A match anchored at the start of [s]: the whole match, then the groups. *)
Definition match_here (re : Regexp) (s : string) : option (list string) :=
  run re s [] (fun rest caps => Some (consumed s rest :: caps)).

(** [Regexp.FindStringSubmatch]: the leftmost match; the empty list is
    Go's [nil], returned when there is no match. *)
Fixpoint FindStringSubmatch (re : Regexp) (s : string) : list string :=
  match match_here re s with
  | Some m => m
  | None =>
    match s with
    | String _ s' => FindStringSubmatch re s'
    | EmptyString => []
    end
  end.

End regexp.

(** ** crypto/md5 and encoding/hex *)
Module md5.
Local Open Scope Z_scope.

Definition w32 (x : Z) : Z := x mod 2 ^ 32.
Definition rotl (x : Z) (n : Z) : Z :=
  w32 (Z.lor (Z.shiftl x n) (Z.shiftr x (32 - n))).
Definition not32 (x : Z) : Z := Z.lxor x 0xffffffff.

Definition shifts : list Z :=
  [7; 12; 17; 22; 7; 12; 17; 22; 7; 12; 17; 22; 7; 12; 17; 22;
   5; 9; 14; 20; 5; 9; 14; 20; 5; 9; 14; 20; 5; 9; 14; 20;
   4; 11; 16; 23; 4; 11; 16; 23; 4; 11; 16; 23; 4; 11; 16; 23;
   6; 10; 15; 21; 6; 10; 15; 21; 6; 10; 15; 21; 6; 10; 15; 21].

Definition table : list Z :=
  [0xd76aa478; 0xe8c7b756; 0x242070db; 0xc1bdceee;
   0xf57c0faf; 0x4787c62a; 0xa8304613; 0xfd469501;
   0x698098d8; 0x8b44f7af; 0xffff5bb1; 0x895cd7be;
   0x6b901122; 0xfd987193; 0xa679438e; 0x49b40821;
   0xf61e2562; 0xc040b340; 0x265e5a51; 0xe9b6c7aa;
   0xd62f105d; 0x02441453; 0xd8a1e681; 0xe7d3fbc8;
   0x21e1cde6; 0xc33707d6; 0xf4d50d87; 0x455a14ed;
   0xa9e3e905; 0xfcefa3f8; 0x676f02d9; 0x8d2a4c8a;
   0xfffa3942; 0x8771f681; 0x6d9d6122; 0xfde5380c;
   0xa4beea44; 0x4bdecfa9; 0xf6bb4b60; 0xbebfbc70;
   0x289b7ec6; 0xeaa127fa; 0xd4ef3085; 0x04881d05;
   0xd9d4d039; 0xe6db99e5; 0x1fa27cf8; 0xc4ac5665;
   0xf4292244; 0x432aff97; 0xab9423a7; 0xfc93a039;
   0x655b59c3; 0x8f0ccc92; 0xffeff47d; 0x85845dd1;
   0x6fa87e4f; 0xfe2ce6e0; 0xa3014314; 0x4e0811a1;
   0xf7537e82; 0xbd3af235; 0x2ad7d2bb; 0xeb86d391].

Definition nthZ (l : list Z) (i : nat) : Z := nth i l 0.

(** The digest state [a, b, c, d]. *)
Definition digest : Type := Z * Z * Z * Z.
Definition init : digest := (0x67452301, 0xefcdab89, 0x98badcfe, 0x10325476).

(** One of the 64 steps of a block, on the block's sixteen words [m]. *)
Definition step (m : list Z) (st : digest) (i : nat) : digest :=
  let '(a, b, c, d) := st in
  let '(f, g) :=
    if (i <? 16)%nat then (Z.lor (Z.land b c) (Z.land (not32 b) d), i)
    else if (i <? 32)%nat then
      (Z.lor (Z.land d b) (Z.land (not32 d) c), ((5 * i + 1) mod 16)%nat)
    else if (i <? 48)%nat then
      (Z.lxor (Z.lxor b c) d, ((3 * i + 5) mod 16)%nat)
    else (Z.lxor c (Z.lor b (not32 d)), ((7 * i) mod 16)%nat) in
  let f' := w32 (f + a + nthZ table i + nthZ m g) in
  (d, w32 (b + rotl f' (nthZ shifts i)), b, c).

(** Little-endian words of a block of bytes. *)
Fixpoint words (bs : list Z) : list Z :=
  match bs with
  | b0 :: b1 :: b2 :: b3 :: rest =>
    (b0 + 2 ^ 8 * b1 + 2 ^ 16 * b2 + 2 ^ 24 * b3) :: words rest
  | _ => []
  end.

Definition block (st : digest) (bs : list Z) : digest :=
  let '(a0, b0, c0, d0) := st in
  let '(a, b, c, d) := foldl (step (words bs)) st (seq 0 64) in
  (w32 (a0 + a), w32 (b0 + b), w32 (c0 + c), w32 (d0 + d)).

Fixpoint blocks (n : nat) (st : digest) (bs : list Z) : digest :=
  match n with
  | O => st
  | S n' => blocks n' (block st (take 64 bs)) (drop 64 bs)
  end.

Definition le_bytes (n : nat) (x : Z) : list Z :=
  map (fun i => Z.shiftr x (8 * Z.of_nat i) mod 2 ^ 8) (seq 0 n).

(** The message, the byte 0x80, zeros up to 56 modulo 64, and the length
    in bits as a 64-bit little-endian number. *)
Definition pad (msg : list Z) : list Z :=
  let len := length msg in
  let zeros := ((64 + 55 - len mod 64) mod 64)%nat in
  msg ++ [0x80] ++ replicate zeros 0
      ++ le_bytes 8 ((8 * Z.of_nat len) mod 2 ^ 64).

Fixpoint bytes_of_string (s : string) : list Z :=
  match s with
  | EmptyString => []
  | String c s' => Z.of_N (byte_val c) :: bytes_of_string s'
  end.

Fixpoint string_of_bytes (bs : list Z) : string :=
  match bs with
  | [] => EmptyString
  | b :: bs' => String (byte_of (Z.to_N b)) (string_of_bytes bs')
  end.

(** [md5.Sum]: the sixteen bytes of the digest. *)
Definition Sum (data : string) : string :=
  let p := pad (bytes_of_string data) in
  let '(a, b, c, d) := blocks (length p / 64) init p in
  string_of_bytes (le_bytes 4 a ++ le_bytes 4 b ++ le_bytes 4 c ++ le_bytes 4 d).

End md5.

Module hex.

Definition hextable : string := "0123456789abcdef".

Definition digit (n : N) : ascii := str_index hextable (N.to_nat n).

(** [hex.EncodeToString]: two digits of [hextable] per byte. *)
Fixpoint EncodeToString (src : string) : string :=
  match src with
  | EmptyString => EmptyString
  | String c rest =>
    String (digit (N.shiftr (byte_val c) 4))
      (String (digit (N.land (byte_val c) 0x0f)) (EncodeToString rest))
  end.

End hex.

(** ** time *)
Module time_.
Local Open Scope Z_scope.

(** A [time.Time] as the nanoseconds elapsed since the Unix epoch. *)
Definition Time : Type := Z.
Definition Duration : Type := Z.

Definition Second : Duration := 1000000000.
Definition Minute : Duration := 60 * Second.

Definition wrap64 (x : Z) : Z := (x + 2 ^ 63) mod 2 ^ 64 - 2 ^ 63.

Definition Add (t : Time) (d : Duration) : Time := t + d.
(** Whole seconds since the epoch, rounded down. *)
Definition Unix (t : Time) : Z := t / Second.
Definition UnixNano (t : Time) : Z := wrap64 t.

End time_.

(** ** The heap: backing arrays of slices, and map objects *)

Definition loc : Type := positive.

(** A slice header: [Nil], or a backing array with a length and a capacity
    (the program never re-slices, so the offset is always 0). *)
Inductive slice :=
| Nil
| Slice (arr : loc) (len cap : nat).

Definition len (s : slice) : nat :=
  match s with Nil => 0 | Slice _ n _ => n end.
Definition cap (s : slice) : nat :=
  match s with Nil => 0 | Slice _ _ c => c end.

(** A [map[string]string] value: [None] is the nil map. *)
Definition mapref : Type := option loc.

Section Arrays.
Context {A : Type} (zero : A).

(** What the runtime's [growslice] picks as the new capacity, given the
    old capacity and the length needed. The language only promises that
    the new array is large enough. *)
Variable growslice : nat -> nat -> nat.

Definition alloc_array (h : gmap loc (list A)) (xs : list A)
  : loc * gmap loc (list A) :=
  let l := fresh (dom h) in (l, <[l := xs]> h).

Definition array_at (h : gmap loc (list A)) (a : loc) : list A :=
  default [] (h !! a).

(** The elements of a slice: the first [len] cells of its backing array. *)
Definition read (h : gmap loc (list A)) (s : slice) : list A :=
  match s with
  | Nil => []
  | Slice a n _ => take n (array_at h a)
  end.

(** [make([]A, n)]. *)
Definition make (h : gmap loc (list A)) (n : nat)
  : slice * gmap loc (list A) :=
  let '(l, h') := alloc_array h (replicate n zero) in (Slice l n n, h').

(** [append(s, x)]: in place when the capacity allows, else into a new,
    larger array. *)
Definition append (h : gmap loc (list A)) (s : slice) (x : A)
  : slice * gmap loc (list A) :=
  match s with
  | Slice a n c =>
    if (n <? c)%nat then (Slice a (S n) c, <[a := <[n := x]> (array_at h a)]> h)
    else
      let c' := Nat.max (S n) (growslice c (S n)) in
      let '(l, h') :=
        alloc_array h (read h s ++ x :: replicate (c' - S n) zero) in
      (Slice l (S n) c', h')
  | Nil =>
    let c' := Nat.max 1 (growslice 0 1) in
    let '(l, h') := alloc_array h (x :: replicate (c' - 1) zero) in
    (Slice l 1 c', h')
  end.

(** [copy(dst, src)]: the first [min(len(dst), len(src))] elements. *)
Definition copy (h : gmap loc (list A)) (dst src : slice)
  : gmap loc (list A) :=
  match dst with
  | Nil => h
  | Slice a n _ =>
    let k := Nat.min n (len src) in
    <[a := take k (read h src) ++ drop k (array_at h a)]> h
  end.

(** [s[i] = x]; [None] is the run-time panic of an index out of range. *)
Definition store (h : gmap loc (list A)) (s : slice) (i : nat) (x : A)
  : option (gmap loc (list A)) :=
  match s with
  | Slice a n _ =>
    if (i <? n)%nat then Some (<[a := <[i := x]> (array_at h a)]> h) else None
  | Nil => None
  end.

End Arrays.

(** ** net/http, net/url and gorilla/mux *)
Module http.

(** The fields of [http.Cookie] the program reads or writes; the others
    keep their zero value. *)
Record Cookie := {
  Name : string;
  Value : string;
  Path : string;
  MaxAge : Z;
  HttpOnly : bool }.

(** [validHeaderFieldByte]: the token characters of RFC 7230. *)
Definition validHeaderFieldByte (c : ascii) : bool :=
  let b := byte_val c in
  ((0x30 <=? b) && (b <=? 0x39)) || ((0x41 <=? b) && (b <=? 0x5A))
  || ((0x61 <=? b) && (b <=? 0x7A))
  || bool_decide (c ∈ ["!"; "#"; "$"; "%"; "&"; "'"; "*"; "+"; "-"; "."; "^";
                       "_"; "`"; "|"; "~"]%char).

Fixpoint all_bytes (p : ascii -> bool) (s : string) : bool :=
  match s with
  | EmptyString => true
  | String c s' => p c && all_bytes p s'
  end.

Fixpoint canon (upper : bool) (s : string) : string :=
  match s with
  | EmptyString => EmptyString
  | String c s' =>
    let b := byte_val c in
    let c' :=
      if upper && (0x61 <=? b) && (b <=? 0x7A) then byte_of (b - 0x20)
      else if negb upper && (0x41 <=? b) && (b <=? 0x5A) then byte_of (b + 0x20)
      else c in
    String c' (canon (Ascii.eqb c' "-") s')
  end.

(** [textproto.CanonicalMIMEHeaderKey]: a key made of token characters
    gets an upper-case letter first and after each dash and lower-case
    letters elsewhere; any other key is left as it is. *)
Definition CanonicalMIMEHeaderKey (s : string) : string :=
  if all_bytes validHeaderFieldByte s then canon true s else s.

(** An [http.Header] is a [gmap string (list string)]: the values of each
    canonical key. *)

Definition first_value (vs : option (list string)) : string :=
  match vs with
  | Some (v :: _) => v
  | _ => EmptyString
  end.

(** [Header.Get]: the first value of the canonical key, or [""]. *)
Definition Get (h : gmap string (list string)) (key : string) : string :=
  first_value (h !! CanonicalMIMEHeaderKey key).

(** [Header.Set]: the canonical key gets the single value. *)
Definition Set_ (h : gmap string (list string)) (key value : string)
  : gmap string (list string) :=
  <[CanonicalMIMEHeaderKey key := [value]]> h.

(** [Values.Get] on a [url.Values], the parsed query string (again a
    [gmap string (list string)]). *)
Definition Values_Get (v : gmap string (list string)) (key : string) : string :=
  first_value (v !! key).

(** [isCookieNameValid]: a cookie name is a token that is not empty. *)
Definition isCookieNameValid (raw : string) : bool :=
  match raw with
  | EmptyString => false
  | _ => all_bytes validHeaderFieldByte raw
  end.

(** [validCookieValueByte] and [validCookiePathByte]. *)
Definition validCookieValueByte (c : ascii) : bool :=
  let b := byte_val c in
  (0x20 <=? b) && (b <? 0x7f) && negb (b =? 0x22) && negb (b =? 0x3B)
  && negb (b =? 0x5C).

Definition validCookiePathByte (c : ascii) : bool :=
  let b := byte_val c in
  (0x20 <=? b) && (b <? 0x7f) && negb (b =? 0x3B).

(** [sanitizeOrWarn]: the bytes that are not valid are dropped. *)
Fixpoint sanitize (valid : ascii -> bool) (v : string) : string :=
  match v with
  | EmptyString => EmptyString
  | String c v' =>
    if valid c then String c (sanitize valid v') else sanitize valid v'
  end.

(** [parseCookieValue] on a value of a Cookie header line, where double
    quotes are allowed: a value in double quotes loses them, and a value
    with a byte that is not valid is refused. *)
Definition parseCookieValue (raw : string) : option string :=
  let n := String.length raw in
  let raw :=
    if (1 <? n)%nat
       && bool_decide (byte_val <$> String.get 0 raw = Some 0x22%N)
       && bool_decide (byte_val <$> String.get (n - 1) raw = Some 0x22%N)
    then str_sub 1 (n - 1) raw else raw in
  if all_bytes validCookieValueByte raw then Some raw else None.

(** What [readCookies] makes of one [name=value] part of a Cookie header
    line: no cookie when the name or the value is not valid. *)
Definition readCookie (part : string * string) : option Cookie :=
  if isCookieNameValid part.1 then
    match parseCookieValue part.2 with
    | Some value =>
      Some {| Name := part.1; Value := value; Path := EmptyString;
              MaxAge := 0%Z; HttpOnly := false |}
    | None => None
    end
  else None.

(** A request as the handlers see it. [Query] is what [r.URL.Query()]
    returns (the parsing of the raw query is the library's); [CookiePairs]
    holds the [name=value] parts of the Cookie header lines, in order, as
    name and value, and [Cookies] is what [r.Cookies()] returns: the
    cookies of the parts whose name and value are valid; [Vars] is the map
    [mux.Vars(r)] returns, nil when the request did not come through a
    router. *)
Record Request := {
  Method : string;
  Host : string;
  URL_Path : string;
  Query : gmap string (list string);
  Headers : gmap string (list string);
  CookiePairs : list (string * string);
  RemoteAddr : string;
  Vars : mapref }.

Definition Cookies (r : Request) : list Cookie :=
  omap readCookie (CookiePairs r).

(** [r.Cookie(name)]: the first cookie of that name; [None] is
    [ErrNoCookie], which is also the answer for the empty name. *)
Definition Request_Cookie (r : Request) (name : string) : option Cookie :=
  if bool_decide (name = EmptyString) then None
  else List.find (fun c => bool_decide (Name c = name)) (Cookies r).

Definition UserAgent (r : Request) : string := Get (Headers r) "User-Agent".

(** What a handler has done to its [http.ResponseWriter]: the header
    map, the cookies of the [Set-Cookie] lines it added, as a client reads
    them, and the bytes it wrote (what an [httptest.ResponseRecorder]
    keeps as the body). *)
Record ResponseWriter := {
  ResponseHeader : gmap string (list string);
  SetCookies : list Cookie;
  Body : string }.

Definition NewRecorder : ResponseWriter :=
  {| ResponseHeader := ∅; SetCookies := []; Body := EmptyString |}.

Definition Header_Set (w : ResponseWriter) (key value : string) : ResponseWriter :=
  {| ResponseHeader := Set_ (ResponseHeader w) key value;
     SetCookies := SetCookies w; Body := Body w |}.

(** The [Max-Age] a client reads from the line [Cookie.String] writes:
    the attribute is written as it is when positive, as [Max-Age=0] (read
    back as -1) when negative, and not at all for 0. *)
Definition wire_MaxAge (n : Z) : Z :=
  if (0 <? n)%Z then n else if (n <? 0)%Z then (-1)%Z else 0%Z.

(** [http.SetCookie]: no line is added for a cookie whose name is not
    valid ([Cookie.String] is then empty); otherwise the line carries the
    name, the value and the path without their invalid bytes, the max-age
    and the HttpOnly flag. *)
Definition SetCookie (w : ResponseWriter) (c : Cookie) : ResponseWriter :=
  if isCookieNameValid (Name c) then
    {| ResponseHeader := ResponseHeader w;
       SetCookies :=
         SetCookies w ++
         [{| Name := Name c;
             Value := sanitize validCookieValueByte (Value c);
             Path := sanitize validCookiePathByte (Path c);
             MaxAge := wire_MaxAge (MaxAge c);
             HttpOnly := HttpOnly c |}];
       Body := Body w |}
  else w.

(** [w.Write(b)]: the bytes are added to what the handler has written;
    what the server sends of them is [body_sent]. *)
Definition Write (w : ResponseWriter) (b : string) : ResponseWriter :=
  {| ResponseHeader := ResponseHeader w;
     SetCookies := SetCookies w; Body := Body w +:+ b |}.

(** The body net/http's server sends in the response to [r] when the
    handler has left [w]: for a HEAD request the server discards what the
    handler writes. *)
Definition body_sent (r : Request) (w : ResponseWriter) : string :=
  if bool_decide (Method r = "HEAD") then EmptyString else Body w.

End http.

(** * The program: [main.go] *)

Definition bytes_lit (l : list N) : string :=
  foldr (fun b s => String (byte_of b) s) EmptyString l.

Definition pixel1x1 : string := bytes_lit
  [0x47; 0x49; 0x46; 0x38; 0x39; 0x61; 0x01; 0x00; 0x01; 0x00; 0x80; 0x00;
   0x00; 0x00; 0x00; 0x00; 0x00; 0x00; 0x00; 0x21; 0xf9; 0x04; 0x01; 0x00;
   0x00; 0x00; 0x00; 0x2c; 0x00; 0x00; 0x00; 0x00; 0x01; 0x00; 0x01; 0x00;
   0x00; 0x02; 0x02; 0x44; 0x01; 0x00; 0x3b].

Record Config := {
  DisableCookies : bool;
  MaxAge : Z;
  CookieName : string;
  TrackIP : bool;
  Port : string }.

Record BrowserInfo := {
  Browser : string;
  Version : string }.

Record GeoInfo := { Geo_IP : string }.

(** [TrackingData]: the three maps are references to map objects and
    [Language] is a slice header, as in Go; copying the struct copies the
    references, not what they point to. *)
Record TrackingData := {
  Cookies : mapref;
  Host : string;
  Path : string;
  Referer : string;
  Params : mapref;
  Query : mapref;
  IP : string;
  Decay : Z;
  UserAgent : BrowserInfo;
  Language : slice;
  Geo : GeoInfo;
  Domain : string;
  Timestamp : time_.Time }.

(** The zero value of [TrackingData]. *)
Definition zeroTrackingData : TrackingData :=
  {| Cookies := None; Host := EmptyString; Path := EmptyString;
     Referer := EmptyString; Params := None; Query := None;
     IP := EmptyString; Decay := 0%Z;
     UserAgent := {| Browser := EmptyString; Version := EmptyString |};
     Language := Nil; Geo := {| Geo_IP := EmptyString |};
     Domain := EmptyString; Timestamp := 0%Z |}.

Definition set_IP (v : string) (d : TrackingData) : TrackingData :=
  {| Cookies := Cookies d; Host := Host d; Path := Path d; Referer := Referer d;
     Params := Params d; Query := Query d; IP := v; Decay := Decay d;
     UserAgent := UserAgent d; Language := Language d; Geo := Geo d;
     Domain := Domain d; Timestamp := Timestamp d |}.

Definition set_Decay (v : Z) (d : TrackingData) : TrackingData :=
  {| Cookies := Cookies d; Host := Host d; Path := Path d; Referer := Referer d;
     Params := Params d; Query := Query d; IP := IP d; Decay := v;
     UserAgent := UserAgent d; Language := Language d; Geo := Geo d;
     Domain := Domain d; Timestamp := Timestamp d |}.

Definition set_UserAgent (v : BrowserInfo) (d : TrackingData) : TrackingData :=
  {| Cookies := Cookies d; Host := Host d; Path := Path d; Referer := Referer d;
     Params := Params d; Query := Query d; IP := IP d; Decay := Decay d;
     UserAgent := v; Language := Language d; Geo := Geo d;
     Domain := Domain d; Timestamp := Timestamp d |}.

Definition set_Language (v : slice) (d : TrackingData) : TrackingData :=
  {| Cookies := Cookies d; Host := Host d; Path := Path d; Referer := Referer d;
     Params := Params d; Query := Query d; IP := IP d; Decay := Decay d;
     UserAgent := UserAgent d; Language := v; Geo := Geo d;
     Domain := Domain d; Timestamp := Timestamp d |}.

Definition set_Geo (v : GeoInfo) (d : TrackingData) : TrackingData :=
  {| Cookies := Cookies d; Host := Host d; Path := Path d; Referer := Referer d;
     Params := Params d; Query := Query d; IP := IP d; Decay := Decay d;
     UserAgent := UserAgent d; Language := Language d; Geo := v;
     Domain := Domain d; Timestamp := Timestamp d |}.

Definition set_Domain (v : string) (d : TrackingData) : TrackingData :=
  {| Cookies := Cookies d; Host := Host d; Path := Path d; Referer := Referer d;
     Params := Params d; Query := Query d; IP := IP d; Decay := Decay d;
     UserAgent := UserAgent d; Language := Language d; Geo := Geo d;
     Domain := v; Timestamp := Timestamp d |}.

(** ** What a handler can do with the [*TrackingData] it receives

    The handlers modelled are the functions that act only through the
    pointer they are called with. What such a handler does is a sequence of
    stores through that pointer: assignments to the fields of the struct,
    and updates in place of the objects the fields refer to (stores into
    and deletions from its maps, stores into the elements of its language
    slice). A closure that also captures the tracker or other variables of
    the program and acts on them is not of this class, and what is proved
    of handlers is proved of this class. *)
Inductive mapField := FCookies | FParams | FQuery.

Definition field_map (m : mapField) (d : TrackingData) : mapref :=
  match m with
  | FCookies => Cookies d
  | FParams => Params d
  | FQuery => Query d
  end.

Inductive mutation :=
| Assign (f : TrackingData -> TrackingData)   (* data.F = v, for any fields *)
| MapStore (m : mapField) (k v : string)      (* data.M[k] = v *)
| MapDelete (m : mapField) (k : string)       (* delete(data.M, k) *)
| LanguageStore (i : nat) (v : string).       (* data.Language[i] = v *)

Definition Handler : Type := list mutation.

(** ** The parts of the runtime and of the libraries left as parameters *)
Class Runtime := {
  (** [math/rand]: the state of the global generator, [rand.Seed] and
      [rand.Float64]. *)
  Rng : Type;
  float64 : Type;
  rand_Seed : Z -> Rng;
  rand_Float64 : Rng -> float64 * Rng;
  (** [fmt.Sprintf("%f", x)]. *)
  Sprintf_f : float64 -> string;
  (** The capacity [append] gives a slice that has to grow. *)
  growslice : nat -> nat -> nat;
  (** [url.Parse(s)] followed by [Hostname()]; [None] when parsing fails. *)
  url_Parse_Hostname : string -> option string }.

Section Program.
Context `{RT : Runtime}.

(** The state of the process: the heap, the tracker (the program has one
    [PixelTracker], with its configuration, handlers and data store), the
    global random generator, and the wall clock, an oracle giving what
    the successive calls of [time.Now] return. *)
Record State := {
  structs : gmap loc (list TrackingData);
  maps : gmap loc (gmap string string);
  strs : gmap loc (list string);
  config : Config;
  handlers : list Handler;
  dataStore : slice;
  rand_state : Rng;
  wall : nat -> time_.Time;
  clock_reads : nat }.

Definition with_structs (v : gmap loc (list TrackingData)) (st : State) :=
  {| structs := v; maps := maps st; strs := strs st; config := config st;
     handlers := handlers st; dataStore := dataStore st;
     rand_state := rand_state st; wall := wall st;
     clock_reads := clock_reads st |}.
Definition with_maps (v : gmap loc (gmap string string)) (st : State) :=
  {| structs := structs st; maps := v; strs := strs st; config := config st;
     handlers := handlers st; dataStore := dataStore st;
     rand_state := rand_state st; wall := wall st;
     clock_reads := clock_reads st |}.
Definition with_strs (v : gmap loc (list string)) (st : State) :=
  {| structs := structs st; maps := maps st; strs := v; config := config st;
     handlers := handlers st; dataStore := dataStore st;
     rand_state := rand_state st; wall := wall st;
     clock_reads := clock_reads st |}.
Definition with_config (v : Config) (st : State) :=
  {| structs := structs st; maps := maps st; strs := strs st; config := v;
     handlers := handlers st; dataStore := dataStore st;
     rand_state := rand_state st; wall := wall st;
     clock_reads := clock_reads st |}.
Definition with_handlers (v : list Handler) (st : State) :=
  {| structs := structs st; maps := maps st; strs := strs st;
     config := config st; handlers := v; dataStore := dataStore st;
     rand_state := rand_state st; wall := wall st;
     clock_reads := clock_reads st |}.
Definition with_dataStore (v : slice) (st : State) :=
  {| structs := structs st; maps := maps st; strs := strs st;
     config := config st; handlers := handlers st; dataStore := v;
     rand_state := rand_state st; wall := wall st;
     clock_reads := clock_reads st |}.
Definition with_rand (v : Rng) (st : State) :=
  {| structs := structs st; maps := maps st; strs := strs st;
     config := config st; handlers := handlers st; dataStore := dataStore st;
     rand_state := v; wall := wall st; clock_reads := clock_reads st |}.
Definition with_clock_reads (v : nat) (st : State) :=
  {| structs := structs st; maps := maps st; strs := strs st;
     config := config st; handlers := handlers st; dataStore := dataStore st;
     rand_state := rand_state st; wall := wall st; clock_reads := v |}.

(** ** A state monad with panics *)
Definition M (A : Type) : Type := State -> option (A * State).

#[global] Instance M_ret : MRet M := fun A x st => Some (x, st).
#[global] Instance M_bind : MBind M := fun A B f m st =>
  match m st with
  | Some (a, st') => f a st'
  | None => None
  end.

Definition panic {A} : M A := fun _ => None.
Definition gets {A} (f : State -> A) : M A := fun st => Some (f st, st).
Definition modify (f : State -> State) : M unit := fun st => Some (tt, f st).

Fixpoint for_each {A} (l : list A) (body : A -> M unit) : M unit :=
  match l with
  | [] => mret tt
  | x :: l' => body x ;; for_each l' body
  end.

(** [time.Now()]: the next reading of the wall clock. *)
Definition time_Now : M time_.Time := fun st =>
  Some (wall st (clock_reads st), with_clock_reads (S (clock_reads st)) st).

(** [make(map[string]string)] and [m[k] = v]; storing into the nil map
    panics. *)
Definition make_map : M mapref := fun st =>
  let l := fresh (dom (maps st)) in
  Some (Some l, with_maps (<[l := ∅]> (maps st)) st).

Definition map_contents (st : State) (m : mapref) : gmap string string :=
  match m with
  | Some l => default ∅ (maps st !! l)
  | None => ∅
  end.

Definition map_store (m : mapref) (k v : string) : M unit :=
  match m with
  | Some l => fun st =>
    Some (tt, with_maps (<[l := <[k := v]> (map_contents st m)]> (maps st)) st)
  | None => panic
  end.

Definition map_delete (m : mapref) (k : string) : M unit :=
  match m with
  | Some l => fun st =>
    Some (tt, with_maps (<[l := delete k (map_contents st m)]> (maps st)) st)
  | None => mret tt
  end.

(** [&TrackingData{...}]: a new struct on the heap, and loads and stores
    through the pointer. *)
Definition new_struct (d : TrackingData) : M loc := fun st =>
  let '(l, h) := alloc_array (structs st) [d] in
  Some (l, with_structs h st).

Definition load (p : loc) : M TrackingData := fun st =>
  match structs st !! p with
  | Some (d :: _) => Some (d, st)
  | _ => None
  end.

Definition update (p : loc) (f : TrackingData -> TrackingData) : M unit :=
  d ← load p;
  modify (fun st => with_structs (<[p := [f d]]> (structs st)) st).

(** ** The extractors *)

(** [l[0]] on the result of [strings.Split], which is never empty. *)
Definition index0 (l : list string) : string :=
  match l with
  | x :: _ => x
  | [] => EmptyString
  end.

Definition nonempty (s : string) : bool :=
  match s with EmptyString => false | _ => true end.

Definition extractCookies (r : http.Request) : M mapref :=
  cookies ← make_map;
  for_each (http.Cookies r)
    (fun cookie => map_store cookies (http.Name cookie) (http.Value cookie)) ;;
  mret cookies.

Definition extractQueryParams (r : http.Request) : M mapref :=
  params ← make_map;
  for_each (map_to_list (http.Query r))
    (fun '(key, values) =>
       match values with
       | v :: _ => map_store params key v
       | [] => mret tt
       end) ;;
  mret params.

Definition getReferer (r : http.Request) : string :=
  let referer := http.Get (http.Headers r) "Referer" in
  let referer :=
    if nonempty referer then referer
    else http.Get (http.Headers r) "Referrer" in
  if nonempty referer then referer else "direct".

Definition getClientIP (r : http.Request) : string :=
  let forwarded := http.Get (http.Headers r) "X-Forwarded-For" in
  if nonempty forwarded then
    let ips := strings_.Split forwarded "," in
    strings_.TrimSpace (index0 ips)
  else
    let realIP := http.Get (http.Headers r) "X-Real-IP" in
    if nonempty realIP then realIP
    else
      match net.SplitHostPort (http.RemoteAddr r) with
      | inr _ => http.RemoteAddr r
      | inl (ip, _) => ip
      end.

Definition getDecay (decay : string) : M Z :=
  if nonempty decay then mret 0%Z
  else
    now ← time_Now;
    mret (time_.wrap64
            (time_.Unix (time_.Add now (5 * time_.Minute)) * 1000)%Z).

Import regexp.

Definition browserTests : list (string * Regexp) :=
  [("Edge", Cat (Lit "Edg/") (Group (Plus NotSpace)));
   ("Firefox", Cat (Lit "Firefox/") (Group (Plus NotSpace)));
   ("Safari", Cat (Lit "Version/")
                (Cat (Group (Plus NotSpace))
                   (Cat (StarLazy AnyChar) (Lit "Safari/"))));
   ("Chrome", Cat (Lit "Chrome/") (Group (Plus NotSpace)));
   ("Opera", Cat (Lit "Opera/") (Group (Plus NotSpace)));
   ("MSIE", Cat (Lit "MSIE ") (Cat (Group (Plus NotSpace)) (Lit ";")))].

(** The loop of [parseUserAgent] over the tests that are left. *)
Fixpoint parseUserAgent_loop (tests : list (string * Regexp))
         (userAgent : string) : BrowserInfo :=
  match tests with
  | [] => {| Browser := "other"; Version := EmptyString |}
  | (name, re) :: tests' =>
    let matches := FindStringSubmatch re userAgent in
    if (1 <? length matches)%nat then
      {| Browser := name; Version := nth 1 matches EmptyString |}
    else parseUserAgent_loop tests' userAgent
  end.

Definition parseUserAgent (userAgent : string) : BrowserInfo :=
  if nonempty userAgent then parseUserAgent_loop browserTests userAgent
  else {| Browser := "unknown"; Version := EmptyString |}.

Definition append_string (s : slice) (x : string) : M slice := fun st =>
  let '(s', h) := append EmptyString growslice (strs st) s x in
  Some (s', with_strs h st).

(** [[]string{}]: an empty slice that is not nil. *)
Definition empty_strings : M slice := fun st =>
  let '(l, h) := alloc_array (strs st) [] in
  Some (Slice l 0 0, with_strs h st).

(** The loop of [parseLanguage] over the parts that are left. *)
Fixpoint parseLanguage_loop (parts : list string) (languages : slice)
  : M slice :=
  match parts with
  | [] => mret languages
  | part :: parts' =>
    let lang := index0 (strings_.Split part ";") in
    let lang := strings_.TrimSpace lang in
    languages ← (if nonempty lang then append_string languages lang
                 else mret languages);
    parseLanguage_loop parts' languages
  end.

Definition parseLanguage (acceptLanguage : string) : M slice :=
  if nonempty acceptLanguage then
    let parts := strings_.Split acceptLanguage "," in
    parseLanguage_loop parts Nil
  else empty_strings.

Definition extractDomain (host : string) : string :=
  if nonempty host then
    match url_Parse_Hostname ("http://" +:+ host) with
    | None => host
    | Some hostname => hostname
    end
  else EmptyString.

(** [rand.Seed] and [rand.Float64] on the global generator. *)
Definition Seed (seed : Z) : M unit := modify (with_rand (rand_Seed seed)).

Definition Float64 : M float64 := fun st =>
  let '(x, g) := rand_Float64 (rand_state st) in Some (x, with_rand g st).

Definition generateUserToken : M string :=
  now ← time_Now;
  Seed (time_.UnixNano now) ;;
  x ← Float64;
  let val := Sprintf_f x in
  let hash := md5.Sum val in
  mret (hex.EncodeToString hash).




(** ** The tracker *)

(** [NewPixelTracker], in a process that starts with an empty heap. *)
Definition NewPixelTracker (seed : Rng) (clock : nat -> time_.Time) : State :=
  let '(l, h) := alloc_array (∅ : gmap loc (list TrackingData)) [] in
  {| structs := h; maps := ∅; strs := ∅;
     config := {| DisableCookies := false; MaxAge := 2592000;
                  CookieName := "_tracker"; TrackIP := true; Port := "8080" |};
     handlers := [];
     dataStore := Slice l 0 0;
     rand_state := seed; wall := clock; clock_reads := 0 |}.

Definition Configure (c : Config) : M unit := modify (with_config c).

Definition Use (handler : Handler) : M unit :=
  modify (fun st => with_handlers (handlers st ++ [handler]) st).

(** [PixelHandler]: what it leaves in the response writer, and the
    arguments of the [processRequest] call it starts as a goroutine. *)
Definition PixelHandler (w : http.ResponseWriter) (r : http.Request)
  : M (http.ResponseWriter * (http.Request * option http.Cookie)) :=
  let w := http.Header_Set w "Content-Type" "image/gif" in
  let w := http.Header_Set w "Cache-Control" "no-cache, no-store, must-revalidate" in
  let w := http.Header_Set w "Pragma" "no-cache" in
  let w := http.Header_Set w "Expires" "0" in
  cfg ← gets config;
  let cookie := http.Request_Cookie r (CookieName cfg) in
  w ← (if negb (DisableCookies cfg) && negb (bool_decide (is_Some cookie)) then
         token ← generateUserToken;
         mret (http.SetCookie w
                 {| http.Name := CookieName cfg; http.Value := token;
                    http.MaxAge := MaxAge cfg; http.HttpOnly := true;
                    http.Path := "/" |})
       else mret w);
  let w := http.Write w pixel1x1 in
  mret (w, (r, cookie)).

(** [pt.dataStore.data = append(pt.dataStore.data, d)]. *)
Definition store_append (d : TrackingData) : M unit := fun st =>
  let '(s, h) := append zeroTrackingData growslice (structs st) (dataStore st) d in
  Some (tt, with_dataStore s (with_structs h st)).

Definition string_store (s : slice) (i : nat) (v : string) : M unit := fun st =>
  match store (strs st) s i v with
  | Some h => Some (tt, with_strs h st)
  | None => None
  end.

Definition run_mutation (p : loc) (mu : mutation) : M unit :=
  match mu with
  | Assign f => update p f
  | MapStore m k v => d ← load p; map_store (field_map m d) k v
  | MapDelete m k => d ← load p; map_delete (field_map m d) k
  | LanguageStore i v => d ← load p; string_store (Language d) i v
  end.

Definition call_handler (handler : Handler) (data : loc) : M unit :=
  for_each handler (run_mutation data).

(** The first part of [processRequest]: the event is built, filled in and
    appended to the data store. The result is the pointer [trackingData]. *)
Definition capture (r : http.Request) : M loc :=
  cookies ← extractCookies r;
  query ← extractQueryParams r;
  timestamp ← time_Now;
  trackingData ← new_struct
    {| Cookies := cookies; Host := http.Host r; Path := http.URL_Path r;
       Referer := getReferer r; Params := http.Vars r; Query := query;
       IP := EmptyString; Decay := 0%Z;
       UserAgent := {| Browser := EmptyString; Version := EmptyString |};
       Language := Nil; Geo := {| Geo_IP := EmptyString |};
       Domain := EmptyString; Timestamp := timestamp |};
  cfg ← gets config;
  (if TrackIP cfg then update trackingData (set_IP (getClientIP r))
   else mret tt) ;;
  decay ← getDecay (http.Values_Get (http.Query r) "decay");
  update trackingData (set_Decay decay) ;;
  update trackingData (set_UserAgent (parseUserAgent (http.UserAgent r))) ;;
  language ← parseLanguage (http.Get (http.Headers r) "Accept-Language");
  update trackingData (set_Language language) ;;
  update trackingData (set_Geo {| Geo_IP := getClientIP r |}) ;;
  update trackingData (set_Domain (extractDomain (http.Host r))) ;;
  d ← load trackingData;
  store_append d ;;
  mret trackingData.

(** The second part: every registered handler is called with the pointer. *)
Definition dispatch (trackingData : loc) : M unit :=
  handlers ← gets handlers;
  for_each handlers (fun handler => call_handler handler trackingData).

Definition processRequest (r : http.Request) (cookie : option http.Cookie)
  : M unit :=
  trackingData ← capture r;
  dispatch trackingData.

Definition GetTrackingData : M slice := fun st =>
  let '(dataCopy, h) :=
    make zeroTrackingData (structs st) (len (dataStore st)) in
  let h := copy h dataCopy (dataStore st) in
  Some (dataCopy, with_structs h st).

End Program.


(** * Notions used to state the properties *)

Local Close Scope N_scope.

(** The piece of [s] before the first byte [c] (all of [s] when there is none). *)
Fixpoint before_sep (c : ascii) (s : string) : string :=
  match s with
  | EmptyString => EmptyString
  | String a s' => if Ascii.eqb a c then EmptyString else String a (before_sep c s')
  end.

(** The pieces put back together with the separator between them. *)
Fixpoint join_sep (c : ascii) (l : list string) : string :=
  match l with
  | [] => EmptyString
  | [x] => x
  | x :: l' => x +:+ String c (join_sep c l')
  end.

Definition has_byte (c : ascii) (s : string) : bool :=
  negb (http.all_bytes (fun a => negb (Ascii.eqb a c)) s).

Definition is_lower_hex (c : ascii) : bool :=
  let b := byte_val c in
  (((0x30 <=? b) && (b <=? 0x39)) || ((0x61 <=? b) && (b <=? 0x66)))%N.

(** A 32-character lowercase hexadecimal string. *)
Definition is_token (s : string) : bool :=
  (String.length s =? 32)%nat && http.all_bytes is_lower_hex s.

(** A slice is well formed in a heap when its backing array is allocated,
    has the slice's capacity as length, and the length fits the capacity. *)
Definition slice_wf {A} (h : gmap loc (list A)) (s : slice) : Prop :=
  match s with
  | Nil => True
  | Slice a n c => exists xs, h !! a = Some xs /\ length xs = c /\ n <= c
  end.

(** Two slices that do not share their backing array. *)
Definition apart (s t : slice) : Prop :=
  match s, t with
  | Slice a _ _, Slice b _ _ => a <> b
  | _, _ => True
  end.

Definition is_Assign (mu : mutation) : Prop :=
  match mu with Assign _ => True | _ => False end.





(** The slice a pointer to one heap-allocated struct amounts to. *)
Definition cell (p : loc) : slice := Slice p 1 1.

(** The number of capturing groups of a pattern. *)
Fixpoint groups (r : regexp.Regexp) : nat :=
  match r with
  | regexp.Lit _ | regexp.Plus _ | regexp.StarLazy _ => 0
  | regexp.Cat r1 r2 => groups r1 + groups r2
  | regexp.Group r' => S (groups r')
  end.


Definition matched (re : regexp.Regexp) (userAgent : string) : bool :=
  match regexp.FindStringSubmatch re userAgent with
  | [] => false
  | _ => true
  end.

(** The first of the browser tests, in their order, whose pattern matches. *)
Definition first_match (userAgent : string) : option (string * regexp.Regexp) :=
  List.find (fun t => matched t.2 userAgent) browserTests.

(** The language list as the specification words it: the header split on
    commas, each piece cut before its first [;] and trimmed, the empty
    pieces dropped. *)
Definition language_list (acceptLanguage : string) : list string :=
  filter (fun lang => lang <> EmptyString)
    (map (fun part => strings_.TrimSpace (before_sep ";" part))
       (strings_.Split acceptLanguage ",")).

(** What [extractCookies] and [extractQueryParams] put in their maps. *)
Definition cookie_map (r : http.Request) : gmap string string :=
  foldl (fun m c => <[http.Name c := http.Value c]> m) ∅ (http.Cookies r).

Definition query_map (r : http.Request) : gmap string string :=
  foldl (fun m kv => match kv.2 with v :: _ => <[kv.1 := v]> m | [] => m end)
        ∅ (map_to_list (http.Query r)).

Section Views.
Context `{RT : Runtime}.

(** An event with its references followed: what a reader of the record
    (the JSON encoder of the stats endpoint, say) sees. *)
Record Event := {
  ev_Cookies : gmap string string;
  ev_Host : string;
  ev_Path : string;
  ev_Referer : string;
  ev_Params : gmap string string;
  ev_Query : gmap string string;
  ev_IP : string;
  ev_Decay : Z;
  ev_UserAgent : BrowserInfo;
  ev_Language : list string;
  ev_Geo : GeoInfo;
  ev_Domain : string;
  ev_Timestamp : time_.Time }.

Definition view (st : State) (d : TrackingData) : Event :=
  {| ev_Cookies := map_contents st (Cookies d);
     ev_Host := Host d; ev_Path := Path d; ev_Referer := Referer d;
     ev_Params := map_contents st (Params d);
     ev_Query := map_contents st (Query d);
     ev_IP := IP d; ev_Decay := Decay d; ev_UserAgent := UserAgent d;
     ev_Language := read (strs st) (Language d);
     ev_Geo := Geo d; ev_Domain := Domain d; ev_Timestamp := Timestamp d |}.

(** The records of a slice of events, and the events as a reader sees them. *)
Definition records (st : State) (s : slice) : list TrackingData :=
  read (structs st) s.

Definition events (st : State) (s : slice) : list Event :=
  view st <$> records st s.

(** The data store of a state is well formed. *)
Definition wf (st : State) : Prop := slice_wf (structs st) (dataStore st).

(** The wall-clock reading the next call of [time.Now] returns. *)
Definition now (st : State) : time_.Time := wall st (clock_reads st).

(** The token [generateUserToken] computes from a clock reading. *)
Definition token_at (t : time_.Time) : string :=
  hex.EncodeToString
    (md5.Sum (Sprintf_f (fst (rand_Float64 (rand_Seed (time_.UnixNano t)))))).


(** The decay [getDecay] computes from a clock reading when there is no
    decay value. *)
Definition decay_at (t : time_.Time) : Z :=
  time_.wrap64 (time_.Unix (time_.Add t (5 * time_.Minute)) * 1000)%Z.

(** [PixelHandler] issues a cookie: issuance is not disabled and the request
    carries no cookie of the configured name. *)
Definition issues_cookie (st : State) (r : http.Request) : bool :=
  negb (DisableCookies (config st))
  && negb (bool_decide (is_Some (http.Request_Cookie r (CookieName (config st))))).

(** The record [capture] builds from a request in a state: [lc] and [lq] are
    the new cookie and query maps and [sl] is the language slice. *)
Definition built (r : http.Request) (st : State) (lc lq : loc) (sl : slice)
  : TrackingData :=
  {| Cookies := Some lc; Host := http.Host r; Path := http.URL_Path r;
     Referer := getReferer r; Params := http.Vars r; Query := Some lq;
     IP := if TrackIP (config st) then getClientIP r else EmptyString;
     Decay := if nonempty (http.Values_Get (http.Query r) "decay") then 0%Z
              else decay_at (wall st (S (clock_reads st)));
     UserAgent := parseUserAgent (http.UserAgent r);
     Language := sl;
     Geo := {| Geo_IP := getClientIP r |};
     Domain := extractDomain (http.Host r);
     Timestamp := now st |}.

(** The record that capturing a request appends to the data store. *)
Definition captured (r : http.Request) (st : State) : option TrackingData :=
  match capture r st with
  | Some (_, st') => last (records st' (dataStore st'))
  | None => None
  end.


(** The operations of the tracker. *)
Inductive operation : forall A, M A -> Prop :=
| op_Configure c : operation unit (Configure c)
| op_Use handler : operation unit (Use handler)
| op_PixelHandler w r : operation _ (PixelHandler w r)
| op_processRequest r cookie : operation unit (processRequest r cookie)
| op_GetTrackingData : operation slice GetTrackingData.

(** The states a process reaches from [NewPixelTracker] by operations that
    return. *)
Inductive reachable : State -> Prop :=
| reach_new seed clock : reachable (NewPixelTracker seed clock)
| reach_step A (m : M A) a st st' :
    operation A m -> reachable st -> m st = Some (a, st') -> reachable st'.

End Views.

(** * The rest of [main.go]: the stats endpoint and the helpers of the tests *)

(** ** encoding/json

    The value [json.Marshal] builds from a Go value of the program's types
    before it writes it out: a struct gives an object with a member for
    each field, in the order of the fields and under the name of its [json]
    tag, a field tagged [omitempty] being left out when it is empty; a nil
    map or slice gives [null]; a map gives an object with the map's
    entries as members; a [time.Time] is written by its own
    [MarshalJSON]. *)
#[warnings="-register-all"] Inductive json :=
| JNull
| JString (s : string)
| JNumber (n : Z)
| JTime (t : time_.Time)
| JArray (elements : list json)
| JObject (members : list (string * json))
| JMap (m : gmap string string).

(** The member of an object under a name. *)
Definition member (name : string) (j : json) : option json :=
  match j with
  | JObject members =>
    snd <$> List.find (fun m => bool_decide (m.1 = name)) members
  | _ => None
  end.

Section Stats.
Context `{RT : Runtime}.

(** What the encoder writes for a value, its final newline included: the
    rendering of strings, numbers and times is the library's. The encoder
    is taken not to fail: values of the program's types always encode, a
    time provided its year is within 0..9999. *)
Variable Encode : json -> string.

Definition json_of_map (st : State) (m : mapref) : json :=
  match m with
  | None => JNull
  | Some _ => JMap (map_contents st m)
  end.

Definition json_of_strings (st : State) (s : slice) : json :=
  match s with
  | Nil => JNull
  | Slice _ _ _ => JArray (JString <$> read (strs st) s)
  end.

Definition json_of_BrowserInfo (b : BrowserInfo) : json :=
  JObject [("browser", JString (Browser b)); ("version", JString (Version b))].

Definition json_of_GeoInfo (g : GeoInfo) : json :=
  JObject [("ip", JString (Geo_IP g))].

(** [TrackingData] with its tags: [ip] is tagged [omitempty]. *)
Definition json_of_TrackingData (st : State) (d : TrackingData) : json :=
  JObject
    ([("cookies", json_of_map st (Cookies d));
      ("host", JString (Host d));
      ("path", JString (Path d));
      ("referer", JString (Referer d));
      ("params", json_of_map st (Params d));
      ("query", json_of_map st (Query d))]
     ++ (if nonempty (IP d) then [("ip", JString (IP d))] else [])
     ++ [("decay", JNumber (Decay d));
         ("useragent", json_of_BrowserInfo (UserAgent d));
         ("language", json_of_strings st (Language d));
         ("geo", json_of_GeoInfo (Geo d));
         ("domain", JString (Domain d));
         ("timestamp", JTime (Timestamp d))]).

Definition json_of_data (st : State) (data : slice) : json :=
  match data with
  | Nil => JNull
  | Slice _ _ _ => JArray (json_of_TrackingData st <$> records st data)
  end.

(** [StatsHandler]: what it leaves in the response writer. *)
Definition StatsHandler (w : http.ResponseWriter) (r : http.Request)
  : M http.ResponseWriter :=
  let w := http.Header_Set w "Content-Type" "application/json" in
  data ← GetTrackingData;
  doc ← gets (fun st => json_of_data st data);
  mret (http.Write w (Encode doc)).

End Stats.

Section Served.
Context `{RT : Runtime}.

(** One pixel request served to the end: [PixelHandler] on a new recorder,
    then the [processRequest] call it started, run to completion before
    anything else happens. *)
Definition serve (r : http.Request) : M unit :=
  '(_, (r', cookie)) ← PixelHandler http.NewRecorder r;
  processRequest r' cookie.

End Served.

(** ** [main]: the routes *)

Inductive endpoint := PixelEndpoint | StatsEndpoint | TestPageEndpoint.

(** The routes [main] registers on the router, in order: the path, the
    methods and the handler. *)
Definition routes : list (string * list string * endpoint) :=
  [("/pixel.gif", ["GET"; "HEAD"], PixelEndpoint);
   ("/stats", ["GET"], StatsEndpoint);
   ("/", ["GET"], TestPageEndpoint)].

(** The handler the router calls for a request: that of the first route
    with the path and a method of the request; [None] when the router
    answers by itself (not found, method not allowed). *)
Definition route (r : http.Request) : option endpoint :=
  snd <$> List.find
            (fun rt => bool_decide (rt.1.1 = http.URL_Path r)
                       && bool_decide (http.Method r ∈ rt.1.2))
            routes.

(** ** The helpers of the test suite *)

(** The test of [isHexString] on a rune. *)
Definition hex_rune (c : N) : bool :=
  (((0x30 <=? c) && (c <=? 0x39)) || ((0x61 <=? c) && (c <=? 0x66))
   || ((0x41 <=? c) && (c <=? 0x46)))%N.

(** [isHexString]: the [range] loop decodes one rune per turn, an invalid
    byte being one [RuneError] of width 1. Each turn drops at least one
    byte, so [length s] turns are enough. *)
Fixpoint isHexString_loop (fuel : nat) (s : string) : bool :=
  match fuel, s with
  | _, EmptyString => true
  | O, _ => true
  | S fuel', _ =>
    let '(c, size) := utf8.DecodeRuneInString s in
    if negb (hex_rune c) then false
    else isHexString_loop fuel' (str_drop size s)
  end.

Definition isHexString (s : string) : bool :=
  isHexString_loop (String.length s) s.

(** [slicesEqual] on what the two slices read: [None] is the panic of
    [b[i]] out of range. *)
Fixpoint slicesEqual_loop (a : list string) (i : nat) (b : list string)
  : option bool :=
  match a with
  | [] => Some true
  | v :: a' =>
    match b !! i with
    | None => None
    | Some w =>
      if bool_decide (v <> w) then Some false
      else slicesEqual_loop a' (S i) b
    end
  end.

Definition slicesEqual (a b : list string) : option bool :=
  if bool_decide (length a <> length b) then Some false
  else slicesEqual_loop a 0 b.

(** ** More notions used to state the properties *)

(** [t] is a piece of [s]. *)
Definition infix_of (t s : string) : Prop :=
  exists a b, s = a +:+ t +:+ b.

Definition first_byte (s : string) : option ascii :=
  match s with
  | String c _ => Some c
  | EmptyString => None
  end.

Definition last_byte (s : string) : option ascii := first_byte (str_rev s).

(** No ASCII white space at either end. *)
Definition trimmed (s : string) : Prop :=
  (forall c, first_byte s = Some c -> strings_.asciiSpace c = false) /\
  (forall c, last_byte s = Some c -> strings_.asciiSpace c = false).

(** The texts a pattern matches, with the captures it adds to [caps]. *)
Fixpoint denotes (re : regexp.Regexp) (x : string) (caps caps' : list string)
  : Prop :=
  match re with
  | regexp.Lit p => x = p /\ caps' = caps
  | regexp.Plus k =>
    x <> EmptyString /\ http.all_bytes (regexp.in_class k) x = true
    /\ caps' = caps
  | regexp.StarLazy k =>
    http.all_bytes (regexp.in_class k) x = true /\ caps' = caps
  | regexp.Cat r1 r2 =>
    exists x1 x2 caps1,
      x = x1 +:+ x2 /\ denotes r1 x1 caps caps1 /\ denotes r2 x2 caps1 caps'
  | regexp.Group r => exists caps1, denotes r x caps caps1 /\ caps' = caps1 ++ [x]
  end.

(** The text that comes right before the version in each browser's
    pattern. *)
Definition markers : list (string * string) :=
  [("Edge", "Edg/"); ("Firefox", "Firefox/"); ("Safari", "Version/");
   ("Chrome", "Chrome/"); ("Opera", "Opera/"); ("MSIE", "MSIE ")].

(** The part of a decoded rune its first two bytes give. *)
Definition rune_head (sz : nat) (s0 s1 : N) : N :=
  if (sz <=? 2)%nat then N.lor (N.shiftl (N.land s0 0x1F) 6) (N.land s1 0x3F)
  else if (sz <=? 3)%nat then
    N.lor (N.shiftl (N.land s0 0x0F) 12) (N.shiftl (N.land s1 0x3F) 6)
  else N.lor (N.shiftl (N.land s0 0x07) 18) (N.shiftl (N.land s1 0x3F) 12).

Definition rune_head_high (s0 s1 : N) : bool :=
  match utf8.first s0 with
  | None => true
  | Some (sz, (lo, hi)) =>
    if ((s1 <? lo) || (hi <? s1))%N then true
    else (0x80 <=? rune_head sz s0 s1)%N
  end.

Section MoreViews.
Context `{RT : Runtime}.

(** What an event shows of the request it was captured from, under a
    configuration. *)
Definition shows (cfg : Config) (r : http.Request) (e : Event) : Prop :=
  ev_Host e = http.Host r /\
  ev_Path e = http.URL_Path r /\
  ev_Referer e = getReferer r /\
  ev_Cookies e = cookie_map r /\
  ev_Query e = query_map r /\
  ev_IP e = (if TrackIP cfg then getClientIP r else EmptyString) /\
  ev_UserAgent e = parseUserAgent (http.UserAgent r) /\
  ev_Language e = language_list (http.Get (http.Headers r) "Accept-Language") /\
  ev_Geo e = {| Geo_IP := getClientIP r |} /\
  ev_Domain e = extractDomain (http.Host r).

(** The cookie and query maps and the language slice of a record are
    allocated. *)
Definition allocated (st : State) (d : TrackingData) : Prop :=
  (exists lc, Cookies d = Some lc /\ is_Some (maps st !! lc)) /\
  (exists lq, Query d = Some lq /\ is_Some (maps st !! lq)) /\
  slice_wf (strs st) (Language d).

(** The three references of a record read the same in two states. *)
Definition same_reads (st st' : State) (d : TrackingData) : Prop :=
  map_contents st' (Cookies d) = map_contents st (Cookies d) /\
  map_contents st' (Query d) = map_contents st (Query d) /\
  read (strs st') (Language d) = read (strs st) (Language d).

End MoreViews.

(** ** A runtime to evaluate executions on

    The properties below hold for every [Runtime]. To run the program on
    concrete requests one is needed: here the generator is a Lehmer
    generator, [%f] prints six decimals, a slice that grows doubles its
    capacity, and the host name of a URL is its host without the port. *)
Module Sample.

Definition modulus : Z := 2147483647.

Definition digits6 (x : Z) : string :=
  bytes_lit (map (fun i => (0x30 + Z.to_N ((x / 10 ^ Z.of_nat i) mod 10))%N)
                 [5; 4; 3; 2; 1; 0]%nat).

Definition hostname (u : string) : option string :=
  let h := str_drop 7 u in
  match net.SplitHostPort h with
  | inl (host, _) => Some host
  | inr _ => Some h
  end.

#[export] Instance runtime : Runtime := {|
  Rng := Z;
  float64 := Z;
  rand_Seed := fun seed => (seed mod modulus)%Z;
  rand_Float64 := fun g => let g' := ((48271 * g) mod modulus)%Z in (g', g');
  Sprintf_f := fun x => "0." +:+ digits6 ((x * 1000000) / modulus)%Z;
  growslice := fun c _ => (2 * c)%nat;
  url_Parse_Hostname := hostname |}.

(** A clock that starts on 2023-11-14 22:13:20.123456789 UTC and advances
    by a microsecond between two readings. *)
Definition clock (n : nat) : time_.Time :=
  (1700000000123456789 + 1000 * Z.of_nat n)%Z.

Definition start : State := NewPixelTracker 1%Z clock.

Definition header (kvs : list (string * string)) : gmap string (list string) :=
  foldl (fun h kv => http.Set_ h kv.1 kv.2) ∅ kvs.

(** [httptest.NewRequest("GET", "/pixel.gif", nil)] with the given query
    and headers. *)
Definition request (query : gmap string (list string))
           (hs : list (string * string))
  : http.Request :=
  {| http.Method := "GET"; http.Host := "example.com";
     http.URL_Path := "/pixel.gif"; http.Query := query;
     http.Headers := header hs; http.CookiePairs := [];
     http.RemoteAddr := "192.168.1.1:12345"; http.Vars := None |}.

(** [GET /pixel.gif?decay=]: the decay parameter is there, with no value. *)
Definition empty_decay_request : http.Request :=
  request {["decay" := [EmptyString]]} [].

(** A request whose forwarded-for header starts with a comma. *)
Definition blank_forwarded_request : http.Request :=
  request ∅ [("X-Forwarded-For", ",")].

(** [GET /pixel.gif?id=7]. *)
Definition id_request : http.Request := request {["id" := ["7"]]} [].

(** A handler that does [data.Query["evil"] = "1"], and the tracker after
    it has been registered. *)
Definition tamper : Handler := [MapStore FQuery "evil" "1"].

Definition tampered : State := with_handlers [tamper] start.

(** A record to append. *)
Definition record (host : string) : TrackingData :=
  {| Cookies := None; Host := host; Path := "/pixel.gif"; Referer := "direct";
     Params := None; Query := None; IP := EmptyString; Decay := 0%Z;
     UserAgent := {| Browser := "unknown"; Version := EmptyString |};
     Language := Nil; Geo := {| Geo_IP := EmptyString |};
     Domain := host; Timestamp := 0%Z |}.


(** [HEAD /pixel.gif]. *)
Definition head_request : http.Request :=
  {| http.Method := "HEAD"; http.Host := "example.com";
     http.URL_Path := "/pixel.gif"; http.Query := ∅;
     http.Headers := ∅; http.CookiePairs := [];
     http.RemoteAddr := "192.168.1.1:12345"; http.Vars := None |}.

(** The tracker after [Configure(Config{TrackIP: true})]: the fields left
    out have their zero value, the cookie name among them. *)
Definition unnamed : State :=
  with_config {| DisableCookies := false; MaxAge := 0%Z;
                 CookieName := EmptyString; TrackIP := true;
                 Port := EmptyString |} start.

(** The tracker configured with a cookie name that holds a space and a
    negative max-age. *)
Definition misnamed : State :=
  with_config {| DisableCookies := false; MaxAge := (-5)%Z;
                 CookieName := "tracker id"; TrackIP := true;
                 Port := "8080" |} start.




(** The data store after three events: its backing array has room for a
    fourth. *)
Definition busy : State :=
  match for_each [record "x.example"; record "y.example"; record "z.example"]
          store_append start with
  | Some (_, st) => st
  | None => start
  end.

End Sample.

(** ** More requests to evaluate executions on *)
Module Visits.
Import Sample.

(** A request that came through two proxies. *)
Definition forwarded_request : http.Request :=
  request ∅ [("X-Forwarded-For", " 203.0.113.1 , 198.51.100.2")].

(** The cookie a browser sends back after the first response of
    [Sample.start], and a request that carries it. *)
Definition tracker_cookie : http.Cookie :=
  {| http.Name := "_tracker"; http.Value := token_at (now start);
     http.Path := EmptyString; http.MaxAge := 0%Z; http.HttpOnly := false |}.

Definition returning_request : http.Request :=
  {| http.Method := "GET"; http.Host := "example.com";
     http.URL_Path := "/pixel.gif"; http.Query := ∅;
     http.Headers := ∅;
     http.CookiePairs := [("_tracker", token_at (now start))];
     http.RemoteAddr := "192.168.1.1:12345"; http.Vars := None |}.

(** A configuration without cookies and without IP tracking. *)
Definition anonymous : Config :=
  {| DisableCookies := true; MaxAge := 0%Z; CookieName := "_tracker";
     TrackIP := false; Port := "8080" |}.

(** A plain rendering of JSON values: no escapes in strings, times as
    nanoseconds, the members of a map in the order of [map_to_list]. *)
Definition quote (s : string) : string :=
  String (byte_of 34) (s +:+ String (byte_of 34) EmptyString).

Fixpoint digits (fuel : nat) (n : Z) (acc : string) : string :=
  match fuel with
  | O => acc
  | S fuel' =>
    let acc := String (byte_of (0x30 + Z.to_N (n mod 10))) acc in
    if (n <? 10)%Z then acc else digits fuel' (n / 10)%Z acc
  end.

Definition decimal (n : Z) : string :=
  if (n <? 0)%Z then "-" +:+ digits 80 (- n)%Z EmptyString
  else digits 80 n EmptyString.

Fixpoint render (j : json) : string :=
  let fix elements (l : list json) : string :=
    match l with
    | [] => EmptyString
    | x :: l' =>
      render x +:+ match l' with [] => EmptyString | _ => "," +:+ elements l' end
    end in
  let fix members (l : list (string * json)) : string :=
    match l with
    | [] => EmptyString
    | (k, v) :: l' =>
      quote k +:+ ":" +:+ render v
      +:+ match l' with [] => EmptyString | _ => "," +:+ members l' end
    end in
  match j with
  | JNull => "null"
  | JString s => quote s
  | JNumber n => decimal n
  | JTime t => decimal t
  | JArray l => "[" +:+ elements l +:+ "]"
  | JObject l => "{" +:+ members l +:+ "}"
  | JMap m =>
    "{" +:+ join_sep ","
              (map (fun kv => quote kv.1 +:+ ":" +:+ quote kv.2) (map_to_list m))
        +:+ "}"
  end.

Definition Encode (j : json) : string := render j +:+ String (byte_of 10) EmptyString.

End Visits.


(** * Facts *)

Import regexp.

(** ** Slices over a heap of arrays *)

Lemma fresh_unused {V} (h : gmap loc V) : h !! fresh (dom h) = None.
Proof. apply not_elem_of_dom, is_fresh. Qed.

Section ArrayFacts.
Context {A : Type} (zero : A) (grow : nat -> nat -> nat).
Implicit Types (h : gmap loc (list A)) (s t : slice) (x : A).


Lemma read_wf_length h s : slice_wf h s -> length (read h s) = len s.
Proof.
  destruct s as [|a n c]; simpl; [done|].
  intros (xs & Ha & Hl & Hn). unfold array_at. rewrite Ha. simpl.
  rewrite length_take. lia.
Qed.

(** Appending extends what the slice reads by the new element, and leaves
    the slice well formed. *)
Lemma append_read h s x s' h' :
  slice_wf h s -> append zero grow h s x = (s', h') ->
  read h' s' = read h s ++ [x] /\ slice_wf h' s' /\ len s' = S (len s).
Proof.
  intros Hwf. destruct s as [|a n c]; simpl.
  - unfold alloc_array. intros [= <- <-].
    simpl. unfold array_at. rewrite lookup_insert_eq. simpl.
    split; [by rewrite take_0|]. split; [|done].
    eexists. split; [done|]. simpl. rewrite length_replicate. lia.
  - destruct Hwf as (xs & Ha & Hl & Hn).
    destruct (n <? c)%nat eqn:Hlt.
    + apply Nat.ltb_lt in Hlt. intros [= <- <-]. simpl.
      unfold array_at. rewrite lookup_insert_eq, Ha. simpl.
      split; [|split; [|done]].
      * rewrite (take_S_r _ _ x) by (apply list_lookup_insert_eq; lia).
        by rewrite take_insert_ge by lia.
      * eexists. split; [done|]. rewrite length_insert. lia.
    + apply Nat.ltb_ge in Hlt. assert (n = c) as -> by lia.
      unfold alloc_array. intros [= <- <-]. simpl.
      unfold array_at. rewrite lookup_insert_eq, Ha. simpl.
      rewrite (take_ge xs) by lia.
      split; [|split; [|done]].
      * rewrite take_app, (take_ge xs) by lia.
        replace (S c - length xs) with 1 by lia. simpl. by rewrite take_0.
      * eexists. split; [done|].
        rewrite length_app. simpl. rewrite length_replicate. lia.
Qed.

(** Appending to a slice does not touch a well-formed slice that lives in
    another array, and the result still lives apart from it. *)
Lemma append_frame h s x s' h' t :
  slice_wf h s -> slice_wf h t -> apart s t ->
  append zero grow h s x = (s', h') ->
  read h' t = read h t /\ slice_wf h' t /\ apart s' t.
Proof.
  intros Hs Ht Hap. destruct t as [|b m k]; [by destruct s'|].
  destruct Ht as (ys & Hb & Hl & Hm).
  assert (forall l zs, h !! l = None ->
            read (<[l := zs]> h) (Slice b m k) = read h (Slice b m k)
            /\ slice_wf (<[l := zs]> h) (Slice b m k) /\ l <> b) as Hfresh.
  { intros l zs Hfr. assert (l <> b) by congruence.
    simpl. unfold array_at. rewrite lookup_insert_ne by done.
    split; [done|]. split; [|done]. by exists ys. }
  destruct s as [|a n c]; simpl.
  - unfold alloc_array. intros [= <- <-]. apply Hfresh, fresh_unused.
  - simpl in Hap. destruct (n <? c)%nat.
    + intros [= <- <-]. simpl. unfold array_at.
      rewrite lookup_insert_ne by done. split; [done|]. split; [|done].
      by exists ys.
    + unfold alloc_array. intros [= <- <-]. apply Hfresh, fresh_unused.
Qed.

(** [make] followed by [copy]: the new slice reads what the source reads
    and lives in an array of its own; every slice that was well formed
    still is and reads the same. *)
Lemma make_copy h s t h1 :
  slice_wf h s -> make zero h (len s) = (t, h1) ->
  let h2 := copy h1 t s in
  read h2 t = read h s /\ slice_wf h2 t /\ apart s t /\ len t = len s /\
  forall u, slice_wf h u -> read h2 u = read h u /\ slice_wf h2 u /\ apart u t.
Proof.
  intros Hs. unfold make, alloc_array. intros [= <- <-].
  pose proof (fresh_unused h) as Hfr. set (l := fresh (dom h)) in *.
  pose proof (read_wf_length h s Hs) as Hlen.
  assert (forall u, slice_wf h u ->
            read (<[l := replicate (len s) zero]> h) u = read h u) as Hrd.
  { intros [|b m k]; [done|]. intros (ys & Hb & _). simpl. unfold array_at.
    rewrite lookup_insert_ne by congruence. done. }
  assert (copy (<[l := replicate (len s) zero]> h) (Slice l (len s) (len s)) s
          = <[l := read h s]> h) as ->.
  { unfold copy. rewrite Nat.min_id, (Hrd s Hs).
    unfold array_at. rewrite lookup_insert_eq. simpl.
    rewrite (take_ge (read h s)) by lia.
    rewrite (drop_ge (replicate _ _)) by (rewrite length_replicate; lia).
    by rewrite app_nil_r, insert_insert_eq. }
  split; [|split; [|split; [|split; [done|]]]].
  - simpl. unfold array_at. rewrite lookup_insert_eq. simpl.
    apply take_ge. lia.
  - eexists. split; [apply lookup_insert_eq|]. split; [exact Hlen|lia].
  - destruct s as [|a n c]; [done|]. destruct Hs as (? & ? & _). simpl. congruence.
  - intros [|b m k]; [done|]. intros (ys & Hb & Hl & Hm).
    assert (l <> b) by congruence. simpl. unfold array_at.
    rewrite lookup_insert_ne by done. split; [done|]. split; [by exists ys|done].
Qed.

End ArrayFacts.

(** ** Facts about the library models *)

Lemma append_String a (s t : string) : String a s +:+ t = String a (s +:+ t).
Proof. reflexivity. Qed.

Lemma append_Empty (t : string) : EmptyString +:+ t = t.
Proof. reflexivity. Qed.

Lemma Split_cons s c : exists x xs, strings_.Split s c = x :: xs.
Proof.
  induction s as [|a s (x & xs & IH)]; simpl; [by eauto|].
  destruct (Ascii.eqb a c); [by eauto|]. rewrite IH. by eauto.
Qed.

Lemma index0_Split s c : index0 (strings_.Split s c) = before_sep c s.
Proof.
  induction s as [|a s IH]; simpl; [done|].
  destruct (Ascii.eqb a c); [done|].
  destruct (Split_cons s c) as (x & xs & E). rewrite E in *. simpl in *.
  by rewrite IH.
Qed.


Lemma Split_no_sep s c :
  Forall (fun x => has_byte c x = false) (strings_.Split s c).
Proof.
  induction s as [|a s IH]; simpl; [by repeat constructor|].
  destruct (Ascii.eqb a c) eqn:E; [by constructor|].
  destruct (Split_cons s c) as (x & xs & Hs). rewrite Hs in *.
  inversion IH as [|? ? Hx Hxs]; subst. constructor; [|done].
  unfold has_byte in *. simpl. rewrite E. simpl. done.
Qed.

(** [before_sep] cuts at the first separator. *)
Lemma before_sep_spec c s :
  exists rest, s = before_sep c s +:+ rest /\
    has_byte c (before_sep c s) = false /\
    (rest = EmptyString \/ exists r, rest = String c r).
Proof.
  induction s as [|a s (rest & E & H & Hr)]; simpl.
  - exists EmptyString. by eauto.
  - destruct (Ascii.eqb_spec a c) as [->|Hne].
    + exists (String c s). by eauto.
    + exists rest. simpl. split; [by rewrite append_String, <-E|]. split; [|done].
      unfold has_byte in *. simpl.
      destruct (Ascii.eqb_spec a c); [done|]. simpl. done.
Qed.

Lemma string_length_app (s t : string) :
  String.length (s +:+ t) = String.length s + String.length t.
Proof. induction s; [done|]. rewrite append_String. simpl. by rewrite IHs. Qed.

Lemma hex_digits_lower c :
  is_lower_hex (hex.digit (N.shiftr (byte_val c) 4))
  && is_lower_hex (hex.digit (N.land (byte_val c) 0x0f)) = true.
Proof. destruct c as [[] [] [] [] [] [] [] []]; reflexivity. Qed.

Lemma EncodeToString_length s :
  String.length (hex.EncodeToString s) = 2 * String.length s.
Proof. induction s as [|c s IH]; simpl; [done|]. rewrite IH. lia. Qed.

Lemma EncodeToString_lower s :
  http.all_bytes is_lower_hex (hex.EncodeToString s) = true.
Proof.
  induction s as [|c s IH]; [done|].
  pose proof (hex_digits_lower c) as H. apply andb_prop in H as [H1 H2].
  cbn [hex.EncodeToString http.all_bytes]. by rewrite H1, H2, IH.
Qed.

Lemma string_of_bytes_length l :
  String.length (md5.string_of_bytes l) = length l.
Proof. induction l; simpl; [done|]. by rewrite IHl. Qed.

Lemma le_bytes_length n x : length (md5.le_bytes n x) = n.
Proof. unfold md5.le_bytes. by rewrite length_map, length_seq. Qed.

(** [md5.Sum] returns a [[16]byte]. *)
Lemma Sum_length data : String.length (md5.Sum data) = 16.
Proof.
  unfold md5.Sum. destruct (md5.blocks _ _ _) as [[[a b] c] d].
  rewrite string_of_bytes_length, !length_app, !le_bytes_length. done.
Qed.

Lemma token_shape data : is_token (hex.EncodeToString (md5.Sum data)) = true.
Proof.
  unfold is_token. rewrite EncodeToString_length, Sum_length, EncodeToString_lower.
  done.
Qed.

(** ** regexp: what a match captures *)

Lemma star_greedy_cont {R} k s (cont : string -> option R) res :
  star_greedy k s cont = Some res -> exists rest, cont rest = Some res.
Proof.
  induction s as [|c s IH]; simpl; [by eauto|].
  destruct (in_class k c); [|by eauto].
  destruct (star_greedy k s cont) eqn:E; [|by eauto].
  intros [= ->]. by apply IH.
Qed.

Lemma star_lazy_cont {R} k s (cont : string -> option R) res :
  star_lazy k s cont = Some res -> exists rest, cont rest = Some res.
Proof.
  induction s as [|c s IH]; simpl.
  - destruct (cont EmptyString) eqn:E; [|done]. intros [= ->]. by eauto.
  - destruct (cont (String c s)) eqn:E; [intros [= ->]; by eauto|].
    destruct (in_class k c); [|done]. apply IH.
Qed.

Lemma run_groups {R} r : forall s caps (cont : string -> list string -> option R) res,
  run r s caps cont = Some res ->
  exists rest caps', cont rest caps' = Some res
                     /\ length caps' = length caps + groups r.
Proof.
  induction r as [p|k|k|r1 IH1 r2 IH2|r IH]; intros s caps cont res; simpl.
  - destruct (strip_prefix p s); [|done]. intros H. exists s0, caps. split; [done|lia].
  - unfold plus_greedy. destruct s as [|c s]; [done|].
    destruct (in_class k c); [|done].
    intros (rest & H)%star_greedy_cont. exists rest, caps. split; [done|lia].
  - intros (rest & H)%star_lazy_cont. exists rest, caps. split; [done|lia].
  - intros (rest & caps1 & H & Hl)%IH1.
    apply IH2 in H as (rest' & caps2 & H & Hl'). exists rest', caps2.
    split; [done|lia].
  - intros (rest & caps1 & H & Hl)%IH. eexists _, _. split; [exact H|].
    rewrite length_app. simpl. lia.
Qed.

(** [FindStringSubmatch] returns nil, or the whole match and one string
    for each group. *)
Lemma FindStringSubmatch_length re s :
  FindStringSubmatch re s = [] \/
  length (FindStringSubmatch re s) = S (groups re).
Proof.
  assert (forall t m, match_here re t = Some m -> length m = S (groups re)) as Hm.
  { intros t m (rest & caps & [= <-] & Hl)%run_groups. simpl in *. lia. }
  induction s as [|c s IH]; simpl.
  - destruct (match_here re EmptyString) eqn:E; [right; eauto|by left].
  - destruct (match_here re (String c s)) eqn:E; [right; eauto|done].
Qed.

Lemma str_drop_S a s i : str_drop (S i) (String a s) = str_drop i s.
Proof. done. Qed.

Lemma str_take_S a s i : str_take (S i) (String a s) = String a (str_take i s).
Proof. done. Qed.

Lemma str_take_drop i s : str_take i s +:+ str_drop i s = s.
Proof.
  revert s. induction i as [|i IH]; intros [|a s]; try done.
  rewrite str_take_S, str_drop_S, append_String. by rewrite IH.
Qed.


Lemma IndexByte_None s c :
  strings_.IndexByte s c = None <-> has_byte c s = false.
Proof.
  unfold has_byte. induction s as [|a s IH]; simpl; [done|].
  destruct (Ascii.eqb a c); simpl; [done|].
  destruct (strings_.IndexByte s c); simpl in *; [|tauto].
  split; [done|]. intros H. apply IH in H. done.
Qed.




Ltac run_monad :=
  unfold mbind, M_bind, mret, M_ret, gets, modify, panic; simpl.

Section ProgramFacts.
Context `{RT : Runtime}.

Lemma generateUserToken_run st :
  exists st', generateUserToken st = Some (token_at (now st), st')
    /\ structs st' = structs st /\ maps st' = maps st /\ strs st' = strs st
    /\ config st' = config st /\ handlers st' = handlers st
    /\ dataStore st' = dataStore st.
Proof.
  unfold generateUserToken, time_Now, Seed, Float64, token_at, now. run_monad.
  destruct (rand_Float64 _) as [x g] eqn:E. simpl. eexists. split; [done|].
  done.
Qed.

Lemma PixelHandler_run w r st :
  exists st',
    PixelHandler w r st =
      Some ((http.Write
               ((if issues_cookie st r then
                   fun w' => http.SetCookie w'
                     {| http.Name := CookieName (config st);
                        http.Value := token_at (now st);
                        http.Path := "/";
                        http.MaxAge := MaxAge (config st);
                        http.HttpOnly := true |}
                 else fun w' => w')
                  (http.Header_Set
                     (http.Header_Set
                        (http.Header_Set
                           (http.Header_Set w "Content-Type" "image/gif")
                           "Cache-Control" "no-cache, no-store, must-revalidate")
                        "Pragma" "no-cache")
                     "Expires" "0"))
               pixel1x1,
             (r, http.Request_Cookie r (CookieName (config st)))), st')
    /\ dataStore st' = dataStore st /\ structs st' = structs st.
Proof.
  unfold PixelHandler, issues_cookie. run_monad.
  destruct (negb (DisableCookies (config st)) && _) eqn:E.
  - destruct (generateUserToken_run st) as (st' & -> & Hst). simpl.
    eexists. split; [done|]. by destruct Hst as (? & ? & ? & ? & ? & ?).
  - eexists. split; [done|]. done.
Qed.

End ProgramFacts.

Section CaptureFacts.
Context `{RT : Runtime}.

Lemma nonempty_true s : nonempty s = true <-> s <> EmptyString.
Proof. by destruct s. Qed.

Lemma with_maps_with_maps a b st : with_maps a (with_maps b st) = with_maps a st.
Proof. done. Qed.

Lemma map_store_run l k v st :
  map_store (Some l) k v st
  = Some (tt, with_maps (<[l := <[k := v]> (map_contents st (Some l))]> (maps st)) st).
Proof. done. Qed.

Lemma make_map_run st :
  make_map st = Some (Some (fresh (dom (maps st))),
                      with_maps (<[fresh (dom (maps st)) := ∅]> (maps st)) st).
Proof. done. Qed.

Lemma for_each_store {X} (l : loc) (f : gmap string string -> X -> gmap string string)
      (body : X -> M unit) (xs : list X) :
  (forall x st m, maps st !! l = Some m ->
     body x st = Some (tt, with_maps (<[l := f m x]> (maps st)) st)) ->
  forall st m, maps st !! l = Some m ->
    for_each xs body st = Some (tt, with_maps (<[l := foldl f m xs]> (maps st)) st).
Proof.
  intros Hbody. induction xs as [|x xs IH]; intros st m Hm; simpl.
  - unfold mret, M_ret. f_equal. f_equal. destruct st; simpl in *.
    unfold with_maps; simpl. f_equal. by rewrite insert_id.
  - unfold mbind, M_bind. rewrite (Hbody x st m Hm).
    rewrite (IH _ (f m x)) by (simpl; apply lookup_insert_eq).
    simpl. by rewrite insert_insert_eq.
Qed.

Lemma extractCookies_run r st :
  let l := fresh (dom (maps st)) in
  extractCookies r st
  = Some (Some l, with_maps (<[l := cookie_map r]> (maps st)) st).
Proof.
  intros l. unfold extractCookies, mbind, M_bind. rewrite make_map_run. fold l.
  erewrite (for_each_store l (fun m c => <[http.Name c := http.Value c]> m)).
  - simpl. unfold mret, M_ret. by rewrite insert_insert_eq.
  - intros c st' m Hm. rewrite map_store_run. simpl. by rewrite Hm.
  - simpl. apply lookup_insert_eq.
Qed.

Lemma extractQueryParams_run r st :
  let l := fresh (dom (maps st)) in
  extractQueryParams r st
  = Some (Some l, with_maps (<[l := query_map r]> (maps st)) st).
Proof.
  intros l. unfold extractQueryParams, mbind, M_bind. rewrite make_map_run. fold l.
  erewrite (for_each_store l
    (fun m kv => match kv.2 with v :: _ => <[kv.1 := v]> m | [] => m end)).
  - simpl. unfold mret, M_ret. by rewrite insert_insert_eq.
  - intros [k [|v vs]] st' m Hm; simpl.
    + unfold mret, M_ret. f_equal. f_equal. destruct st'; unfold with_maps; simpl in *.
      f_equal. by rewrite insert_id.
    + unfold map_store, map_contents. simpl. by rewrite Hm.
  - simpl. apply lookup_insert_eq.
Qed.

Lemma update_run p f d st :
  structs st !! p = Some [d] ->
  update p f st = Some (tt, with_structs (<[p := [f d]]> (structs st)) st).
Proof. intros H. unfold update, load, mbind, M_bind, modify. by rewrite H. Qed.

Lemma getDecay_run decay st :
  getDecay decay st =
    if nonempty decay then Some (0%Z, st)
    else Some (decay_at (now st), with_clock_reads (S (clock_reads st)) st).
Proof. unfold getDecay. by destruct (nonempty decay). Qed.

Lemma append_string_run s x st :
  slice_wf (strs st) s ->
  exists s' h, append_string s x st = Some (s', with_strs h st)
    /\ read h s' = read (strs st) s ++ [x] /\ slice_wf h s'.
Proof.
  intros Hwf. unfold append_string.
  destruct (append _ _ _ _ _) as [s' h] eqn:E.
  apply append_read in E as (Hr & Hw & _); [|done]. by eauto.
Qed.

Lemma with_strs_with_strs a b st : with_strs a (with_strs b st) = with_strs a st.
Proof. done. Qed.

Lemma with_strs_id st : with_strs (strs st) st = st.
Proof. by destruct st. Qed.

Lemma parseLanguage_loop_run parts : forall acc st,
  slice_wf (strs st) acc ->
  exists s h, parseLanguage_loop parts acc st = Some (s, with_strs h st)
    /\ read h s = read (strs st) acc ++
         filter (fun lang => lang <> EmptyString)
           (map (fun part => strings_.TrimSpace (before_sep ";" part)) parts)
    /\ slice_wf h s.
Proof.
  induction parts as [|part parts IH]; intros acc st Hwf; simpl.
  - exists acc, (strs st). rewrite with_strs_id, app_nil_r. done.
  - unfold mbind, M_bind. rewrite index0_Split.
    set (lang := strings_.TrimSpace (before_sep ";" part)).
    rewrite filter_cons. destruct (nonempty lang) eqn:Hne.
    + rewrite decide_True by by apply nonempty_true.
      destruct (append_string_run acc lang st Hwf) as (s1 & h1 & -> & Hr1 & Hw1).
      destruct (IH s1 (with_strs h1 st) Hw1) as (s2 & h2 & -> & Hr2 & Hw2).
      exists s2, h2. rewrite with_strs_with_strs. split; [done|]. split; [|done].
      simpl in Hr2. rewrite Hr2, Hr1, <-(assoc_L (++)). done.
    + rewrite decide_False by (rewrite <-nonempty_true; congruence).
      unfold mret, M_ret. by apply IH.
Qed.

Lemma language_list_empty : language_list EmptyString = [].
Proof. done. Qed.

Lemma parseLanguage_run acceptLanguage st :
  exists s h, parseLanguage acceptLanguage st = Some (s, with_strs h st)
    /\ read h s = language_list acceptLanguage /\ slice_wf h s.
Proof.
  unfold parseLanguage. destruct (nonempty acceptLanguage) eqn:E.
  - destruct (parseLanguage_loop_run (strings_.Split acceptLanguage ",") Nil st I)
      as (s & h & -> & Hr & Hw). by eauto.
  - destruct acceptLanguage; [|done]. unfold empty_strings, alloc_array.
    eexists _, _. split; [done|]. split.
    + simpl. unfold array_at. by rewrite lookup_insert_eq.
    + eexists. split; [apply lookup_insert_eq|]. done.
Qed.

End CaptureFacts.

Ltac simpl_state :=
  cbn [structs maps strs config handlers dataStore rand_state wall clock_reads
       with_structs with_maps with_strs with_config with_handlers
       with_dataStore with_rand with_clock_reads] in *.

Section Built.
Context `{RT : Runtime}.

Lemma store_append_run d st :
  wf st ->
  exists s h, store_append d st = Some (tt, with_dataStore s (with_structs h st))
    /\ read h s = read (structs st) (dataStore st) ++ [d]
    /\ slice_wf h s
    /\ forall t, slice_wf (structs st) t -> apart (dataStore st) t ->
         read h t = read (structs st) t /\ slice_wf h t /\ apart s t.
Proof.
  intros Hwf. unfold store_append.
  destruct (append _ _ _ _ _) as [s h] eqn:E.
  pose proof (append_read _ _ _ _ _ _ _ Hwf E) as (Hr & Hw & _).
  exists s, h. split; [done|]. split; [done|]. split; [done|].
  intros t Ht Hap. exact (append_frame _ _ _ _ _ _ _ t Hwf Ht Hap E).
Qed.

Lemma capture_run r st :
  wf st ->
  exists p lc lq sl st',
    capture r st = Some (p, st') /\
    structs st' !! p = Some [built r st lc lq sl] /\
    apart (dataStore st') (cell p) /\
    wf st' /\
    records st' (dataStore st') = records st (dataStore st) ++ [built r st lc lq sl] /\
    config st' = config st /\ handlers st' = handlers st /\
    maps st' !! lc = Some (cookie_map r) /\
    maps st' !! lq = Some (query_map r) /\
    read (strs st') sl = language_list (http.Get (http.Headers r) "Accept-Language").
Proof.
  intros Hwf. unfold capture, mbind, M_bind.
  rewrite extractCookies_run. cbv beta iota zeta.
  rewrite extractQueryParams_run. cbv beta iota zeta.
  unfold time_Now, new_struct, alloc_array. simpl_state.
  set (lc := fresh (dom (maps st))).
  set (lq := fresh (dom (<[lc := cookie_map r]> (maps st)))).
  set (p := fresh (dom (structs st))).
  assert (structs st !! p = None) as Hpf by apply fresh_unused.
  assert (lq <> lc) as Hlq.
  { intros E. pose proof (fresh_unused (<[lc := cookie_map r]> (maps st))) as H.
    fold lq in H. by rewrite E, lookup_insert_eq in H. }
  clearbody p lq lc.
  unfold gets. simpl_state.
  set (d0 := {| Cookies := Some lc; Timestamp := wall st (clock_reads st) |}).
  set (d1 := if TrackIP (config st) then set_IP (getClientIP r) d0 else d0).
  match goal with |- context [match ?X with Some _ => _ | None => None end] =>
    assert (X = Some (tt, with_structs (<[p := [d1]]> (structs st))
                (with_clock_reads (S (clock_reads st))
                   (with_maps (<[lq := query_map r]> (<[lc := cookie_map r]> (maps st))) st))))
      as -> end.
  { subst d1. destruct (TrackIP (config st)).
    - erewrite update_run by (simpl_state; apply lookup_insert_eq).
      simpl_state. by rewrite insert_insert_eq.
    - done. }
  rewrite getDecay_run. unfold now. simpl_state.
  set (dec := if nonempty (http.Values_Get (http.Query r) "decay") then 0%Z
              else decay_at (wall st (S (clock_reads st)))).
  match goal with |- context [match ?X with Some _ => _ | None => None end] =>
    assert (exists n, X = Some (dec, with_clock_reads n
              (with_structs (<[p := [d1]]> (structs st))
                (with_maps (<[lq := query_map r]> (<[lc := cookie_map r]> (maps st))) st))))
      as [n ->] end.
  { subst dec. destruct (nonempty _); eexists; reflexivity. }
  erewrite update_run by (simpl_state; apply lookup_insert_eq). simpl_state.
  rewrite insert_insert_eq.
  erewrite update_run by (simpl_state; apply lookup_insert_eq). simpl_state.
  rewrite insert_insert_eq.
  match goal with |- context [parseLanguage ?a ?s] =>
    destruct (parseLanguage_run a s) as (sl & h & -> & Hsl & Hslwf) end.
  simpl_state.
  erewrite update_run by (simpl_state; apply lookup_insert_eq). simpl_state.
  rewrite insert_insert_eq.
  erewrite update_run by (simpl_state; apply lookup_insert_eq). simpl_state.
  rewrite insert_insert_eq.
  erewrite update_run by (simpl_state; apply lookup_insert_eq). simpl_state.
  rewrite insert_insert_eq.
  unfold load. simpl_state. rewrite lookup_insert_eq.
  set (d := set_Domain _ _).
  assert (d = built r st lc lq sl) as Hd.
  { subst d d1 d0 dec. unfold built, now. by destruct (TrackIP (config st)). }
  clearbody d. subst d.
  match goal with |- context [store_append ?d ?s] =>
    destruct (store_append_run d s) as (s' & h' & -> & Hr & Hw & Hfr) end.
  { unfold wf in *. simpl_state. destruct (dataStore st) as [|a k c]; [done|].
    destruct Hwf as (xs & Ha & Hl & Hk). exists xs.
    rewrite lookup_insert_ne; [done|]. congruence. }
  simpl_state.
  assert (slice_wf (structs st) (dataStore st)) as Hwf' by done.
  assert (read (<[p := [built r st lc lq sl]]> (structs st)) (dataStore st)
          = read (structs st) (dataStore st)) as Hsame.
  { destruct (dataStore st) as [|a k c]; [done|]. destruct Hwf' as (xs & Ha & _).
    simpl. unfold array_at. rewrite lookup_insert_ne; [done|]. congruence. }
  destruct (Hfr (cell p)) as (Hcell & Hcwf & Hcap).
  { exists [built r st lc lq sl]. split; [apply lookup_insert_eq|]. done. }
  { destruct (dataStore st) as [|a k c]; [done|]. destruct Hwf' as (xs & Ha & _).
    simpl. congruence. }
  exists p, lc, lq, sl. eexists. split; [reflexivity|]. simpl_state.
  unfold wf, records. simpl_state.
  split.
  { destruct Hcwf as (xs & Hp & Hl & _). rewrite Hp. f_equal.
    simpl in Hcell. unfold array_at in Hcell. rewrite Hp, lookup_insert_eq in Hcell.
    simpl in Hcell. destruct xs as [|x [|? ?]]; simpl in *; try done. }
  split; [done|]. split; [done|]. split; [by rewrite Hr, Hsame|].
  split; [done|]. split; [done|].
  split.
  { rewrite lookup_insert_ne by done. apply lookup_insert_eq. }
  split; [apply lookup_insert_eq|]. done.
Qed.

End Built.

Section StoreFacts.
Context `{RT : Runtime}.

Lemma view_ext st st' d :
  maps st' = maps st -> strs st' = strs st -> view st' d = view st d.
Proof.
  intros Hm Hs. unfold view, map_contents. by rewrite Hm, Hs.
Qed.

Lemma events_ext st st' s :
  maps st' = maps st -> strs st' = strs st ->
  records st' s = records st s -> events st' s = events st s.
Proof.
  intros Hm Hs Hr. unfold events. rewrite Hr.
  apply list_fmap_ext. intros _ d _. by apply view_ext.
Qed.

Lemma GetTrackingData_run st :
  wf st ->
  exists s h, GetTrackingData st = Some (s, with_structs h st)
    /\ read h s = read (structs st) (dataStore st)
    /\ slice_wf h s /\ apart (dataStore st) s
    /\ forall u, slice_wf (structs st) u ->
         read h u = read (structs st) u /\ slice_wf h u /\ apart u s.
Proof.
  intros Hwf. unfold GetTrackingData.
  destruct (make _ _ _) as [t h1] eqn:E.
  destruct (make_copy _ _ _ _ _ Hwf E) as (Hr & Hw & Hap & _ & Hfr).
  eexists _, _. split; [done|]. done.
Qed.

(** A sequence of appends: the store reads what it read, followed by the
    appended records; slices living apart from the store are not touched. *)
Lemma appends_run ds : forall st,
  wf st ->
  exists st', for_each ds store_append st = Some (tt, st')
    /\ wf st'
    /\ records st' (dataStore st') = records st (dataStore st) ++ ds
    /\ maps st' = maps st /\ strs st' = strs st
    /\ forall t, slice_wf (structs st) t -> apart (dataStore st) t ->
         read (structs st') t = read (structs st) t
         /\ slice_wf (structs st') t /\ apart (dataStore st') t.
Proof.
  induction ds as [|d ds IH]; intros st Hwf; simpl.
  - exists st. unfold mret, M_ret. rewrite app_nil_r. done.
  - unfold mbind, M_bind.
    destruct (store_append_run d st Hwf) as (s & h & -> & Hr & Hw & Hfr).
    destruct (IH (with_dataStore s (with_structs h st)) Hw)
      as (st' & -> & Hwf' & Hrec & Hm & Hs & Hfr').
    exists st'. split; [done|]. split; [done|]. unfold records in *. simpl_state.
    split; [by rewrite Hrec, Hr, <-(assoc_L (++))|].
    split; [done|]. split; [done|].
    intros t Ht Hap. destruct (Hfr t Ht Hap) as (Hr1 & Hw1 & Hap1).
    destruct (Hfr' t Hw1 Hap1) as (Hr2 & Hw2 & Hap2). by rewrite Hr2.
Qed.

Lemma apart_sym s t : apart s t -> apart t s.
Proof. destruct s, t; simpl; auto. Qed.

End StoreFacts.

Section HandlerFacts.
Context `{RT : Runtime}.

Lemma with_structs_id st : with_structs (structs st) st = st.
Proof. by destruct st. Qed.

Lemma with_structs_with_structs a b st :
  with_structs a (with_structs b st) = with_structs a st.
Proof. done. Qed.

(** A handler that only assigns fields leaves everything but the struct it
    was given as it is. *)
Lemma call_handler_assign p handler : forall st d,
  Forall is_Assign handler -> structs st !! p = Some [d] ->
  exists d', call_handler handler p st
             = Some (tt, with_structs (<[p := [d']]> (structs st)) st).
Proof.
  unfold call_handler.
  induction handler as [|mu handler IH]; intros st d Hall Hp; simpl.
  - exists d. unfold mret, M_ret. by rewrite insert_id, with_structs_id.
  - inversion Hall as [|? ? Hmu Hrest]; subst. destruct mu as [f| | |]; try done.
    unfold mbind, M_bind. simpl. rewrite (update_run p f d st Hp).
    destruct (IH (with_structs (<[p := [f d]]> (structs st)) st) (f d) Hrest)
      as (d' & ->); [apply lookup_insert_eq|].
    exists d'. simpl_state. by rewrite insert_insert_eq.
Qed.

Lemma handlers_assign p hs : forall st d,
  Forall (Forall is_Assign) hs -> structs st !! p = Some [d] ->
  exists d', for_each hs (fun handler => call_handler handler p) st
             = Some (tt, with_structs (<[p := [d']]> (structs st)) st).
Proof.
  induction hs as [|h hs IH]; intros st d Hall Hp; simpl.
  - exists d. unfold mret, M_ret. by rewrite insert_id, with_structs_id.
  - inversion Hall as [|? ? Hh Hrest]; subst. unfold mbind, M_bind.
    destruct (call_handler_assign p h st d Hh Hp) as (d1 & ->).
    destruct (IH (with_structs (<[p := [d1]]> (structs st)) st) d1 Hrest)
      as (d' & ->); [apply lookup_insert_eq|].
    exists d'. simpl_state. by rewrite insert_insert_eq.
Qed.

Lemma read_insert_apart {A} (h : gmap loc (list A)) s p xs :
  apart s (cell p) -> read (<[p := xs]> h) s = read h s.
Proof.
  destruct s as [|a n c]; [done|]. simpl. intros Hne. unfold array_at.
  by rewrite lookup_insert_ne.
Qed.

Lemma last_snoc_records {A} (l : list A) x : last (l ++ [x]) = Some x.
Proof. by rewrite last_snoc. Qed.

End HandlerFacts.

Lemma match_here_length re s m :
  match_here re s = Some m -> length m = S (groups re).
Proof. intros (rest & caps & [= <-] & Hl)%run_groups. simpl in *. lia. Qed.

Lemma FindStringSubmatch_found re s1 s2 m :
  match_here re s2 = Some m -> FindStringSubmatch re (s1 +:+ s2) <> [].
Proof.
  intros Hm. induction s1 as [|a s1 IH].
  - rewrite append_Empty. destruct s2; simpl; rewrite Hm;
      apply match_here_length in Hm; by destruct m.
  - rewrite append_String. simpl.
    destruct (match_here re (String a (s1 +:+ s2))) as [m'|] eqn:E; [|done].
    apply match_here_length in E. by destruct m'.
Qed.

#[local] Arguments in_class : simpl never.

Lemma star_greedy_total {R} k s (cont : string -> option R) :
  (forall rest, is_Some (cont rest)) -> is_Some (star_greedy k s cont).
Proof.
  intros Hc. induction s as [|c s IH]; simpl; [done|].
  destruct (in_class k c); [|done]. by destruct (star_greedy k s cont).
Qed.

Lemma parseUserAgent_loop_find ua tests :
  Forall (fun t => groups t.2 = 1) tests ->
  match List.find (fun t => matched t.2 ua) tests with
  | Some (name, re) =>
    exists whole version,
      FindStringSubmatch re ua = [whole; version]
      /\ parseUserAgent_loop tests ua = {| Browser := name; Version := version |}
  | None =>
    parseUserAgent_loop tests ua = {| Browser := "other"; Version := EmptyString |}
  end.
Proof.
  induction tests as [|[name re] tests IH]; intros Hall; simpl; [done|].
  inversion Hall as [|? ? Hg Hrest]; subst. simpl in Hg. unfold matched at 1.
  destruct (FindStringSubmatch_length re ua) as [E|E].
  - rewrite E. simpl. by apply IH.
  - rewrite Hg in E.
    destruct (FindStringSubmatch re ua) as [|whole [|version [|? ?]]] eqn:Hm;
      try done.
    simpl. by exists whole, version.
Qed.

(** ** The first Edge token of a user agent *)

Lemma str_take_length_app (x rest : string) :
  str_take (String.length x) (x +:+ rest) = x.
Proof.
  induction x as [|a x IH]; [by destruct rest|].
  rewrite append_String. simpl. by rewrite IH.
Qed.

Lemma consumed_app (x rest : string) : consumed (x +:+ rest) rest = x.
Proof.
  unfold consumed. rewrite string_length_app.
  replace (String.length x + String.length rest - String.length rest)
    with (String.length x) by lia.
  apply str_take_length_app.
Qed.



Lemma strip_prefix_self p s : strip_prefix p (p +:+ s) = Some s.
Proof.
  induction p as [|a p IH]; [by destruct s|].
  rewrite append_String. simpl. by rewrite Ascii.eqb_refl.
Qed.




(** ** The data store is well formed in every reachable state *)

Section Reach.
Context `{RT : Runtime}.

Lemma wf_NewPixelTracker seed clock : wf (NewPixelTracker seed clock).
Proof.
  exists []. split; [apply lookup_insert_eq|]. split; [done|]. apply Nat.le_refl.
Qed.

(** Whatever a handler stores through the pointer, the only struct it
    changes is the one it was given, and the data store's header stays. *)
Lemma run_mutation_structs p mu st st' d :
  structs st !! p = Some [d] ->
  run_mutation p mu st = Some (tt, st') ->
  exists d', structs st' = <[p := [d']]> (structs st)
             /\ dataStore st' = dataStore st.
Proof.
  intros Hp. destruct mu as [f|m k v|m k|i v]; simpl.
  - rewrite (update_run p f d st Hp). intros [= <-]. by exists (f d).
  - unfold mbind, M_bind, load. rewrite Hp.
    destruct (field_map m d) as [l|]; [|done]. rewrite map_store_run.
    intros [= <-]. exists d. simpl_state. by rewrite insert_id.
  - unfold mbind, M_bind, load. rewrite Hp.
    destruct (field_map m d) as [l|]; simpl.
    + intros [= <-]. exists d. simpl_state. by rewrite insert_id.
    + unfold mret, M_ret. intros [= <-]. exists d. by rewrite insert_id.
  - unfold mbind, M_bind, load. rewrite Hp. unfold string_store.
    destruct (store _ _ _ _); [|done].
    intros [= <-]. exists d. simpl_state. by rewrite insert_id.
Qed.

Lemma call_handler_structs p handler : forall st st' d,
  structs st !! p = Some [d] ->
  call_handler handler p st = Some (tt, st') ->
  exists d', structs st' = <[p := [d']]> (structs st)
             /\ dataStore st' = dataStore st.
Proof.
  unfold call_handler.
  induction handler as [|mu handler IH]; intros st st' d Hp; simpl.
  - unfold mret, M_ret. intros [= <-]. exists d. by rewrite insert_id.
  - unfold mbind, M_bind.
    destruct (run_mutation p mu st) as [[[] st1]|] eqn:E; [|done].
    destruct (run_mutation_structs p mu st st1 d Hp E) as (d1 & Hs1 & Hd1).
    intros H. apply (IH st1 st' d1) in H as (d' & Hs & Hd).
    + exists d'. by rewrite Hs, Hs1, insert_insert_eq, Hd, Hd1.
    + rewrite Hs1. apply lookup_insert_eq.
Qed.

Lemma handlers_structs p hs : forall st st' d,
  structs st !! p = Some [d] ->
  for_each hs (fun handler => call_handler handler p) st = Some (tt, st') ->
  exists d', structs st' = <[p := [d']]> (structs st)
             /\ dataStore st' = dataStore st.
Proof.
  induction hs as [|h hs IH]; intros st st' d Hp; simpl.
  - unfold mret, M_ret. intros [= <-]. exists d. by rewrite insert_id.
  - unfold mbind, M_bind.
    destruct (call_handler h p st) as [[[] st1]|] eqn:E; [|done].
    destruct (call_handler_structs p h st st1 d Hp E) as (d1 & Hs1 & Hd1).
    intros H. apply (IH st1 st' d1) in H as (d' & Hs & Hd).
    + exists d'. by rewrite Hs, Hs1, insert_insert_eq, Hd, Hd1.
    + rewrite Hs1. apply lookup_insert_eq.
Qed.

Lemma wf_insert_apart st st' p xs :
  wf st -> apart (dataStore st) (cell p) ->
  structs st' = <[p := xs]> (structs st) -> dataStore st' = dataStore st ->
  wf st'.
Proof.
  unfold wf. intros Hwf Hap -> ->.
  destruct (dataStore st) as [|a n c]; [done|].
  destruct Hwf as (ys & Ha & Hl & Hn). exists ys.
  simpl in Hap. by rewrite lookup_insert_ne.
Qed.

(** The data store stays well formed through a [processRequest] that
    returns, whatever the handlers store through the pointer. *)
Lemma wf_processRequest r cookie st st' :
  wf st -> processRequest r cookie st = Some (tt, st') ->
  wf st' /\
  exists p st1, capture r st = Some (p, st1) /\
    records st' (dataStore st') = records st1 (dataStore st1).
Proof.
  intros Hwf.
  destruct (capture_run r st Hwf)
    as (p & lc & lq & sl & st1 & Hcap & Hp & Hap & Hwf1 & _).
  unfold processRequest, mbind, M_bind. rewrite Hcap.
  unfold dispatch, mbind, M_bind, gets.
  intros (d' & Hs & Hd)%(handlers_structs p _ _ _ _ Hp).
  split; [by eapply wf_insert_apart|].
  exists p, st1. split; [done|]. unfold records. rewrite Hs, Hd.
  by apply read_insert_apart.
Qed.

(** The data store is well formed in every state the process reaches. *)
Lemma reachable_wf st : reachable st -> wf st.
Proof.
  induction 1 as [seed clock|A m a st st' Hop _ IH Hm];
    [apply wf_NewPixelTracker|].
  destruct Hop as [c|handler|w r|r cookie|].
  - unfold Configure, modify in Hm. injection Hm as _ <-. exact IH.
  - unfold Use, modify in Hm. injection Hm as _ <-. exact IH.
  - destruct (PixelHandler_run w r st) as (st2 & E & Hd & Hs).
    rewrite E in Hm. injection Hm as _ <-. unfold wf. by rewrite Hd, Hs.
  - destruct a. by apply (wf_processRequest r cookie st st').
  - destruct (GetTrackingData_run st IH) as (s & h & E & _ & _ & _ & Hfr).
    rewrite E in Hm. injection Hm as _ <-. by destruct (Hfr _ IH) as (_ & ? & _).
Qed.

End Reach.

(** ** Loops *)

Section LoopFacts.
Context `{RT : Runtime}.

Lemma for_each_app {A} (l1 l2 : list A) (body : A -> M unit) st :
  for_each (l1 ++ l2) body st = (for_each l1 body ;; for_each l2 body) st.
Proof.
  revert st. induction l1 as [|x l1 IH]; intros st; simpl.
  - done.
  - unfold mbind, M_bind in *. destruct (body x st) as [[[] st1]|]; [|done].
    apply IH.
Qed.

End LoopFacts.

(** ** The cookie [PixelHandler] sets *)

Section CookieFacts.
Context `{RT : Runtime}.

Lemma sanitize_valid (valid : ascii -> bool) s :
  http.all_bytes valid s = true -> http.sanitize valid s = s.
Proof.
  induction s as [|c s IH]; [done|]. simpl.
  intros [Hc Hs]%andb_true_iff. by rewrite Hc, IH.
Qed.

Lemma lower_hex_value_byte c :
  is_lower_hex c = true -> http.validCookieValueByte c = true.
Proof.
  unfold is_lower_hex, http.validCookieValueByte.
  generalize (byte_val c). intros b H.
  apply orb_true_iff in H as [H|H]; apply andb_true_iff in H as [H1 H2];
    apply N.leb_le in H1; apply N.leb_le in H2;
    repeat (apply andb_true_iff; split);
    try apply negb_true_iff; try apply N.leb_le; try apply N.ltb_lt;
    try apply N.eqb_neq; lia.
Qed.

Lemma token_at_bytes t :
  http.all_bytes http.validCookieValueByte (token_at t) = true.
Proof.
  unfold token_at.
  pose proof (token_shape
    (Sprintf_f (fst (rand_Float64 (rand_Seed (time_.UnixNano t)))))) as Htok.
  unfold is_token in Htok. apply andb_prop in Htok as [_ Hhex].
  revert Hhex. generalize (hex.EncodeToString
    (md5.Sum (Sprintf_f (fst (rand_Float64 (rand_Seed (time_.UnixNano t))))))).
  induction s as [|c s IH]; [done|]. simpl.
  intros [Hc Hs]%andb_true_iff. by rewrite (lower_hex_value_byte c Hc), IH.
Qed.

Lemma token_at_value t :
  http.sanitize http.validCookieValueByte (token_at t) = token_at t.
Proof. apply sanitize_valid, token_at_bytes. Qed.

(** The cookies of a response after [http.SetCookie] with the cookie
    [PixelHandler] builds. *)
Lemma SetCookies_issued w name t n :
  http.SetCookies
    (http.SetCookie w
       {| http.Name := name; http.Value := token_at t; http.Path := "/";
          http.MaxAge := n; http.HttpOnly := true |})
  = http.SetCookies w ++
    (if http.isCookieNameValid name
     then [{| http.Name := name; http.Value := token_at t; http.Path := "/";
              http.MaxAge := http.wire_MaxAge n; http.HttpOnly := true |}]
     else []).
Proof.
  unfold http.SetCookie. cbn [http.Name http.Value http.Path http.MaxAge
                              http.HttpOnly].
  destruct (http.isCookieNameValid name); cbn [http.SetCookies].
  - by rewrite token_at_value.
  - by rewrite app_nil_r.
Qed.

Lemma SetCookie_Header w c :
  http.ResponseHeader (http.SetCookie w c) = http.ResponseHeader w.
Proof. unfold http.SetCookie. by destruct (http.isCookieNameValid _). Qed.

Lemma SetCookie_Body w c : http.Body (http.SetCookie w c) = http.Body w.
Proof. unfold http.SetCookie. by destruct (http.isCookieNameValid _). Qed.

(** A token read from a Cookie header line is the token. *)
Lemma parseCookieValue_token t :
  http.parseCookieValue (token_at t) = Some (token_at t).
Proof.
  unfold http.parseCookieValue.
  pose proof (token_at_bytes t) as Hb.
  assert (bool_decide (byte_val <$> String.get 0 (token_at t) = Some 34%N) = false)
    as ->.
  { apply bool_decide_eq_false. destruct (token_at t) as [|c s]; [done|].
    simpl in *. apply andb_true_iff in Hb as [Hc _]. intros [= Hq].
    unfold http.validCookieValueByte in Hc. rewrite Hq in Hc. done. }
  rewrite andb_false_r. simpl. by rewrite Hb.
Qed.

(** The cookies of a request have valid names. *)
Lemma Cookies_valid r c :
  c ∈ http.Cookies r -> http.isCookieNameValid (http.Name c) = true.
Proof.
  unfold http.Cookies. intros (part & _ & H)%list_elem_of_omap.
  unfold http.readCookie in H.
  destruct (http.isCookieNameValid part.1) eqn:E; [|done].
  destruct (http.parseCookieValue part.2); [|done]. by injection H as <-.
Qed.

End CookieFacts.

(** ** Handlers that store into the objects of the event *)

Section StoreHandlers.
Context `{RT : Runtime}.






End StoreHandlers.

(** ** The steps of [generateUserToken] *)

Section TokenSteps.
Context `{RT : Runtime}.



End TokenSteps.

(** * The properties *)

Section Properties.
Context `{RT : Runtime}.

Lemma captured_run r st :
  wf st -> exists lc lq sl, captured r st = Some (built r st lc lq sl).
Proof.
  intros Hwf.
  destruct (capture_run r st Hwf)
    as (p & lc & lq & sl & st1 & Hcap & _ & _ & _ & Hrec & _).
  exists lc, lq, sl. unfold captured. by rewrite Hcap, Hrec, last_snoc.
Qed.

(** After a [processRequest] that returns, whatever its handlers stored
    through the pointer, the last record of the store is the one its
    capture appended. *)
Lemma processRequest_captured r cookie st st' :
  wf st -> processRequest r cookie st = Some (tt, st') ->
  last (records st' (dataStore st')) = captured r st.
Proof.
  intros Hwf H.
  destruct (wf_processRequest r cookie st st' Hwf H) as (_ & p & st1 & Hc & ->).
  unfold captured. by rewrite Hc.
Qed.

Lemma decay_at_in_range (t : time_.Time) :
  (- 2 ^ 62 <= t <= 2 ^ 62)%Z ->
  decay_at t = (1000 * ((t + 300000000000) / 1000000000))%Z
  /\ ((t + 300000000000) / 1000000 - 1000 < decay_at t
      <= (t + 300000000000) / 1000000)%Z.
Proof.
  intros Ht. unfold decay_at, time_.wrap64, time_.Unix, time_.Add,
    time_.Minute, time_.Second.
  change (5 * (60 * 1000000000))%Z with 300000000000%Z.
  set (u := (t + 300000000000)%Z).
  assert (- 2 ^ 62 <= u <= 2 ^ 62 + 300000000000)%Z by lia.
  assert (1000000000 * (u / 1000000000) <= u
          < 1000000000 * (u / 1000000000) + 1000000000)%Z
    by (pose proof (Z.mul_div_le u 1000000000);
        pose proof (Z.mul_succ_div_gt u 1000000000); lia).
  assert (1000000 * (u / 1000000) <= u < 1000000 * (u / 1000000) + 1000000)%Z
    by (pose proof (Z.mul_div_le u 1000000);
        pose proof (Z.mul_succ_div_gt u 1000000); lia).
  set (q := (u / 1000000000)%Z) in *. set (m := (u / 1000000)%Z) in *.
  assert (((q * 1000 + 2 ^ 63) mod 2 ^ 64 - 2 ^ 63 = q * 1000)%Z) as ->.
  { rewrite Z.mod_small; lia. }
  lia.
Qed.

(** C1, as amended: whatever the request (query, headers, cookies) and the
    state of the tracker, [PixelHandler] returns, writes exactly the 43
    bytes of [pixel1x1] (so that it writes [pixel1x1] to a new response),
    and leaves [Content-Type: image/gif],
    [Cache-Control: no-cache, no-store, must-revalidate],
    [Pragma: no-cache] and [Expires: 0] in the header. The router calls it
    for the GET and the HEAD requests for [/pixel.gif]; the body the
    server sends is what the handler wrote, except for a HEAD request,
    where it is empty. The payload starts with the GIF89a signature,
    declares a 1x1 screen, has the transparency flag set in its graphic
    control extension and ends with the trailer. *)
Theorem PixelHandler_response (w : http.ResponseWriter) (r : http.Request)
        (st : State) :
  exists w' spawned st',
    PixelHandler w r st = Some (w', spawned, st') /\
    http.Body w' = http.Body w +:+ pixel1x1 /\
    http.body_sent r w' =
      (if bool_decide (http.Method r = "HEAD") then EmptyString
       else http.Body w +:+ pixel1x1) /\
    (route r = Some PixelEndpoint <->
     http.URL_Path r = "/pixel.gif" /\
     (http.Method r = "GET" \/ http.Method r = "HEAD")) /\
    http.ResponseHeader w' !! "Content-Type" = Some ["image/gif"] /\
    http.ResponseHeader w' !! "Cache-Control"
      = Some ["no-cache, no-store, must-revalidate"] /\
    http.ResponseHeader w' !! "Pragma" = Some ["no-cache"] /\
    http.ResponseHeader w' !! "Expires" = Some ["0"] /\
    http.Get (http.ResponseHeader w') "Content-Type" = "image/gif" /\
    http.Get (http.ResponseHeader w') "Cache-Control"
      = "no-cache, no-store, must-revalidate" /\
    http.Get (http.ResponseHeader w') "Pragma" = "no-cache" /\
    http.Get (http.ResponseHeader w') "Expires" = "0" /\
    String.length pixel1x1 = 43 /\
    http.Body http.NewRecorder +:+ pixel1x1 = pixel1x1 /\
    str_take 6 pixel1x1 = "GIF89a" /\
    str_sub 6 10 pixel1x1 = bytes_lit [1; 0; 1; 0]%N /\
    str_sub 19 23 pixel1x1 = bytes_lit [0x21; 0xf9; 0x04; 0x01]%N /\
    str_drop 42 pixel1x1 = ";".
Proof.
  destruct (PixelHandler_run w r st) as (st' & -> & _).
  eexists _, _, _. split; [reflexivity|].
  set (w0 := http.Header_Set
               (http.Header_Set
                  (http.Header_Set
                     (http.Header_Set w "Content-Type" "image/gif")
                     "Cache-Control" "no-cache, no-store, must-revalidate")
                  "Pragma" "no-cache") "Expires" "0").
  set (w1 := (if issues_cookie st r then _ else _) w0).
  assert (http.ResponseHeader w1 = http.ResponseHeader w0
          /\ http.Body w1 = http.Body w) as [Hhdr Hbody].
  { subst w1. destruct (issues_cookie st r); [|done].
    by rewrite SetCookie_Header, SetCookie_Body. }
  assert (http.Body (http.Write w1 pixel1x1) = http.Body w +:+ pixel1x1) as Hw
    by (cbn [http.Write http.Body]; by rewrite Hbody).
  split; [exact Hw|].
  split; [unfold http.body_sent; by rewrite Hw|].
  split.
  { unfold route, routes. cbn [List.find fst snd].
    destruct (decide (http.URL_Path r = "/pixel.gif")) as [Hp|Hp].
    - rewrite (bool_decide_eq_true_2 ("/pixel.gif" = _)) by done.
      destruct (decide (http.Method r ∈ ["GET"; "HEAD"])) as [Hm|Hm].
      + rewrite (bool_decide_eq_true_2 _ Hm). simpl. split; [|done].
        intros _. split; [done|].
        apply elem_of_cons in Hm as [Hm|Hm]; [by left|].
        apply elem_of_cons in Hm as [Hm|Hm]; [by right|].
        by apply elem_of_nil in Hm.
      + rewrite (bool_decide_eq_false_2 _ Hm). simpl.
        rewrite Hp. simpl. split; [done|]. intros [_ Hmm]. destruct Hm.
        destruct Hmm as [->| ->]; [left|right; left].
    - rewrite (bool_decide_eq_false_2 ("/pixel.gif" = _)) by done. simpl.
      split; [|by intros [? _]].
      destruct (bool_decide ("/stats" = _) && _); [done|].
      by destruct (bool_decide ("/" = _) && _). }
  cbn [http.Write http.ResponseHeader]. rewrite Hhdr. subst w0.
  cbn [http.Header_Set http.ResponseHeader]. unfold http.Set_.
  unfold http.Get.
  change (http.CanonicalMIMEHeaderKey "Content-Type") with "Content-Type".
  change (http.CanonicalMIMEHeaderKey "Cache-Control") with "Cache-Control".
  change (http.CanonicalMIMEHeaderKey "Pragma") with "Pragma".
  change (http.CanonicalMIMEHeaderKey "Expires") with "Expires".
  rewrite lookup_insert_eq.
  rewrite !(lookup_insert_ne _ "Expires") by done.
  rewrite lookup_insert_eq.
  rewrite !(lookup_insert_ne _ "Pragma") by done.
  rewrite lookup_insert_eq.
  rewrite !(lookup_insert_ne _ "Cache-Control") by done.
  rewrite lookup_insert_eq.
  repeat split; by vm_compute.
Qed.

(** C2: in a state whose data store is well formed (every reachable state
    is, by [reachable_wf]), take a snapshot, append
    an event, take a second snapshot: the second snapshot reads the first
    one followed by exactly that event, record for record and with the
    references followed. Each snapshot has a backing array of its own,
    apart from that of the store and from that of the other snapshot,
    before and after the later appends. Whatever is appended afterwards,
    both snapshots still read what they read, and the store reads the
    first snapshot, the event and the later events, in that order. *)
Theorem store_snapshot_round_trip (st : State) (d : TrackingData)
        (later : list TrackingData) :
  wf st ->
  exists before st0 st1 after st2 st3,
    GetTrackingData st = Some (before, st0) /\
    store_append d st0 = Some (tt, st1) /\
    GetTrackingData st1 = Some (after, st2) /\
    for_each later store_append st2 = Some (tt, st3) /\
    records st0 before = records st (dataStore st) /\
    records st2 after = records st0 before ++ [d] /\
    events st2 after = events st0 before ++ [view st d] /\
    records st3 before = records st0 before /\
    events st3 before = events st0 before /\
    records st3 after = records st2 after /\
    events st3 after = events st2 after /\
    records st3 (dataStore st3) = records st0 before ++ d :: later /\
    before <> Nil /\ after <> Nil /\
    apart (dataStore st0) before /\
    apart (dataStore st1) before /\
    apart (dataStore st2) before /\
    apart (dataStore st2) after /\
    apart before after /\
    apart (dataStore st3) before /\
    apart (dataStore st3) after.
Proof.
  intros Hwf.
  destruct (GetTrackingData_run st Hwf) as (before & h0 & E0 & Hr0 & Hw0 & Hap0 & Hfr0).
  destruct (Hfr0 _ Hwf) as (Hs0 & Hws0 & _).
  set (st0 := with_structs h0 st) in *.
  assert (wf st0) as Hwf0 by done.
  destruct (store_append_run d st0 Hwf0) as (s1 & h1 & E1 & Hr1 & Hw1 & Hfr1).
  destruct (Hfr1 before Hw0 Hap0) as (Hb1 & Hwb1 & Hapb1).
  set (st1 := with_dataStore s1 (with_structs h1 st0)) in *.
  assert (wf st1) as Hwf1 by done.
  destruct (GetTrackingData_run st1 Hwf1) as (after & h2 & E2 & Hr2 & Hw2 & Hap2 & Hfr2).
  destruct (Hfr2 before Hwb1) as (Hb2 & Hwb2 & Hapb2).
  destruct (Hfr2 s1 Hw1) as (Hs2 & Hws2 & _).
  set (st2 := with_structs h2 st1) in *.
  assert (wf st2) as Hwf2 by done.
  destruct (appends_run later st2 Hwf2) as (st3 & E3 & Hwf3 & Hrec3 & Hm3 & Hst3 & Hfr3).
  destruct (Hfr3 before Hwb2 Hapb1) as (Hb3 & _ & Hap3b).
  destruct (Hfr3 after Hw2 Hap2) as (Ha3 & _ & Hap3a).
  assert (before <> Nil) as Hbn.
  { revert E0. unfold GetTrackingData, make, alloc_array. simpl. congruence. }
  assert (after <> Nil) as Han.
  { revert E2. unfold GetTrackingData, make, alloc_array. simpl. congruence. }
  exists before, st0, st1, after, st2, st3.
  unfold records in *. subst st0 st1 st2. simpl_state.
  assert (read h2 after = read h0 before ++ [d]) as Hafter
    by (by rewrite Hr2, Hr1, Hr0, Hs0).
  repeat split; try done.
  - unfold events, records. simpl_state. rewrite Hafter, fmap_app. done.
  - congruence.
  - apply events_ext; [done|done|]. unfold records. simpl_state. congruence.
  - apply events_ext; [done|done|]. done.
  - rewrite Hrec3, Hs2, Hr1, Hr0, Hs0, <-(assoc_L (++)). done.
Qed.

(** C3, as amended: [PixelHandler] sets exactly one cookie when issuance
    is enabled, the request has no cookie of the configured name and the
    configured name is a valid cookie name (a token that is not empty);
    it sets none otherwise: with a name that is not valid the token is
    generated and [http.SetCookie] drops the cookie. The cookie has the
    configured name, the HttpOnly flag, the path [/], as value the token,
    32 lowercase hexadecimal characters, and as max-age the configured one
    when that is not negative (for 0 the line has no [Max-Age]) and the
    one of [Max-Age=0] when it is. A cookie of the configured name is
    present when the name is not empty and one of the request's cookies
    bears it. *)
Theorem PixelHandler_cookie (w : http.ResponseWriter) (r : http.Request)
        (st : State) :
  exists w' spawned st' token,
    PixelHandler w r st = Some (w', spawned, st') /\
    http.SetCookies w' =
      http.SetCookies w ++
      (if negb (DisableCookies (config st))
          && negb (bool_decide
                     (is_Some (http.Request_Cookie r (CookieName (config st)))))
          && http.isCookieNameValid (CookieName (config st))
       then [{| http.Name := CookieName (config st);
                http.Value := token;
                http.Path := "/";
                http.MaxAge := http.wire_MaxAge (MaxAge (config st));
                http.HttpOnly := true |}]
       else []) /\
    http.wire_MaxAge (MaxAge (config st))
      = (if (MaxAge (config st) <? 0)%Z then (-1)%Z else MaxAge (config st)) /\
    String.length token = 32 /\
    http.all_bytes is_lower_hex token = true /\
    token = token_at (now st) /\
    (is_Some (http.Request_Cookie r (CookieName (config st))) <->
     CookieName (config st) <> EmptyString /\
     exists c, c ∈ http.Cookies r /\ http.Name c = CookieName (config st)) /\
    (http.isCookieNameValid (CookieName (config st)) = true <->
     CookieName (config st) <> EmptyString /\
     http.all_bytes http.validHeaderFieldByte (CookieName (config st)) = true).
Proof.
  destruct (PixelHandler_run w r st) as (st' & -> & _).
  eexists _, _, _, (token_at (now st)). split; [reflexivity|].
  pose proof (token_shape
    (Sprintf_f (fst (rand_Float64 (rand_Seed (time_.UnixNano (now st))))))) as Htok.
  unfold is_token in Htok. apply andb_prop in Htok as [Hlen Hhex].
  apply Nat.eqb_eq in Hlen.
  split; [|split; [|split; [exact Hlen|split; [exact Hhex|split; [done|split]]]]].
  - cbn [http.Write http.SetCookies]. unfold issues_cookie.
    destruct (negb (DisableCookies (config st)) && _).
    + rewrite SetCookies_issued. cbn [http.Header_Set http.SetCookies]. done.
    + simpl. by rewrite app_nil_r.
  - unfold http.wire_MaxAge.
    destruct (0 <? MaxAge (config st))%Z eqn:E1;
      destruct (MaxAge (config st) <? 0)%Z eqn:E2; try done.
    + apply Z.ltb_lt in E1. apply Z.ltb_lt in E2. lia.
    + apply Z.ltb_ge in E1. apply Z.ltb_ge in E2. lia.
  - unfold http.Request_Cookie. case_bool_decide as Hname.
    + split; [by intros [? ?]|]. by intros [? _].
    + split.
      * intros [c Hc]. split; [done|]. apply find_some in Hc as [Hin Hc].
        apply bool_decide_eq_true in Hc. exists c. split; [|done].
        by apply list_elem_of_In.
      * intros (_ & c & Hin & Hc).
        destruct (find _ _) eqn:E; [by eauto|].
        apply list_elem_of_In in Hin.
        apply (find_none _ _ E) in Hin. by apply bool_decide_eq_false in Hin.
  - unfold http.isCookieNameValid.
    destruct (CookieName (config st)) as [|a s]; [split; [done|by intros [? _]]|].
    split; [by intros ->|by intros [_ ->]].
Qed.

(** C6, as amended: the decay of the captured event is 0 when the first
    value of the [decay] query parameter is not empty; when the parameter
    is absent, or present with an empty first value, it is the Unix time
    in seconds of the clock reading plus five minutes, times 1000: a
    number of milliseconds since the epoch that is a whole number of
    seconds, at most a second below the exact one. The clock reading is
    the one [getDecay] makes, the second of the capture (the first is the
    event's timestamp). *)
Theorem decay_of_captured_event (r : http.Request) (st : State) :
  wf st ->
  Decay <$> captured r st =
    Some (if nonempty (http.Values_Get (http.Query r) "decay") then 0%Z
          else decay_at (wall st (S (clock_reads st)))) /\
  (http.Query r !! "decay" = None ->
     Decay <$> captured r st = Some (decay_at (wall st (S (clock_reads st))))) /\
  (forall vs, http.Query r !! "decay" = Some (EmptyString :: vs) ->
     Decay <$> captured r st = Some (decay_at (wall st (S (clock_reads st))))) /\
  (forall v vs, http.Query r !! "decay" = Some (v :: vs) -> v <> EmptyString ->
     Decay <$> captured r st = Some 0%Z) /\
  (forall cookie st', processRequest r cookie st = Some (tt, st') ->
     Decay <$> last (records st' (dataStore st')) = Decay <$> captured r st) /\
  (forall t, (- 2 ^ 62 <= t <= 2 ^ 62)%Z ->
     decay_at t = (1000 * time_.Unix (time_.Add t (5 * time_.Minute)))%Z
     /\ ((t + 5 * time_.Minute) / 1000000 - 1000 < decay_at t
         <= (t + 5 * time_.Minute) / 1000000)%Z).
Proof.
  intros Hwf.
  assert (forall cookie st', processRequest r cookie st = Some (tt, st') ->
            Decay <$> last (records st' (dataStore st'))
            = Decay <$> captured r st) as Hproc
    by (intros cookie st' H; by rewrite (processRequest_captured r cookie st st')).
  destruct (captured_run r st Hwf) as (lc & lq & sl & E). rewrite E in *.
  cbn [fmap option_fmap option_map built Decay] in *. unfold http.Values_Get.
  split; [done|]. split; [by intros ->|]. split; [by intros vs ->|].
  split; [intros v vs -> Hv; by destruct v|]. split; [exact Hproc|].
  intros t Ht. apply decay_at_in_range in Ht. exact Ht.
Qed.


(** C8, as amended: the IP field of the captured event is the resolved
    client IP when IP tracking is enabled and is empty otherwise, so that it
    is populated exactly when tracking is enabled and the resolved client IP
    is not empty; the geo field holds the resolved client IP in every
    event, also with tracking disabled. After a [processRequest] that
    returns, that event is the last of the store. *)
Theorem ip_of_captured_event (r : http.Request) (st : State) :
  wf st ->
  IP <$> captured r st =
    Some (if TrackIP (config st) then getClientIP r else EmptyString) /\
  Geo <$> captured r st = Some {| Geo_IP := getClientIP r |} /\
  (forall cookie st', processRequest r cookie st = Some (tt, st') ->
     last (records st' (dataStore st')) = captured r st) /\
  (IP <$> captured r st <> Some EmptyString <->
   TrackIP (config st) = true /\ getClientIP r <> EmptyString).
Proof.
  intros Hwf.
  assert (forall cookie st', processRequest r cookie st = Some (tt, st') ->
            last (records st' (dataStore st')) = captured r st) as Hproc
    by (intros cookie st' H; by apply (processRequest_captured r cookie)).
  destruct (captured_run r st Hwf) as (lc & lq & sl & E). rewrite E in *.
  cbn [fmap option_fmap option_map built IP Geo].
  split; [done|]. split; [done|]. split; [exact Hproc|].
  destruct (TrackIP (config st)); split.
  - intros H. split; [done|]. congruence.
  - intros [_ H]. congruence.
  - done.
  - by intros [? _].
Qed.



End Properties.



(** * Facts for the rest of the program *)

(** ** The maps the extractors build *)
Section ExtractorFacts.
Context `{RT : Runtime}.

(** The value [cookie_map] holds for a name is that of the last cookie of
    that name. *)
Lemma foldl_cookies_lookup (cs : list http.Cookie) : forall (m : gmap string string) name,
  foldl (fun m c => <[http.Name c := http.Value c]> m) m cs !! name
  = match last (filter (fun c => http.Name c = name) cs) with
    | Some c => Some (http.Value c)
    | None => m !! name
    end.
Proof.
  induction cs as [|c cs IH]; intros m name; [done|].
  simpl. rewrite IH. rewrite filter_cons.
  destruct (decide (http.Name c = name)) as [E|E].
  - destruct (filter _ cs) as [|c' l] eqn:F.
    + simpl. subst name. apply lookup_insert_eq.
    + rewrite last_cons_cons. destruct (last (c' :: l)) eqn:L; [done|].
      by apply last_None in L.
  - destruct (last (filter _ cs)); [done|].
    by rewrite lookup_insert_ne.
Qed.

Lemma cookie_map_lookup r name :
  cookie_map r !! name
  = http.Value <$> last (filter (fun c => http.Name c = name) (http.Cookies r)).
Proof.
  unfold cookie_map. rewrite foldl_cookies_lookup.
  by destruct (last _).
Qed.

Lemma find_head_filter (cs : list http.Cookie) name :
  List.find (fun c => bool_decide (http.Name c = name)) cs
  = head (filter (fun c => http.Name c = name) cs).
Proof.
  induction cs as [|c cs IH]; [done|].
  simpl. rewrite filter_cons. case_bool_decide; by destruct (decide _).
Qed.




End ExtractorFacts.

(** ** What capturing a request leaves as it was *)
Section FrameFacts.
Context `{RT : Runtime}.

Lemma append_not_Nil {A} (zero : A) grow h s x s' h' :
  append zero grow h s x = (s', h') -> s' <> Nil.
Proof.
  unfold append, alloc_array. destruct s as [|a n c].
  - by intros [= <- _].
  - destruct (n <? c); by intros [= <- _].
Qed.

Lemma parseLanguage_loop_Nil parts : forall acc st s st',
  parseLanguage_loop parts acc st = Some (s, st') ->
  s = Nil <->
  acc = Nil /\
  filter (fun lang => lang <> EmptyString)
    (map (fun part => strings_.TrimSpace (before_sep ";" part)) parts) = [].
Proof.
  induction parts as [|part parts IH]; intros acc st s st'; simpl.
  - intros [= <- <-]. by split; [|intros []].
  - unfold mbind, M_bind. rewrite index0_Split.
    set (lang := strings_.TrimSpace (before_sep ";" part)).
    rewrite filter_cons. destruct (nonempty lang) eqn:Hne.
    + rewrite decide_True by by apply nonempty_true.
      unfold append_string.
      destruct (append _ _ _ _ _) as [s1 h1] eqn:E.
      intros H. apply IH in H. apply append_not_Nil in E.
      split; [|by intros []]. intros Hs. by apply H in Hs as [].
    + rewrite decide_False by (rewrite <-nonempty_true; congruence).
      unfold mret, M_ret. apply IH.
Qed.

(** [parseLanguage] leaves every slice of strings there was as it was. *)
Lemma parseLanguage_loop_frame parts : forall acc st,
  slice_wf (strs st) acc ->
  exists s h, parseLanguage_loop parts acc st = Some (s, with_strs h st)
    /\ slice_wf h s
    /\ forall t, slice_wf (strs st) t -> apart acc t ->
         read h t = read (strs st) t /\ slice_wf h t /\ apart s t.
Proof.
  induction parts as [|part parts IH]; intros acc st Hwf; simpl.
  - exists acc, (strs st). rewrite with_strs_id. done.
  - unfold mbind, M_bind.
    destruct (nonempty _) eqn:Hne.
    + unfold append_string.
      destruct (append _ _ _ _ _) as [s1 h1] eqn:E.
      pose proof (append_read _ _ _ _ _ _ _ Hwf E) as (_ & Hw1 & _).
      destruct (IH s1 (with_strs h1 st) Hw1) as (s2 & h2 & -> & Hw2 & Hfr).
      exists s2, h2. rewrite with_strs_with_strs. split; [done|]. split; [done|].
      intros t Ht Hap.
      destruct (append_frame _ _ _ _ _ _ _ t Hwf Ht Hap E) as (R1 & W1 & A1).
      destruct (Hfr t W1 A1) as (R2 & W2 & A2). simpl in R2.
      by rewrite R2, R1.
    + unfold mret, M_ret. by apply IH.
Qed.

Lemma parseLanguage_Nil acceptLanguage st s st' :
  parseLanguage acceptLanguage st = Some (s, st') ->
  (s = Nil <->
   acceptLanguage <> EmptyString /\ language_list acceptLanguage = []) /\
  (acceptLanguage = EmptyString -> exists a, s = Slice a 0 0).
Proof.
  unfold parseLanguage.
  destruct acceptLanguage as [|c rest]; simpl.
  - unfold empty_strings, alloc_array. intros [= <- _].
    split; [|by eauto]. split; [done|]. by intros [[] _].
  - intros E. apply parseLanguage_loop_Nil in E.
    split; [|done]. unfold language_list.
    split; [intros H%E; split; [done|apply H]|intros [_ H]; apply E; by split].
Qed.

Lemma parseLanguage_frame acceptLanguage st :
  exists s h, parseLanguage acceptLanguage st = Some (s, with_strs h st)
    /\ read h s = language_list acceptLanguage /\ slice_wf h s
    /\ (s = Nil <->
        acceptLanguage <> EmptyString /\ language_list acceptLanguage = [])
    /\ forall t, slice_wf (strs st) t ->
         read h t = read (strs st) t /\ slice_wf h t.
Proof.
  destruct (parseLanguage_run acceptLanguage st) as (s & h & E & Hr & Hw).
  exists s, h. split; [done|]. split; [done|]. split; [done|].
  split; [by apply (parseLanguage_Nil _ _ _ _ E)|].
  revert E. unfold parseLanguage. destruct (nonempty acceptLanguage).
  - destruct (parseLanguage_loop_frame (strings_.Split acceptLanguage ",") Nil st I)
      as (s' & h' & -> & _ & Hfr).
    intros [= <- <-].
    intros t Ht. by destruct (Hfr t Ht I) as (? & ? & _).
  - unfold empty_strings, alloc_array. intros [= <- <-].
    intros [|a n c] Ht; [done|]. destruct Ht as (xs & Ha & Hl & Hn).
    assert (a <> fresh (dom (strs st))) as Hne.
    { intros ->. by rewrite fresh_unused in Ha. }
    split.
    + simpl. unfold array_at. by rewrite lookup_insert_ne.
    + exists xs. by rewrite lookup_insert_ne.
Qed.

Lemma capture_run_frame r st :
  wf st ->
  exists p lc lq sl st',
    capture r st = Some (p, st') /\
    structs st' !! p = Some [built r st lc lq sl] /\
    apart (dataStore st') (cell p) /\
    wf st' /\
    records st' (dataStore st') = records st (dataStore st) ++ [built r st lc lq sl] /\
    config st' = config st /\ handlers st' = handlers st /\
    maps st' !! lc = Some (cookie_map r) /\
    maps st' !! lq = Some (query_map r) /\
    read (strs st') sl = language_list (http.Get (http.Headers r) "Accept-Language") /\
    slice_wf (strs st') sl /\
    (sl = Nil <->
     http.Get (http.Headers r) "Accept-Language" <> EmptyString /\
     language_list (http.Get (http.Headers r) "Accept-Language") = []) /\
    maps st !! lc = None /\ maps st !! lq = None /\ lq <> lc /\
    (forall l, l <> lc -> l <> lq -> maps st' !! l = maps st !! l) /\
    (forall t, slice_wf (strs st) t ->
       read (strs st') t = read (strs st) t /\ slice_wf (strs st') t).
Proof.
  intros Hwf. unfold capture, mbind, M_bind.
  rewrite extractCookies_run. cbv beta iota zeta.
  rewrite extractQueryParams_run. cbv beta iota zeta.
  unfold time_Now, new_struct, alloc_array. simpl_state.
  set (lc := fresh (dom (maps st))).
  set (lq := fresh (dom (<[lc := cookie_map r]> (maps st)))).
  set (p := fresh (dom (structs st))).
  assert (structs st !! p = None) as Hpf by apply fresh_unused.
  assert (lq <> lc) as Hlq.
  { intros E. pose proof (fresh_unused (<[lc := cookie_map r]> (maps st))) as H.
    fold lq in H. by rewrite E, lookup_insert_eq in H. }
  assert (maps st !! lc = None) as Hlc0 by apply fresh_unused.
  assert (maps st !! lq = None) as Hlq0.
  { pose proof (fresh_unused (<[lc := cookie_map r]> (maps st))) as H.
    fold lq in H. by rewrite lookup_insert_ne in H. }
  clearbody p lq lc.
  unfold gets. simpl_state.
  set (d0 := {| Cookies := Some lc; Timestamp := wall st (clock_reads st) |}).
  set (d1 := if TrackIP (config st) then set_IP (getClientIP r) d0 else d0).
  match goal with |- context [match ?X with Some _ => _ | None => None end] =>
    assert (X = Some (tt, with_structs (<[p := [d1]]> (structs st))
                (with_clock_reads (S (clock_reads st))
                   (with_maps (<[lq := query_map r]> (<[lc := cookie_map r]> (maps st))) st))))
      as -> end.
  { subst d1. destruct (TrackIP (config st)).
    - erewrite update_run by (simpl_state; apply lookup_insert_eq).
      simpl_state. by rewrite insert_insert_eq.
    - done. }
  rewrite getDecay_run. unfold now. simpl_state.
  set (dec := if nonempty (http.Values_Get (http.Query r) "decay") then 0%Z
              else decay_at (wall st (S (clock_reads st)))).
  match goal with |- context [match ?X with Some _ => _ | None => None end] =>
    assert (exists n, X = Some (dec, with_clock_reads n
              (with_structs (<[p := [d1]]> (structs st))
                (with_maps (<[lq := query_map r]> (<[lc := cookie_map r]> (maps st))) st))))
      as [n ->] end.
  { subst dec. destruct (nonempty _); eexists; reflexivity. }
  erewrite update_run by (simpl_state; apply lookup_insert_eq). simpl_state.
  rewrite insert_insert_eq.
  erewrite update_run by (simpl_state; apply lookup_insert_eq). simpl_state.
  rewrite insert_insert_eq.
  match goal with |- context [parseLanguage ?a ?s] =>
    destruct (parseLanguage_frame a s) as (sl & h & -> & Hsl & Hslwf & Hnil & Hsfr) end.
  simpl_state.
  erewrite update_run by (simpl_state; apply lookup_insert_eq). simpl_state.
  rewrite insert_insert_eq.
  erewrite update_run by (simpl_state; apply lookup_insert_eq). simpl_state.
  rewrite insert_insert_eq.
  erewrite update_run by (simpl_state; apply lookup_insert_eq). simpl_state.
  rewrite insert_insert_eq.
  unfold load. simpl_state. rewrite lookup_insert_eq.
  set (d := set_Domain _ _).
  assert (d = built r st lc lq sl) as Hd.
  { subst d d1 d0 dec. unfold built, now. by destruct (TrackIP (config st)). }
  clearbody d. subst d.
  match goal with |- context [store_append ?d ?s] =>
    destruct (store_append_run d s) as (s' & h' & -> & Hr & Hw & Hfr) end.
  { unfold wf in *. simpl_state. destruct (dataStore st) as [|a k c]; [done|].
    destruct Hwf as (xs & Ha & Hl & Hk). exists xs.
    rewrite lookup_insert_ne; [done|]. congruence. }
  simpl_state.
  assert (slice_wf (structs st) (dataStore st)) as Hwf' by done.
  assert (read (<[p := [built r st lc lq sl]]> (structs st)) (dataStore st)
          = read (structs st) (dataStore st)) as Hsame.
  { destruct (dataStore st) as [|a k c]; [done|]. destruct Hwf' as (xs & Ha & _).
    simpl. unfold array_at. rewrite lookup_insert_ne; [done|]. congruence. }
  destruct (Hfr (cell p)) as (Hcell & Hcwf & Hcap).
  { exists [built r st lc lq sl]. split; [apply lookup_insert_eq|]. done. }
  { destruct (dataStore st) as [|a k c]; [done|]. destruct Hwf' as (xs & Ha & _).
    simpl. congruence. }
  exists p, lc, lq, sl. eexists. split; [reflexivity|]. simpl_state.
  unfold wf, records. simpl_state.
  split.
  { destruct Hcwf as (xs & Hp & Hl & _). rewrite Hp. f_equal.
    simpl in Hcell. unfold array_at in Hcell. rewrite Hp, lookup_insert_eq in Hcell.
    simpl in Hcell. destruct xs as [|x [|? ?]]; simpl in *; try done. }
  split; [done|]. split; [done|]. split; [by rewrite Hr, Hsame|].
  split; [done|]. split; [done|].
  split.
  { rewrite lookup_insert_ne by done. apply lookup_insert_eq. }
  split; [apply lookup_insert_eq|]. split; [done|]. split; [done|].
  split; [done|]. split; [done|]. split; [done|]. split; [done|]. split.
  { intros l H1 H2. by rewrite !lookup_insert_ne. }
  intros t Ht. apply (Hsfr t Ht).
Qed.

End FrameFacts.

(** ** Requests served in sequence *)
Section ServeFacts.
Context `{RT : Runtime}.

Lemma PixelHandler_state w r st :
  exists w' st',
    PixelHandler w r st
    = Some (w', (r, http.Request_Cookie r (CookieName (config st))), st')
    /\ structs st' = structs st /\ maps st' = maps st /\ strs st' = strs st
    /\ config st' = config st /\ handlers st' = handlers st
    /\ dataStore st' = dataStore st
    /\ wall st' = wall st
    /\ (if issues_cookie st r
        then clock_reads st' = S (clock_reads st)
             /\ rand_state st'
                = snd (rand_Float64 (rand_Seed (time_.UnixNano (now st))))
        else st' = st).
Proof.
  unfold PixelHandler, issues_cookie. run_monad.
  destruct (negb (DisableCookies (config st)) && _) eqn:E.
  - unfold generateUserToken, time_Now, Seed, Float64, now. run_monad.
    destruct (rand_Float64 _) as [x g] eqn:E'. simpl. eexists _, _.
    split; [done|]. done.
  - eexists _, _. split; [done|]. done.
Qed.

Lemma serve_run r st :
  wf st -> Forall (Forall is_Assign) (handlers st) ->
  exists st0 lc lq sl st',
    serve r st = Some (tt, st') /\
    config st0 = config st /\ wall st0 = wall st /\
    clock_reads st0
    = (if issues_cookie st r then S (clock_reads st) else clock_reads st) /\
    wf st' /\ handlers st' = handlers st /\ config st' = config st /\
    records st' (dataStore st')
    = records st (dataStore st) ++ [built r st0 lc lq sl] /\
    maps st' !! lc = Some (cookie_map r) /\
    maps st' !! lq = Some (query_map r) /\
    read (strs st') sl
    = language_list (http.Get (http.Headers r) "Accept-Language") /\
    slice_wf (strs st') sl /\
    (sl = Nil <->
     http.Get (http.Headers r) "Accept-Language" <> EmptyString /\
     language_list (http.Get (http.Headers r) "Accept-Language") = []) /\
    maps st !! lc = None /\ maps st !! lq = None /\
    (forall l, l <> lc -> l <> lq -> maps st' !! l = maps st !! l) /\
    (forall t, slice_wf (strs st) t ->
       read (strs st') t = read (strs st) t /\ slice_wf (strs st') t).
Proof.
  intros Hwf Hh. unfold serve, mbind, M_bind.
  destruct (PixelHandler_state http.NewRecorder r st)
    as (w' & st0 & -> & Hs0 & Hm0 & Hstr0 & Hc0 & Hh0 & Hd0 & Hw0 & Hi).
  assert (wf st0) as Hwf0 by (unfold wf; by rewrite Hs0, Hd0).
  unfold processRequest, mbind, M_bind.
  destruct (capture_run_frame r st0 Hwf0)
    as (p & lc & lq & sl & st1 & -> & Hp & Hap & Hwf1 & Hrec & Hc1 & Hh1
        & Hlc & Hlq & Hsl & Hslwf & Hnil & Hlc0 & Hlq0 & Hne & Hmf & Hsf).
  unfold dispatch, mbind, M_bind, gets.
  assert (Forall (Forall is_Assign) (handlers st1)) as Hh' by (by rewrite Hh1, Hh0).
  cbv beta iota.
  destruct (handlers_assign p (handlers st1) st1 _ Hh' Hp) as (d' & Hd').
  exists st0, lc, lq, sl. eexists. split; [exact Hd'|].
  split; [done|]. split; [done|].
  split. { destruct (issues_cookie st r); [by destruct Hi|by subst st0]. }
  split. { eapply wf_insert_apart; [exact Hwf1|exact Hap|done|done]. }
  simpl_state. split; [congruence|]. split; [congruence|].
  split.
  { unfold records in *. simpl_state. rewrite read_insert_apart by done.
    rewrite Hrec. unfold records. by rewrite Hs0, Hd0. }
  rewrite <-Hm0, <-Hstr0. done.
Qed.

Lemma serve_step r st :
  wf st -> Forall (Forall is_Assign) (handlers st) ->
  exists st' d,
    serve r st = Some (tt, st') /\
    wf st' /\ handlers st' = handlers st /\ config st' = config st /\
    records st' (dataStore st') = records st (dataStore st) ++ [d] /\
    shows (config st) r (view st' d) /\
    allocated st' d /\
    forall d0, allocated st d0 -> same_reads st st' d0 /\ allocated st' d0.
Proof.
  intros Hwf Hh.
  destruct (serve_run r st Hwf Hh)
    as (st0 & lc & lq & sl & st' & E & Hc0 & _ & _ & Hwf' & Hh' & Hc' & Hrec
        & Hlc & Hlq & Hsl & Hslwf & _ & Hlc0 & Hlq0 & Hmf & Hsf).
  exists st', (built r st0 lc lq sl). split; [done|]. split; [done|].
  split; [done|]. split; [done|]. split; [done|].
  split.
  { unfold shows, view, built, map_contents. simpl. rewrite Hlc, Hlq, Hc0.
    by rewrite Hsl. }
  split.
  { unfold allocated, built. simpl. split; [exists lc; by rewrite Hlc|].
    split; [exists lq; by rewrite Hlq|]. done. }
  intros d0 ((c0 & Ec & Hc) & (q0 & Eq & Hq) & Hl).
  assert (forall l, is_Some (maps st !! l) -> maps st' !! l = maps st !! l) as Hk.
  { intros l Hl'. apply Hmf; intros ->; [rewrite Hlc0 in Hl'|rewrite Hlq0 in Hl'];
      by destruct Hl'. }
  destruct (Hsf _ Hl) as (Hr1 & Hw1).
  split.
  - unfold same_reads, map_contents. rewrite Ec, Eq.
    by rewrite !Hk, Hr1 by done.
  - unfold allocated. split; [exists c0; by rewrite Hk|].
    split; [exists q0; by rewrite Hk|]. done.
Qed.

Lemma shows_same_reads cfg r st st' d :
  same_reads st st' d -> shows cfg r (view st d) -> shows cfg r (view st' d).
Proof.
  intros (H1 & H2 & H3). unfold shows, view. simpl. by rewrite H1, H2, H3.
Qed.

Lemma serve_all_run rs : forall st,
  wf st -> Forall (Forall is_Assign) (handlers st) ->
  exists st' ds,
    for_each rs serve st = Some (tt, st') /\
    wf st' /\ handlers st' = handlers st /\ config st' = config st /\
    records st' (dataStore st') = records st (dataStore st) ++ ds /\
    Forall2 (fun r d => shows (config st) r (view st' d)) rs ds /\
    Forall (allocated st') ds /\
    forall d0, allocated st d0 -> same_reads st st' d0 /\ allocated st' d0.
Proof.
  induction rs as [|r rs IH]; intros st Hwf Hh.
  - exists st, []. simpl. rewrite app_nil_r. repeat split; try done.
    all: by destruct H as (? & ? & ?).
  - destruct (serve_step r st Hwf Hh)
      as (st1 & d & E1 & Hwf1 & Hh1 & Hc1 & Hr1 & Hsh & Hal & Hfr).
    destruct (IH st1 Hwf1) as (st2 & ds & E2 & Hwf2 & Hh2 & Hc2 & Hr2 & Hsh2 & Hal2 & Hfr2).
    { by rewrite Hh1. }
    exists st2, (d :: ds). simpl. unfold mbind, M_bind. rewrite E1.
    split; [exact E2|]. split; [done|]. split; [congruence|]. split; [congruence|].
    split. { rewrite Hr2, Hr1, <-(assoc_L (++)). done. }
    destruct (Hfr2 d Hal) as (Hsame & Hal').
    split.
    { constructor; [by eapply shows_same_reads|]. by rewrite <-Hc1. }
    split; [by constructor|].
    intros d0 H0. destruct (Hfr d0 H0) as ((A1 & A2 & A3) & H1).
    destruct (Hfr2 d0 H1) as ((B1 & B2 & B3) & H2).
    split; [|done]. unfold same_reads. by rewrite B1, B2, B3.
Qed.

Lemma processRequest_assign_returns r cookie st :
  wf st -> Forall (Forall is_Assign) (handlers st) ->
  exists st', processRequest r cookie st = Some (tt, st').
Proof.
  intros Hwf Hh.
  destruct (capture_run r st Hwf)
    as (p & lc & lq & sl & st1 & Hc & Hp & _ & _ & _ & _ & Hh1 & _).
  rewrite <-Hh1 in Hh.
  destruct (handlers_assign p (handlers st1) st1 _ Hh Hp) as (d' & Hd).
  eexists. unfold processRequest, mbind, M_bind. rewrite Hc.
  unfold dispatch, mbind, M_bind, gets. exact Hd.
Qed.

End ServeFacts.


(** ** The helpers of the test suite *)

Lemma lor_ge_pow2 (k a b : N) : (2 ^ k <= a)%N -> (2 ^ k <= N.lor a b)%N.
Proof.
  intros H. assert (0 < a)%N as Ha.
  { pose proof (N.pow_nonzero 2 k). lia. }
  assert (0 < N.lor a b)%N as Hl.
  { destruct (N.eq_dec (N.lor a b) 0) as [E|E]; [|lia].
    apply N.lor_eq_0_l in E. lia. }
  apply N.log2_le_pow2; [done|]. apply N.log2_le_pow2 in H; [|done].
  rewrite N.log2_lor. lia.
Qed.

Lemma byte_val_lt c : (byte_val c < 256)%N.
Proof. apply N_ascii_bounded. Qed.

Lemma below_256 (P : N -> bool) :
  forallb P (map N.of_nat (seq 0 256)) = true ->
  forall n, (n < 256)%N -> P n = true.
Proof.
  intros H n Hn. rewrite forallb_forall in H. apply H.
  apply in_map_iff. exists (N.to_nat n). split; [lia|].
  apply in_seq. lia.
Qed.

Lemma rune_head_high_all s0 s1 :
  (s0 < 256)%N -> (s1 < 256)%N -> rune_head_high s0 s1 = true.
Proof.
  intros H0 H1. revert s1 H1.
  apply (below_256 (fun s0 => forallb (fun s1 => rune_head_high s0 s1)
                                 (map N.of_nat (seq 0 256)))) in H0.
  - intros s1 H1. by apply (below_256 (fun s1 => rune_head_high s0 s1)).
  - by vm_compute.
Qed.

(** A rune decoded from a sequence that starts with a byte above 0x7F is
    above 0x7F. *)
Lemma DecodeRune_high c rest :
  (0x80 <= byte_val c)%N ->
  (0x80 <= fst (utf8.DecodeRuneInString (String c rest)))%N.
Proof.
  intros Hc. unfold utf8.DecodeRuneInString.
  set (s := String c rest). set (s1 := byte_val (str_index s 1)).
  destruct (byte_val c <? utf8.RuneSelf)%N eqn:E.
  { apply N.ltb_lt in E. unfold utf8.RuneSelf in E. lia. }
  pose proof (rune_head_high_all (byte_val c) s1 (byte_val_lt _) (byte_val_lt _)) as H.
  unfold rune_head_high in H.
  destruct (utf8.first (byte_val c)) as [[sz [lo hi]]|]; [|simpl; unfold utf8.RuneError; lia].
  destruct (String.length s <? sz)%nat; [simpl; unfold utf8.RuneError; lia|].
  destruct ((s1 <? lo) || (hi <? s1))%N; [simpl; unfold utf8.RuneError; lia|].
  apply N.leb_le in H. unfold rune_head in H.
  destruct (sz <=? 2)%nat; [simpl; unfold utf8.RuneError; lia|].
  destruct (negb _); [simpl; unfold utf8.RuneError; lia|].
  destruct (sz <=? 3)%nat.
  { simpl. by apply (lor_ge_pow2 7). }
  destruct (negb _); [simpl; unfold utf8.RuneError; lia|].
  simpl. by do 2 apply (lor_ge_pow2 7).
Qed.

Lemma hex_rune_low c : hex_rune c = true -> (c < 0x80)%N.
Proof.
  unfold hex_rune. intros H.
  repeat (apply orb_true_iff in H as [H|H]);
    apply andb_true_iff in H as [_ H]; apply N.leb_le in H; lia.
Qed.

Lemma isHexString_loop_bytes s : forall fuel,
  String.length s <= fuel ->
  isHexString_loop fuel s
  = http.all_bytes (fun c => hex_rune (byte_val c)) s.
Proof.
  induction s as [|c s IH]; intros fuel Hf; [by destruct fuel|].
  destruct fuel as [|fuel]; [simpl in Hf; lia|].
  cbn [isHexString_loop http.all_bytes].
  destruct (byte_val c <? utf8.RuneSelf)%N eqn:E.
  - unfold utf8.DecodeRuneInString. rewrite E.
    destruct (hex_rune (byte_val c)); simpl; [|done].
    apply IH. simpl in Hf. lia.
  - apply N.ltb_ge in E. unfold utf8.RuneSelf in E.
    pose proof (DecodeRune_high c s E) as H.
    destruct (utf8.DecodeRuneInString (String c s)) as [r size]. simpl in H.
    destruct (hex_rune r) eqn:Hr; [apply hex_rune_low in Hr; lia|].
    destruct (hex_rune (byte_val c)) eqn:Hb; [apply hex_rune_low in Hb; lia|].
    done.
Qed.

Lemma slicesEqual_loop_spec (a : list string) : forall pre b,
  length (pre ++ a) = length b ->
  slicesEqual_loop a (length pre) b = Some (bool_decide (a = drop (length pre) b)).
Proof.
  induction a as [|v a IH]; intros pre b Hl.
  - simpl. rewrite app_nil_r in Hl. rewrite Hl, drop_all. by rewrite bool_decide_eq_true_2.
  - simpl. destruct (b !! length pre) as [w|] eqn:E.
    + rewrite (drop_S _ _ _ E).
      case_bool_decide as Hvw.
      * rewrite bool_decide_eq_false_2; [done|]. congruence.
      * subst w.
        specialize (IH (pre ++ [v]) b).
        replace (length (pre ++ [v])) with (S (length pre)) in IH
          by (rewrite length_app; simpl; lia).
        rewrite IH by by rewrite <-(assoc_L (++)).
        f_equal. apply bool_decide_ext. split; congruence.
    + apply lookup_ge_None in E. rewrite length_app in Hl. simpl in Hl. lia.
Qed.

Lemma all_bytes_impl (p q : ascii -> bool) s :
  (forall c, p c = true -> q c = true) ->
  http.all_bytes p s = true -> http.all_bytes q s = true.
Proof.
  intros Hpq. induction s as [|c s IH]; [done|]. simpl.
  intros [Hc Hs]%andb_true_iff. by rewrite (Hpq c Hc), IH.
Qed.

(** ** [TrimSpace] returns a piece of its argument *)

Lemma append_assoc_s (a b c : string) : (a +:+ b) +:+ c = a +:+ (b +:+ c).
Proof. induction a as [|x a IH]; [done|]. by rewrite !append_String, IH. Qed.

Lemma append_Empty_r (a : string) : a +:+ EmptyString = a.
Proof. induction a as [|x a IH]; [done|]. by rewrite append_String, IH. Qed.

Lemma infix_refl s : infix_of s s.
Proof. exists EmptyString, EmptyString. by rewrite append_Empty, append_Empty_r. Qed.

Lemma infix_empty s : infix_of EmptyString s.
Proof. exists EmptyString, s. by rewrite !append_Empty. Qed.

Lemma infix_trans t u s : infix_of t u -> infix_of u s -> infix_of t s.
Proof.
  intros (a & b & ->) (a' & b' & ->). exists (a' +:+ a), (b +:+ b').
  by rewrite !append_assoc_s.
Qed.

Lemma infix_drop i s : infix_of (str_drop i s) s.
Proof.
  exists (str_take i s), EmptyString. by rewrite append_Empty_r, str_take_drop.
Qed.

Lemma infix_take i s : infix_of (str_take i s) s.
Proof.
  exists EmptyString, (str_drop i s). by rewrite append_Empty, str_take_drop.
Qed.

Lemma infix_cons c t s : infix_of t s -> infix_of t (String c s).
Proof.
  intros (a & b & ->). exists (String c a), b. by rewrite append_String.
Qed.

Lemma str_rev_onto_app s : forall acc,
  str_rev_onto s acc = str_rev s +:+ acc.
Proof.
  unfold str_rev. induction s as [|c s IH]; intros acc; simpl.
  - by rewrite append_Empty.
  - rewrite (IH (String c acc)), (IH (String c EmptyString)).
    by rewrite append_assoc_s, append_String, append_Empty.
Qed.

Lemma str_rev_cons c s : str_rev (String c s) = str_rev s +:+ String c EmptyString.
Proof. unfold str_rev at 1. simpl. apply str_rev_onto_app. Qed.

Lemma str_rev_app s t : str_rev (s +:+ t) = str_rev t +:+ str_rev s.
Proof.
  induction s as [|c s IH].
  - by rewrite append_Empty, append_Empty_r.
  - by rewrite append_String, !str_rev_cons, IH, append_assoc_s.
Qed.

Lemma str_rev_involutive s : str_rev (str_rev s) = s.
Proof.
  induction s as [|c s IH]; [done|].
  by rewrite str_rev_cons, str_rev_app, IH.
Qed.

Lemma trimLeft_go_infix f fuel : forall s,
  infix_of (strings_.trimLeft_go fuel f s) s.
Proof.
  induction fuel as [|fuel IH]; intros s; simpl; [apply infix_empty|].
  destruct s as [|c s]; [apply infix_empty|].
  destruct (utf8.DecodeRuneInString _) as [r size].
  destruct (f r); [|apply infix_refl].
  eapply infix_trans; [apply IH|apply infix_drop].
Qed.

Lemma TrimRightFunc_infix f s : infix_of (strings_.TrimRightFunc s f) s.
Proof.
  unfold strings_.TrimRightFunc.
  destruct (strings_.lastIndexFunc_go _ _ _ _) as [i|]; [|apply infix_take].
  destruct (_ <=? _)%N; [|apply infix_take].
  destruct (utf8.DecodeRuneInString _). apply infix_take.
Qed.

Lemma trimSpace_stop_infix r :
  infix_of (strings_.trimSpace_stop r) (str_rev r).
Proof.
  induction r as [|c r IH]; [apply infix_refl|].
  cbn [strings_.trimSpace_stop].
  destruct (_ <=? _)%N; [apply TrimRightFunc_infix|].
  destruct (strings_.asciiSpace c); [|apply infix_refl].
  eapply infix_trans; [apply IH|]. rewrite str_rev_cons.
  exists EmptyString, (String c EmptyString). by rewrite append_Empty.
Qed.

(** [TrimSpace] returns a piece of its argument. *)
Lemma TrimSpace_infix s : infix_of (strings_.TrimSpace s) s.
Proof.
  induction s as [|c s IH]; [apply infix_refl|].
  cbn [strings_.TrimSpace].
  destruct (_ <=? _)%N.
  - unfold strings_.TrimFunc, strings_.TrimLeftFunc.
    eapply infix_trans; [apply TrimRightFunc_infix|apply trimLeft_go_infix].
  - destruct (strings_.asciiSpace c); [by apply infix_cons|].
    rewrite <-(str_rev_involutive (String c s)) at 2.
    apply trimSpace_stop_infix.
Qed.

Lemma has_byte_app c a b : has_byte c (a +:+ b) = has_byte c a || has_byte c b.
Proof.
  unfold has_byte. induction a as [|x a IH]; [done|].
  rewrite append_String. simpl. destruct (Ascii.eqb x c); [done|]. simpl.
  apply IH.
Qed.

Lemma has_byte_infix c t s :
  infix_of t s -> has_byte c s = false -> has_byte c t = false.
Proof.
  intros (a & b & ->). rewrite !has_byte_app.
  intros H. apply orb_false_iff in H as [_ H]. by apply orb_false_iff in H as [].
Qed.

Lemma Split_pieces_infix s c : Forall (fun x => infix_of x s) (strings_.Split s c).
Proof.
  induction s as [|a s IH]; simpl.
  - constructor; [apply infix_refl|constructor].
  - destruct (Ascii.eqb a c).
    + constructor; [apply infix_empty|].
      eapply Forall_impl; [exact IH|]. intros x Hx. by apply infix_cons.
    + pose proof (index0_Split s c) as H0.
      destruct (Split_cons s c) as (x & xs & Es). rewrite Es in *.
      apply Forall_cons in IH as [_ IH]. simpl in H0. subst x.
      constructor.
      * destruct (before_sep_spec c s) as (rest & E & _).
        exists EmptyString, rest. rewrite append_Empty, append_String. by rewrite <-E.
      * eapply Forall_impl; [exact IH|]. intros x Hx. by apply infix_cons.
Qed.

Lemma before_sep_infix c s : infix_of (before_sep c s) s.
Proof.
  destruct (before_sep_spec c s) as (rest & E & _).
  exists EmptyString, rest. by rewrite append_Empty.
Qed.

(** ** What the matcher finds is a match of the pattern *)

Lemma strip_prefix_app p s rest : strip_prefix p s = Some rest -> s = p +:+ rest.
Proof.
  revert s. induction p as [|a p IH]; intros s; simpl.
  - intros [= ->]. by rewrite append_Empty.
  - destruct s as [|b s]; [done|]. destruct (Ascii.eqb_spec a b) as [->|]; [|done].
    intros H%IH. by rewrite append_String, H.
Qed.

Lemma star_greedy_sound {R} k s (cont : string -> option R) res :
  star_greedy k s cont = Some res ->
  exists x rest, s = x +:+ rest /\ http.all_bytes (in_class k) x = true
                 /\ cont rest = Some res.
Proof.
  induction s as [|c s IH]; simpl.
  - intros H. by exists EmptyString, EmptyString.
  - destruct (in_class k c) eqn:Hc.
    + destruct (star_greedy k s cont) as [r|] eqn:E.
      * intros [= ->]. destruct (IH eq_refl) as (x & rest & -> & Hx & H).
        exists (String c x), rest. rewrite append_String. simpl. by rewrite Hc.
      * intros H. by exists EmptyString, (String c s).
    + intros H. by exists EmptyString, (String c s).
Qed.

Lemma star_lazy_sound {R} k s (cont : string -> option R) res :
  star_lazy k s cont = Some res ->
  exists x rest, s = x +:+ rest /\ http.all_bytes (in_class k) x = true
                 /\ cont rest = Some res.
Proof.
  induction s as [|c s IH]; simpl.
  - destruct (cont EmptyString) eqn:E; [|done]. intros [= ->].
    by exists EmptyString, EmptyString.
  - destruct (cont (String c s)) eqn:E.
    + intros [= ->]. by exists EmptyString, (String c s).
    + destruct (in_class k c) eqn:Hc; [|done].
      intros (x & rest & -> & Hx & H)%IH.
      exists (String c x), rest. rewrite append_String. simpl. by rewrite Hc.
Qed.

(** What the backtracking search finds is a match of the pattern. *)
Lemma run_sound {R} re : forall s caps (cont : string -> list string -> option R) res,
  run re s caps cont = Some res ->
  exists x rest caps',
    s = x +:+ rest /\ denotes re x caps caps' /\ cont rest caps' = Some res.
Proof.
  induction re as [p|k|k|r1 IH1 r2 IH2|r IH]; intros s caps cont res; simpl.
  - destruct (strip_prefix p s) as [rest|] eqn:E; [|done].
    apply strip_prefix_app in E. intros H. by exists p, rest, caps.
  - unfold plus_greedy. destruct s as [|c s]; [done|].
    destruct (in_class k c) eqn:Hc; [|done].
    intros (x & rest & -> & Hx & H)%star_greedy_sound.
    exists (String c x), rest, caps. rewrite append_String. simpl. by rewrite Hc.
  - intros (x & rest & -> & Hx & H)%star_lazy_sound. by exists x, rest, caps.
  - intros (x1 & rest1 & caps1 & -> & H1 & H)%IH1.
    apply IH2 in H as (x2 & rest & caps2 & -> & H2 & H).
    exists (x1 +:+ x2), rest, caps2. rewrite append_assoc_s.
    split; [done|]. split; [|done]. by exists x1, x2, caps1.
  - intros (x & rest & caps1 & -> & H1 & H)%IH.
    rewrite consumed_app in H. exists x, rest, (caps1 ++ [x]).
    split; [done|]. split; [|done]. by exists caps1.
Qed.

Lemma match_here_sound re s m :
  match_here re s = Some m ->
  exists x rest caps, s = x +:+ rest /\ denotes re x [] caps /\ m = x :: caps.
Proof.
  unfold match_here. intros (x & rest & caps & -> & H & E)%run_sound.
  rewrite consumed_app in E. injection E as <-. by exists x, rest, caps.
Qed.

Lemma FindStringSubmatch_sound re s whole caps :
  FindStringSubmatch re s = whole :: caps ->
  denotes re whole [] caps /\ infix_of whole s.
Proof.
  induction s as [|c s IH]; simpl.
  - destruct (match_here re EmptyString) as [m|] eqn:E; [|done].
    intros ->. apply match_here_sound in E as (x & rest & caps' & E & H & [= -> ->]).
    split; [done|]. exists EmptyString, rest. by rewrite append_Empty.
  - destruct (match_here re (String c s)) as [m|] eqn:E.
    + intros ->. apply match_here_sound in E as (x & rest & caps' & E & H & [= -> ->]).
      split; [done|]. exists EmptyString, rest. by rewrite append_Empty.
    + intros [H1 H2]%IH. split; [done|]. by apply infix_cons.
Qed.

(** The shape of the six patterns. *)
Lemma browserTests_shape name re whole version :
  (name, re) ∈ browserTests ->
  denotes re whole [] [version] ->
  version <> EmptyString /\
  http.all_bytes (in_class NotSpace) version = true /\
  exists marker rest, (name, marker) ∈ markers
                      /\ whole = marker +:+ version +:+ rest.
Proof.
  unfold browserTests, markers. intros Hin.
  repeat (apply elem_of_cons in Hin as [[= -> ->]|Hin]);
    [..|by apply elem_of_nil in Hin]; simpl.
  - intros (x1 & x2 & c1 & -> & [-> ->] & c2 & (Hne & Hall & ->) & [= ->]).
    split; [done|]. split; [done|].
    exists "Edg/", EmptyString. split; [set_solver|]. by rewrite append_Empty_r.
  - intros (x1 & x2 & c1 & -> & [-> ->] & c2 & (Hne & Hall & ->) & [= ->]).
    split; [done|]. split; [done|].
    exists "Firefox/", EmptyString. split; [set_solver|]. by rewrite append_Empty_r.
  - intros (x1 & x2 & c1 & -> & [-> ->] & x3 & x4 & c3 & -> &
            (c2 & (Hne & Hall & ->) & ->) & x5 & x6 & c4 & -> & [_ ->] & -> & E).
    injection E as <-.
    split; [done|]. split; [done|].
    exists "Version/", (x5 +:+ "Safari/"). split; [set_solver|]. done.
  - intros (x1 & x2 & c1 & -> & [-> ->] & c2 & (Hne & Hall & ->) & [= ->]).
    split; [done|]. split; [done|].
    exists "Chrome/", EmptyString. split; [set_solver|]. by rewrite append_Empty_r.
  - intros (x1 & x2 & c1 & -> & [-> ->] & c2 & (Hne & Hall & ->) & [= ->]).
    split; [done|]. split; [done|].
    exists "Opera/", EmptyString. split; [set_solver|]. by rewrite append_Empty_r.
  - intros (x1 & x2 & c1 & -> & [-> ->] & x3 & x4 & c3 & -> &
            (c2 & (Hne & Hall & ->) & ->) & -> & E).
    injection E as <-.
    split; [done|]. split; [done|].
    exists "MSIE ", ";". split; [set_solver|]. done.
Qed.

Lemma find_In_browserTests ua name re :
  first_match ua = Some (name, re) -> (name, re) ∈ browserTests.
Proof.
  unfold first_match. intros H%find_some. apply list_elem_of_In, H.
Qed.

Lemma simple_pattern_matches p c post :
  in_class NotSpace c = true ->
  is_Some (match_here (Cat (Lit p) (Group (Plus NotSpace)))
             (p +:+ String c post)).
Proof.
  intros Hc. unfold match_here. simpl. rewrite strip_prefix_self.
  simpl. rewrite Hc. apply star_greedy_total. by eauto.
Qed.

(** ** The stats endpoint *)
Section StatsFacts.
Context `{RT : Runtime}.
Variable Encode : json -> string.

Lemma json_of_TrackingData_ext st st' d :
  maps st' = maps st -> strs st' = strs st ->
  json_of_TrackingData st' d = json_of_TrackingData st d.
Proof.
  intros Hm Hs. unfold json_of_TrackingData, json_of_map, json_of_strings,
    map_contents. by rewrite Hm, Hs.
Qed.

Lemma StatsHandler_run w r st :
  wf st ->
  exists h,
    StatsHandler Encode w r st
    = Some (http.Write (http.Header_Set w "Content-Type" "application/json")
              (Encode (JArray (json_of_TrackingData st
                                 <$> records st (dataStore st)))),
            with_structs h st)
    /\ read h (dataStore st) = read (structs st) (dataStore st)
    /\ slice_wf h (dataStore st).
Proof.
  intros Hwf. unfold StatsHandler, mbind, M_bind.
  destruct (GetTrackingData_run st Hwf) as (s & h & E & Hr & Hw & Hap & Hfr).
  rewrite E. unfold gets, mret, M_ret. exists h.
  destruct (Hfr _ Hwf) as (Hr' & Hw' & _). split; [|done].
  do 3 f_equal.
  assert (s <> Nil) as Hs.
  { revert E. unfold GetTrackingData, make, alloc_array. simpl. congruence. }
  destruct s as [|a n c]; [done|]. unfold json_of_data. f_equal.
  unfold records. simpl_state. rewrite Hr. f_equal.
Qed.

End StatsFacts.

(** ** [TrimSpace] leaves no white space at either end *)

Lemma asciiSpace_IsSpace c :
  strings_.asciiSpace c = true ->
  (byte_val c < 0x80)%N /\ unicode.IsSpace (byte_val c) = true.
Proof.
  unfold strings_.asciiSpace. intros H.
  repeat (apply orb_true_iff in H as [H|H]);
    apply N.eqb_eq in H; rewrite H; by split.
Qed.

Lemma asciiSpace_high c : (0x80 <= byte_val c)%N -> strings_.asciiSpace c = false.
Proof.
  intros H. destruct (strings_.asciiSpace c) eqn:E; [|done].
  apply asciiSpace_IsSpace in E as [? _]. lia.
Qed.

Lemma asciiSpace_not_IsSpace c :
  unicode.IsSpace (byte_val c) = false -> strings_.asciiSpace c = false.
Proof.
  intros H. destruct (strings_.asciiSpace c) eqn:E; [|done].
  apply asciiSpace_IsSpace in E as [_ ?]. congruence.
Qed.

Lemma str_index_0 c s : str_index (String c s) 0 = c.
Proof. done. Qed.

Lemma str_index_S c s i : str_index (String c s) (S i) = str_index s i.
Proof. done. Qed.

Lemma str_index_drop s : forall i j,
  str_index (str_drop i s) j = str_index s (i + j).
Proof.
  induction s as [|c s IH]; intros [|i] j; try done.
  rewrite str_drop_S. simpl plus. rewrite str_index_S. apply IH.
Qed.

Lemma str_index_take s : forall i j,
  j < i -> str_index (str_take i s) j = str_index s j.
Proof.
  induction s as [|c s IH]; intros [|i] j Hj; try done; try lia.
  rewrite str_take_S. destruct j as [|j]; [done|].
  rewrite !str_index_S. apply IH. lia.
Qed.

Lemma length_str_take s : forall i,
  i <= String.length s -> String.length (str_take i s) = i.
Proof.
  induction s as [|c s IH]; intros [|i] Hi; simpl in *; try done; try lia.
  rewrite IH; lia.
Qed.

Lemma length_str_drop s : forall i,
  String.length (str_drop i s) = String.length s - i.
Proof. induction s as [|c s IH]; intros [|i]; simpl; try done. Qed.

Lemma str_drop_index s : forall i,
  i < String.length s ->
  str_drop i s = String (str_index s i) (str_drop (S i) s).
Proof.
  induction s as [|c s IH]; intros [|i] Hi; simpl in *; try done; try lia.
  rewrite IH by lia. by destruct s.
Qed.

Lemma str_take_all s : forall i, String.length s <= i -> str_take i s = s.
Proof.
  induction s as [|c s IH]; intros [|i] Hi; simpl in *; try done; try lia.
  rewrite IH; [done|lia].
Qed.

Lemma first_byte_app a b :
  first_byte (a +:+ b) = match first_byte a with Some c => Some c | None => first_byte b end.
Proof. destruct a; [by rewrite append_Empty|by rewrite append_String]. Qed.

Lemma last_byte_take s : forall k,
  k < String.length s -> last_byte (str_take (S k) s) = Some (str_index s k).
Proof.
  unfold last_byte.
  induction s as [|c s IH]; intros k Hk; [simpl in Hk; lia|].
  rewrite str_take_S, str_rev_cons, first_byte_app.
  destruct k as [|k].
  - by destruct s.
  - simpl in Hk. rewrite IH by lia. done.
Qed.

Lemma first_byte_prefix t b c :
  first_byte t = Some c -> first_byte (t +:+ b) = Some c.
Proof. intros H. by rewrite first_byte_app, H. Qed.

Lemma first_byte_take s i c :
  first_byte (str_take i s) = Some c -> first_byte s = Some c.
Proof.
  intros H. rewrite <-(str_take_drop i s). by apply first_byte_prefix.
Qed.

Lemma first_spec s0 sz lo hi :
  utf8.first s0 = Some (sz, (lo, hi)) -> 2 <= sz <= 4 /\ (0x80 <= lo)%N.
Proof.
  unfold utf8.first.
  repeat (destruct (_ : bool); [intros [= <- <- <-]; split; [lia|done]|]).
  done.
Qed.

Lemma Decode_ascii c rest :
  (byte_val c < 0x80)%N ->
  utf8.DecodeRuneInString (String c rest) = (byte_val c, 1).
Proof.
  intros H. unfold utf8.DecodeRuneInString.
  apply N.ltb_lt in H. unfold utf8.RuneSelf. by rewrite H.
Qed.

Lemma cont_high b : utf8.cont b = true -> (0x80 <= b)%N.
Proof. unfold utf8.cont. intros [H _]%andb_true_iff. by apply N.leb_le. Qed.

(** The size of the rune decoded at the start of a string that is not
    empty, and the last byte of a sequence that starts above 0x7F. *)
Lemma Decode_size c0 rest r size :
  utf8.DecodeRuneInString (String c0 rest) = (r, size) ->
  1 <= size <= String.length (String c0 rest) /\
  ((0x80 <= byte_val c0)%N ->
   (0x80 <= byte_val (str_index (String c0 rest) (size - 1)))%N).
Proof.
  unfold utf8.DecodeRuneInString. set (s := String c0 rest).
  assert (1 <= String.length s) as Hlen by (simpl; lia).
  destruct (byte_val c0 <? utf8.RuneSelf)%N eqn:E0.
  { intros [= <- <-]. split; [lia|]. apply N.ltb_lt in E0.
    unfold utf8.RuneSelf in E0. lia. }
  destruct (utf8.first (byte_val c0)) as [[sz [lo hi]]|] eqn:Ef;
    [|intros [= <- <-]; split; [lia|done]].
  apply first_spec in Ef as [Hsz Hlo].
  destruct (String.length s <? sz) eqn:El; [intros [= <- <-]; split; [lia|done]|].
  apply Nat.ltb_ge in El.
  destruct ((_ <? lo) || (hi <? _))%N eqn:E1; [intros [= <- <-]; split; [lia|done]|].
  apply orb_false_iff in E1 as [E1 _]. apply N.ltb_ge in E1.
  destruct (sz <=? 2) eqn:E2.
  { intros [= <- <-]. split; [lia|]. intros _. simpl minus. lia. }
  apply Nat.leb_gt in E2.
  destruct (negb (utf8.cont _)) eqn:Ec2; [intros [= <- <-]; split; [lia|done]|].
  apply negb_false_iff, cont_high in Ec2.
  destruct (sz <=? 3) eqn:E3.
  { intros [= <- <-]. split; [lia|]. intros _. by simpl minus. }
  apply Nat.leb_gt in E3.
  destruct (negb (utf8.cont _)) eqn:Ec3; [intros [= <- <-]; split; [lia|done]|].
  apply negb_false_iff, cont_high in Ec3.
  intros [= <- <-]. split; [lia|]. intros _. by simpl minus.
Qed.

Lemma scan_back_le fuel s : forall start lim,
  (utf8.scan_back fuel s start lim <= start)%Z.
Proof.
  induction fuel as [|fuel IH]; intros start lim; simpl; [lia|].
  destruct (start <? lim)%Z; [lia|]. destruct (utf8.RuneStart _); [lia|].
  specialize (IH (start - 1)%Z lim). lia.
Qed.

(** The rune decoded at the end of a string that is not empty: its size,
    and its value when it starts with an ASCII byte. *)
Lemma DecodeLast_spec t r size :
  t <> EmptyString ->
  utf8.DecodeLastRuneInString t = (r, size) ->
  1 <= size <= String.length t /\
  ((byte_val (str_index t (String.length t - size)) < 0x80)%N ->
   r = byte_val (str_index t (String.length t - size))).
Proof.
  intros Hne. unfold utf8.DecodeLastRuneInString.
  destruct (String.length t) as [|last] eqn:Hlen; [by destruct t|].
  destruct (_ <? utf8.RuneSelf)%N eqn:E0.
  { intros [= <- <-]. split; [lia|]. intros _. f_equal. f_equal. lia. }
  apply N.ltb_ge in E0. unfold utf8.RuneSelf in E0.
  set (lim := Z.max 0 (Z.of_nat (S last) - Z.of_nat utf8.UTFMax)).
  pose proof (scan_back_le (S utf8.UTFMax) t (Z.of_nat last - 1) lim) as Hsb.
  set (start := Z.to_nat (Z.max 0 (utf8.scan_back _ _ _ lim))).
  assert (start <= last) as Hstart by (subst start; lia).
  assert (str_sub start (S last) t
          = String (str_index t start) (str_drop (S start) t)) as Hsub.
  { unfold str_sub. rewrite str_take_all by (rewrite length_str_drop; lia).
    apply str_drop_index. lia. }
  rewrite Hsub.
  destruct (utf8.DecodeRuneInString _) as [r' size'] eqn:Ed.
  pose proof (Decode_size _ _ _ _ Ed) as [Hsize _].
  destruct (start + size' =? S last) eqn:Ee.
  - apply Nat.eqb_eq in Ee. intros [= <- <-]. split; [lia|].
    replace (S last - size') with start by lia. intros Hlow.
    rewrite Decode_ascii in Ed by done. by injection Ed as <- _.
  - intros [= <- <-]. split; [lia|].
    replace (S last - 1) with last by lia. lia.
Qed.

Lemma lastIndexFunc_spec s fuel : forall i j,
  i <= String.length s ->
  strings_.lastIndexFunc_go fuel unicode.IsSpace s i = Some j ->
  j < i /\
  ((byte_val (str_index s j) < 0x80)%N ->
   unicode.IsSpace (byte_val (str_index s j)) = false).
Proof.
  induction fuel as [|fuel IH]; intros i j Hi; simpl; [done|].
  destruct i as [|i]; [done|].
  destruct (utf8.DecodeLastRuneInString _) as [r size] eqn:Ed.
  assert (str_take (S i) s <> EmptyString) as Hne.
  { destruct s; [simpl in Hi; lia|done]. }
  apply DecodeLast_spec in Ed as [Hsize Hr]; [|done].
  rewrite length_str_take in Hsize, Hr by done.
  rewrite str_index_take in Hr by lia.
  destruct (negb (unicode.IsSpace r)) eqn:Ef.
  - intros [= <-]. split; [lia|]. intros Hlow.
    rewrite <-(Hr Hlow). by apply negb_true_iff.
  - intros H. apply IH in H as [Hj Hb]; [|lia]. split; [lia|done].
Qed.

Lemma TrimRightFunc_take s :
  exists k, strings_.TrimRightFunc s unicode.IsSpace = str_take k s.
Proof.
  unfold strings_.TrimRightFunc.
  destruct (strings_.lastIndexFunc_go _ _ _ _) as [i|]; [|by eauto].
  destruct (_ <=? _)%N; [|by eauto].
  destruct (utf8.DecodeRuneInString _). by eauto.
Qed.

Lemma TrimRightFunc_last s c :
  last_byte (strings_.TrimRightFunc s unicode.IsSpace) = Some c ->
  strings_.asciiSpace c = false.
Proof.
  unfold strings_.TrimRightFunc.
  destruct (strings_.lastIndexFunc_go _ _ _ _) as [i|] eqn:Ei; [|done].
  apply lastIndexFunc_spec in Ei as [Hi Hb]; [|done].
  destruct (_ <=? _)%N eqn:E.
  - apply N.leb_le in E. unfold utf8.RuneSelf in E.
    rewrite (str_drop_index s i Hi).
    destruct (utf8.DecodeRuneInString _) as [r wid] eqn:Ed.
    apply Decode_size in Ed as [Hw Hlast].
    specialize (Hlast E). rewrite <-(str_drop_index s i Hi) in Hlast, Hw.
    rewrite str_index_drop in Hlast. rewrite length_str_drop in Hw.
    replace (i + wid) with (S (i + (wid - 1))) by lia.
    rewrite last_byte_take by lia. intros [= <-]. by apply asciiSpace_high.
  - apply N.leb_gt in E. unfold utf8.RuneSelf in E.
    rewrite last_byte_take by done. intros [= <-].
    by apply asciiSpace_not_IsSpace, Hb.
Qed.

Lemma trimLeft_go_first fuel : forall s c,
  first_byte (strings_.trimLeft_go fuel unicode.IsSpace s) = Some c ->
  strings_.asciiSpace c = false.
Proof.
  induction fuel as [|fuel IH]; intros s c; simpl; [done|].
  destruct s as [|c0 s]; [done|].
  destruct (utf8.DecodeRuneInString _) as [r size] eqn:Ed.
  destruct (unicode.IsSpace r) eqn:Er; [apply IH|].
  intros [= <-].
  destruct (N.lt_ge_cases (byte_val c0) 0x80) as [Hlow|Hhigh].
  - rewrite Decode_ascii in Ed by done. injection Ed as <- _.
    by apply asciiSpace_not_IsSpace.
  - by apply asciiSpace_high.
Qed.

Lemma str_take_app_le (a b : string) : forall k,
  k <= String.length a -> str_take k (a +:+ b) = str_take k a.
Proof.
  induction a as [|x a IH]; intros [|k] Hk.
  - by destruct (EmptyString +:+ b).
  - simpl in Hk. lia.
  - by rewrite append_String.
  - rewrite append_String, !str_take_S, IH; [done|simpl in Hk; lia].
Qed.

Lemma trimSpace_stop_take r :
  exists k, strings_.trimSpace_stop r = str_take k (str_rev r).
Proof.
  induction r as [|c r IH]; [by exists 0|].
  cbn [strings_.trimSpace_stop].
  destruct (_ <=? _)%N; [apply TrimRightFunc_take|].
  destruct (strings_.asciiSpace c).
  - destruct IH as [k ->]. rewrite str_rev_cons.
    exists (Nat.min k (String.length (str_rev r))).
    rewrite str_take_app_le by lia.
    destruct (Nat.le_gt_cases k (String.length (str_rev r))) as [Hk|Hk].
    + by rewrite Nat.min_l.
    + rewrite Nat.min_r by lia. by rewrite !str_take_all by lia.
  - exists (String.length (str_rev (String c r))). by rewrite str_take_all.
Qed.

Lemma trimSpace_stop_last r c :
  last_byte (strings_.trimSpace_stop r) = Some c ->
  strings_.asciiSpace c = false.
Proof.
  induction r as [|c0 r IH]; [done|].
  cbn [strings_.trimSpace_stop].
  destruct (_ <=? _)%N; [apply TrimRightFunc_last|].
  destruct (strings_.asciiSpace c0) eqn:E0; [done|].
  unfold last_byte. rewrite str_rev_involutive. by intros [= <-].
Qed.

Lemma TrimSpace_trimmed s : trimmed (strings_.TrimSpace s).
Proof.
  induction s as [|c0 s IH]; [by split|].
  cbn [strings_.TrimSpace].
  destruct (_ <=? _)%N.
  - unfold strings_.TrimFunc, strings_.TrimLeftFunc. split.
    + intros c.
      destruct (TrimRightFunc_take
                  (strings_.trimLeft_go (String.length (String c0 s))
                     unicode.IsSpace (String c0 s))) as [k ->].
      intros H%first_byte_take. by apply trimLeft_go_first in H.
    + apply TrimRightFunc_last.
  - destruct (strings_.asciiSpace c0) eqn:E0; [done|]. split.
    + intros c. destruct (trimSpace_stop_take (str_rev (String c0 s))) as [k ->].
      rewrite str_rev_involutive. intros H%first_byte_take.
      by injection H as <-.
    + apply trimSpace_stop_last.
Qed.

Lemma language_tags_clean (h : string) (parts : list string) :
  Forall (fun part => infix_of part h /\ has_byte "," part = false) parts ->
  Forall (fun tag => tag <> EmptyString /\ trimmed tag
                     /\ has_byte "," tag = false
                     /\ has_byte ";" tag = false /\ infix_of tag h)
    (filter (fun lang => lang <> EmptyString)
       (map (fun part => strings_.TrimSpace (before_sep ";" part)) parts)).
Proof.
  induction 1 as [|part parts [Hin Hc] _ IH]; [constructor|].
  simpl. rewrite filter_cons. destruct (decide _) as [Hne|]; [|done].
  constructor; [|done]. split; [done|].
  split; [apply TrimSpace_trimmed|].
  pose proof (TrimSpace_infix (before_sep ";" part)) as Ht.
  pose proof (before_sep_infix ";" part) as Hb.
  destruct (before_sep_spec ";" part) as (rest & _ & Hsemi & _).
  split; [|split].
  - eapply has_byte_infix; [|exact Hc]. by eapply infix_trans.
  - eapply has_byte_infix; [|exact Hsemi]. done.
  - eapply infix_trans; [exact Ht|]. by eapply infix_trans.
Qed.


(** * Properties of the rest of the program *)

Section MoreProperties.
Context `{RT : Runtime}.

(** X1: [extractCookies] returns a new map (the maps there were are left as
    they are) that holds, for every name, the value of the last cookie of
    the request with that name, and nothing when there is none: of two
    cookies with the same name the later one wins. [r.Cookie(name)], which
    [PixelHandler] uses, returns the first one. *)
Theorem extractCookies_last_wins (r : http.Request) (st : State) :
  exists l st',
    extractCookies r st = Some (Some l, st') /\
    maps st !! l = None /\
    (forall l', l' <> l -> maps st' !! l' = maps st !! l') /\
    (forall name,
       map_contents st' (Some l) !! name
       = http.Value <$>
           last (filter (fun c => http.Name c = name) (http.Cookies r))) /\
    (forall name, name <> EmptyString ->
       http.Request_Cookie r name
       = head (filter (fun c => http.Name c = name) (http.Cookies r))).
Proof.
  eexists _, _. split; [apply extractCookies_run|].
  split; [apply fresh_unused|]. split; [|split].
  - intros l' Hl'. simpl. by rewrite lookup_insert_ne.
  - intros name. simpl. rewrite lookup_insert_eq. simpl.
    apply cookie_map_lookup.
  - intros name Hn. unfold http.Request_Cookie.
    rewrite bool_decide_eq_false_2 by done. apply find_head_filter.
Qed.


(** X3: [getReferer] never returns the empty string: it returns the
    [Referer] header when it is not empty, else the [Referrer] header when
    it is not empty, else ["direct"]; and this is the referer of the
    captured event. *)
Theorem getReferer_never_empty (r : http.Request) :
  getReferer r <> EmptyString /\
  (http.Get (http.Headers r) "Referer" <> EmptyString ->
     getReferer r = http.Get (http.Headers r) "Referer") /\
  (http.Get (http.Headers r) "Referer" = EmptyString ->
   http.Get (http.Headers r) "Referrer" <> EmptyString ->
     getReferer r = http.Get (http.Headers r) "Referrer") /\
  (http.Get (http.Headers r) "Referer" = EmptyString ->
   http.Get (http.Headers r) "Referrer" = EmptyString ->
     getReferer r = "direct") /\
  (forall st, wf st -> Referer <$> captured r st = Some (getReferer r)).
Proof.
  unfold getReferer.
  destruct (http.Get (http.Headers r) "Referer") as [|a s] eqn:E1; simpl;
    [destruct (http.Get (http.Headers r) "Referrer") as [|b t] eqn:E2; simpl|].
  all: repeat split; try done.
  all: intros st Hwf; destruct (captured_run r st Hwf) as (lc & lq & sl & ->);
    simpl; unfold getReferer; by rewrite ?E1, ?E2.
Qed.

(** X5: [parseLanguage] returns the nil slice exactly when the header is
    not empty and holds no language (only commas, weights and white space);
    for the empty header it returns an empty slice that is not nil. (The
    JSON encoder writes the first as [null] and the second as [[]].) *)
Theorem parseLanguage_nil_or_empty (acceptLanguage : string) (st : State) :
  exists languages st',
    parseLanguage acceptLanguage st = Some (languages, st') /\
    read (strs st') languages = language_list acceptLanguage /\
    (languages = Nil <->
     acceptLanguage <> EmptyString /\ language_list acceptLanguage = []) /\
    (acceptLanguage = EmptyString -> exists a, languages = Slice a 0 0).
Proof.
  destruct (parseLanguage_run acceptLanguage st) as (s & h & E & Hr & _).
  exists s, (with_strs h st). split; [done|]. split; [done|].
  by apply (parseLanguage_Nil _ _ _ _ E).
Qed.

(** X6: every language [parseLanguage] returns is not empty, has no ASCII
    white space at either end, holds neither a comma nor a semicolon, and
    is a piece of the header; there are at most as many as the header has
    comma-separated parts. *)
Theorem parseLanguage_tags_clean (acceptLanguage : string) (st : State) :
  exists languages st',
    parseLanguage acceptLanguage st = Some (languages, st') /\
    Forall (fun tag => tag <> EmptyString /\ trimmed tag
                       /\ has_byte "," tag = false
                       /\ has_byte ";" tag = false
                       /\ infix_of tag acceptLanguage)
      (read (strs st') languages) /\
    length (read (strs st') languages)
      <= length (strings_.Split acceptLanguage ",").
Proof.
  destruct (parseLanguage_run acceptLanguage st) as (s & h & E & Hr & _).
  exists s, (with_strs h st). split; [done|]. simpl. rewrite Hr.
  unfold language_list. split.
  - apply language_tags_clean.
    pose proof (Split_pieces_infix acceptLanguage ",") as H1.
    pose proof (Split_no_sep acceptLanguage ",") as H2.
    revert H1 H2. generalize (strings_.Split acceptLanguage ",").
    induction 1; intros H2; [constructor|].
    apply Forall_cons in H2 as [? ?]. constructor; [done|]. auto.
  - etrans; [apply length_filter|]. by rewrite length_map.
Qed.


(** X9: on a visit where [PixelHandler] generates a token (issuance is
    enabled and the request has no cookie of the configured name), the
    response gets the cookie when the configured name is a valid cookie
    name and no cookie otherwise, and the event captured for that request
    holds the cookies of the request and no entry for the configured name:
    the token just generated is not recorded with the event. *)
Theorem issued_token_not_in_event (w : http.ResponseWriter) (r : http.Request)
        (st : State) :
  wf st ->
  issues_cookie st r = true ->
  exists w' st1 p st2 d,
    PixelHandler w r st = Some (w', (r, None), st1) /\
    http.SetCookies w' =
      http.SetCookies w ++
      (if http.isCookieNameValid (CookieName (config st))
       then [{| http.Name := CookieName (config st);
                http.Value := token_at (now st);
                http.Path := "/";
                http.MaxAge := http.wire_MaxAge (MaxAge (config st));
                http.HttpOnly := true |}]
       else []) /\
    capture r st1 = Some (p, st2) /\
    last (records st2 (dataStore st2)) = Some d /\
    ev_Cookies (view st2 d) = cookie_map r /\
    ev_Cookies (view st2 d) !! CookieName (config st) = None.
Proof.
  intros Hwf Hic.
  destruct (PixelHandler_run w r st) as (st1 & E & Hd & Hs).
  rewrite Hic in E.
  assert (http.Request_Cookie r (CookieName (config st)) = None) as Hnone.
  { unfold issues_cookie in Hic.
    apply andb_true_iff in Hic as [_ Hic]. apply negb_true_iff in Hic.
    apply bool_decide_eq_false in Hic.
    by destruct (http.Request_Cookie r _); [destruct Hic|]. }
  rewrite Hnone in E.
  assert (wf st1) as Hwf1 by (unfold wf; by rewrite Hs, Hd).
  destruct (capture_run r st1 Hwf1)
    as (p & lc & lq & sl & st2 & Hc & _ & _ & _ & Hrec & _ & _ & Hlc & _).
  eexists _, st1, p, st2, (built r st1 lc lq sl).
  split; [exact E|].
  split; [cbn [http.Write http.SetCookies]; by rewrite SetCookies_issued|].
  split; [done|].
  split; [by rewrite Hrec, last_snoc|].
  assert (ev_Cookies (view st2 (built r st1 lc lq sl)) = cookie_map r) as Hev.
  { unfold view, built, map_contents. simpl. by rewrite Hlc. }
  split; [done|]. rewrite Hev, cookie_map_lookup.
  destruct (filter _ (http.Cookies r)) as [|c l] eqn:Hf; [done|].
  assert (c ∈ filter (fun c => http.Name c = CookieName (config st))
                (http.Cookies r)) as Hin by (rewrite Hf; apply list_elem_of_here).
  apply list_elem_of_filter in Hin as [Hn Hin].
  assert (is_Some (http.Request_Cookie r (CookieName (config st)))) as [? Hsome].
  { unfold http.Request_Cookie. rewrite bool_decide_eq_false_2.
    - rewrite find_head_filter, Hf. by eauto.
    - intros Hname. apply Cookies_valid in Hin. by rewrite Hn, Hname in Hin. }
  by rewrite Hnone in Hsome.
Qed.

(** X10: round trip of the token. A first request gets a cookie issued; a
    second request that carries one cookie of the configured name, with the
    issued token as value, gets no cookie, leaves the state to
    [PixelHandler] unchanged, is handed to [processRequest] with that
    cookie, and its event records the token under the configured name. *)
Theorem returning_visitor_keeps_token (w1 w2 : http.ResponseWriter)
        (r1 r2 : http.Request) (ck : http.Cookie) (st : State) :
  wf st ->
  CookieName (config st) <> EmptyString ->
  issues_cookie st r1 = true ->
  filter (fun c => http.Name c = CookieName (config st)) (http.Cookies r2) = [ck] ->
  http.Value ck = token_at (now st) ->
  exists w1' st1 w2' p st2 d,
    PixelHandler w1 r1 st = Some (w1', (r1, None), st1) /\
    http.Value <$> last (http.SetCookies w1') = Some (http.Value ck) /\
    PixelHandler w2 r2 st1 = Some (w2', (r2, Some ck), st1) /\
    http.SetCookies w2' = http.SetCookies w2 /\
    capture r2 st1 = Some (p, st2) /\
    last (records st2 (dataStore st2)) = Some d /\
    ev_Cookies (view st2 d) !! CookieName (config st) = Some (token_at (now st)).
Proof.
  intros Hwf Hname Hic Hf Hv.
  destruct (PixelHandler_state w1 r1 st)
    as (w1' & st1 & E1 & Hs & Hm & Hstr & Hc & Hh & Hd & Hw & _).
  pose proof (PixelHandler_run w1 r1 st) as (st1' & E1' & _).
  rewrite E1 in E1'. injection E1' as Hw1 _.
  assert (http.Request_Cookie r1 (CookieName (config st)) = None) as Hnone.
  { unfold issues_cookie in Hic.
    apply andb_true_iff in Hic as [_ Hic]. apply negb_true_iff in Hic.
    apply bool_decide_eq_false in Hic.
    by destruct (http.Request_Cookie r1 _); [destruct Hic|]. }
  rewrite Hnone in E1.
  assert (http.Request_Cookie r2 (CookieName (config st1)) = Some ck) as Hsome.
  { rewrite Hc. unfold http.Request_Cookie.
    rewrite bool_decide_eq_false_2 by done. by rewrite find_head_filter, Hf. }
  assert (issues_cookie st1 r2 = false) as Hic2.
  { unfold issues_cookie. rewrite Hsome, bool_decide_eq_true_2 by done.
    apply andb_false_r. }
  destruct (PixelHandler_state w2 r2 st1)
    as (w2' & st1'' & E2 & _ & _ & _ & _ & _ & _ & _ & Hi2).
  rewrite Hic2 in Hi2. subst st1''. rewrite Hsome in E2.
  pose proof (PixelHandler_run w2 r2 st1) as (st1b & E2' & _).
  rewrite Hsome, E2, Hic2 in E2'. injection E2' as Hw2.
  assert (wf st1) as Hwf1 by (unfold wf; by rewrite Hs, Hd).
  destruct (capture_run r2 st1 Hwf1)
    as (p & lc & lq & sl & st2 & Hcap & _ & _ & _ & Hrec & _ & _ & Hlc & _).
  exists w1', st1, w2', p, st2, (built r2 st1 lc lq sl).
  split; [done|]. split.
  { assert (http.isCookieNameValid (CookieName (config st)) = true) as Hvalid.
    { assert (ck ∈ filter (fun c => http.Name c = CookieName (config st))
                     (http.Cookies r2)) as Hin
        by (rewrite Hf; apply list_elem_of_here).
      apply list_elem_of_filter in Hin as [<- Hin]. by apply Cookies_valid in Hin. }
    rewrite Hw1, Hic. cbn [http.Write http.SetCookies].
    rewrite SetCookies_issued, Hvalid, last_snoc. simpl. by rewrite Hv. }
  split; [done|]. split; [by rewrite Hw2|]. split; [done|].
  split; [by rewrite Hrec, last_snoc|].
  unfold view, built, map_contents. simpl. rewrite Hlc. simpl.
  by rewrite cookie_map_lookup, Hf, <-Hv.
Qed.

(** X11: a [processRequest] that returns, whatever its handlers do through
    the pointer to the event they are called with (assignments to its
    fields, stores into and deletions from its maps, stores into the
    elements of its language slice), has appended exactly one record to
    the data store, the one captured from the request; the records there
    were are unchanged and in place. *)
Theorem processRequest_appends_one (r : http.Request)
        (cookie : option http.Cookie) (st st' : State) :
  wf st ->
  processRequest r cookie st = Some (tt, st') ->
  exists d,
    captured r st = Some d /\
    records st' (dataStore st') = records st (dataStore st) ++ [d] /\
    length (records st' (dataStore st')) = S (length (records st (dataStore st))) /\
    wf st'.
Proof.
  intros Hwf H.
  destruct (wf_processRequest r cookie st st' Hwf H) as (Hwf' & p & st1 & Hc & Hr).
  destruct (capture_run r st Hwf)
    as (p' & lc & lq & sl & st1' & Hc' & _ & _ & _ & Hrec & _).
  rewrite Hc in Hc'. injection Hc' as <- <-.
  exists (built r st lc lq sl).
  unfold captured. rewrite Hc, Hr, Hrec, last_snoc.
  split; [done|]. split; [done|]. split; [|done].
  rewrite length_app. simpl. lia.
Qed.

(** X12: pixel requests served one after the other, with handlers that only
    assign to fields of the event they receive, all return and leave one
    event each in the data store, after the events there were and in the
    order of the requests; each event shows the host, path, referer,
    cookies, query, client IP, browser, languages, geo IP and domain of its
    own request (later requests do not disturb it), and a snapshot taken
    afterwards reads the same events. *)
Theorem requests_stored_in_order (rs : list http.Request) (st : State) :
  wf st -> Forall (Forall is_Assign) (handlers st) ->
  exists st' es snap st'',
    for_each rs serve st = Some (tt, st') /\
    events st' (dataStore st') = (view st' <$> records st (dataStore st)) ++ es /\
    Forall2 (shows (config st)) rs es /\
    length (records st' (dataStore st'))
      = length (records st (dataStore st)) + length rs /\
    GetTrackingData st' = Some (snap, st'') /\
    events st'' snap = events st' (dataStore st').
Proof.
  intros Hwf Hh.
  destruct (serve_all_run rs st Hwf Hh)
    as (st' & ds & E & Hwf' & _ & _ & Hr & Hsh & _ & _).
  destruct (GetTrackingData_run st' Hwf') as (s & h & Eg & Hrs & _).
  exists st', (view st' <$> ds), s, (with_structs h st').
  split; [done|]. split.
  { unfold events. by rewrite Hr, fmap_app. }
  split. { by apply Forall2_fmap_r. }
  split. { rewrite Hr, length_app. by rewrite (Forall2_length _ _ _ Hsh). }
  split; [done|].
  unfold events, records. simpl_state. by rewrite Hrs.
Qed.

(** X13: the copy [GetTrackingData] returns is shallow. A snapshot taken
    after an event was appended and before its handlers have run is a
    separate array with the same records, but the records share their
    cookie and query maps with the event: when a handler then stores into
    one of these maps, the records of the snapshot are unchanged and the map
    they refer to has the new entry. *)
Theorem snapshot_shares_maps (r : http.Request) (m : mapField) (k v : string)
        (st : State) :
  wf st -> m <> FParams -> handlers st = [[MapStore m k v]] ->
  exists p st1 snap st2 st3 d,
    capture r st = Some (p, st1) /\
    GetTrackingData st1 = Some (snap, st2) /\
    dispatch p st2 = Some (tt, st3) /\
    apart (dataStore st2) snap /\
    last (records st2 snap) = Some d /\
    records st3 snap = records st2 snap /\
    map_contents st2 (field_map m d)
    = match m with FCookies => cookie_map r | _ => query_map r end /\
    map_contents st3 (field_map m d)
    = <[k := v]> (map_contents st2 (field_map m d)).
Proof.
  intros Hwf Hm Hh.
  destruct (capture_run r st Hwf)
    as (p & lc & lq & sl & st1 & Hc & Hp & Hap & Hwf1 & Hrec & _ & Hh1 & Hlc & Hlq & _).
  destruct (GetTrackingData_run st1 Hwf1) as (s & h & Eg & Hr & Hw & Haps & Hfr).
  assert (h !! p = Some [built r st lc lq sl]) as Hp2.
  { destruct (Hfr (cell p)) as (Hr1 & (xs & Hx & Hl & _) & _).
    { exists [built r st lc lq sl]. by split. }
    simpl in Hr1. unfold array_at in Hr1. rewrite Hx, Hp in Hr1. simpl in Hr1.
    rewrite Hx. f_equal. destruct xs as [|x [|? ?]]; simpl in *; try done. }
  assert (exists l, field_map m (built r st lc lq sl) = Some l
                    /\ maps st1 !! l
                       = Some (match m with FCookies => cookie_map r
                                          | _ => query_map r end))
    as (l & Hl & Hml) by (destruct m; simpl; by eauto).
  exists p, st1, s, (with_structs h st1). eexists _, (built r st lc lq sl).
  split; [done|]. split; [done|]. split.
  { unfold dispatch, mbind, M_bind, gets. simpl_state. rewrite Hh1, Hh. simpl.
    unfold call_handler. simpl. unfold mbind, M_bind, load. simpl_state.
    rewrite Hp2, Hl. rewrite map_store_run. reflexivity. }
  split; [done|]. unfold records. simpl_state. split.
  { rewrite Hr. unfold records in Hrec. by rewrite Hrec, last_snoc. }
  split; [done|]. rewrite Hl. unfold map_contents. simpl_state.
  rewrite Hml, lookup_insert_eq. done.
Qed.

(** X14: a new tracker has no events and no handlers; its snapshot is an
    empty slice that is not nil; it issues the cookie [_tracker] with a
    max-age of 30 days to every request without such a cookie and none to a
    request with one; and it records the client IP in the event. *)
Theorem NewPixelTracker_defaults (seed : Rng) (clock : nat -> time_.Time) :
  let st := NewPixelTracker seed clock in
  wf st /\
  records st (dataStore st) = [] /\
  handlers st = [] /\
  (exists snap st', GetTrackingData st = Some (snap, st') /\
     snap <> Nil /\ records st' snap = []) /\
  (forall w r, http.Request_Cookie r "_tracker" = None ->
     exists w' spawned st',
       PixelHandler w r st = Some (w', spawned, st') /\
       http.SetCookies w' =
         http.SetCookies w ++
         [{| http.Name := "_tracker";
             http.Value := token_at (clock 0);
             http.Path := "/";
             http.MaxAge := 30 * 24 * 60 * 60;
             http.HttpOnly := true |}]) /\
  (forall w r, is_Some (http.Request_Cookie r "_tracker") ->
     exists w' spawned st',
       PixelHandler w r st = Some (w', spawned, st') /\
       http.SetCookies w' = http.SetCookies w) /\
  (forall r, IP <$> captured r st = Some (getClientIP r)).
Proof.
  intros st. assert (wf st) as Hwf by apply wf_NewPixelTracker.
  split; [done|].
  assert (records st (dataStore st) = []) as Hr by done.
  split; [done|]. split; [done|]. split.
  { destruct (GetTrackingData_run st Hwf) as (s & h & E & Hrs & _).
    exists s, (with_structs h st). split; [done|]. split.
    - revert E. unfold GetTrackingData, make, alloc_array. simpl. congruence.
    - unfold records. simpl. by rewrite Hrs. }
  split.
  { intros w r Hnone. destruct (PixelHandler_run w r st) as (st' & E & _).
    eexists _, _, st'. split; [exact E|].
    unfold issues_cookie. simpl. rewrite Hnone. simpl.
    change (token_at (clock 0)) with (token_at (now st)).
    by rewrite token_at_value. }
  split.
  { intros w r Hsome. destruct (PixelHandler_run w r st) as (st' & E & _).
    eexists _, _, st'. split; [exact E|].
    unfold issues_cookie. simpl. rewrite bool_decide_eq_true_2 by done.
    simpl. done. }
  intros r. destruct (captured_run r st Hwf) as (lc & lq & sl & ->). done.
Qed.

(** X15: [Configure] replaces the whole configuration and nothing else:
    the handlers and the stored events are as before, a second [Configure]
    overrides the first entirely, the next pixel response follows the new
    switch, cookie name and max-age (it sets the cookie when issuance is
    enabled, the request has no cookie of the new name and the new name is
    a valid cookie name, with the max-age as the cookie line carries it),
    and the next captured event has its IP field filled or not by the new
    [TrackIP], the geo field holding the client IP either way. *)
Theorem Configure_replaces_config (c : Config) (st : State) :
  wf st ->
  exists st1,
    Configure c st = Some (tt, st1) /\
    config st1 = c /\
    handlers st1 = handlers st /\
    events st1 (dataStore st1) = events st (dataStore st) /\
    (forall c', Configure c' st1 = Configure c' st) /\
    (forall w r, exists w' spawned st2,
       PixelHandler w r st1 = Some (w', spawned, st2) /\
       http.SetCookies w' =
         http.SetCookies w ++
         (if negb (DisableCookies c)
             && negb (bool_decide
                        (is_Some (http.Request_Cookie r (CookieName c))))
             && http.isCookieNameValid (CookieName c)
          then [{| http.Name := CookieName c;
                   http.Value := token_at (now st);
                   http.Path := "/";
                   http.MaxAge := http.wire_MaxAge (MaxAge c);
                   http.HttpOnly := true |}]
          else [])) /\
    (forall r, IP <$> captured r st1
               = Some (if TrackIP c then getClientIP r else EmptyString)) /\
    (forall r, Geo <$> captured r st1 = Some {| Geo_IP := getClientIP r |}).
Proof.
  intros Hwf. exists (with_config c st). split; [done|]. split; [done|].
  split; [done|]. split; [done|]. split; [done|].
  split.
  { intros w r. destruct (PixelHandler_run w r (with_config c st)) as (st2 & E & _).
    eexists _, _, st2. split; [exact E|]. unfold issues_cookie. simpl_state.
    cbn [http.Write http.SetCookies].
    destruct (negb (DisableCookies c) && _).
    - rewrite SetCookies_issued. done.
    - simpl. by rewrite app_nil_r. }
  split; intros r;
    destruct (captured_run r (with_config c st) Hwf) as (lc & lq & sl & ->); done.
Qed.

(** X16: [Use] appends the handler to the handlers and changes nothing else;
    afterwards [processRequest] captures the event, calls the handlers
    registered before in their order, and then the new handler, all on the
    same pointer. *)
Theorem Use_runs_handler_last (h : Handler) (r : http.Request)
        (cookie : option http.Cookie) (st : State) :
  wf st ->
  exists st1,
    Use h st = Some (tt, st1) /\
    handlers st1 = handlers st ++ [h] /\
    config st1 = config st /\
    events st1 (dataStore st1) = events st (dataStore st) /\
    processRequest r cookie st1
    = (p ← capture r;
       for_each (handlers st) (fun handler => call_handler handler p) ;;
       call_handler h p) st1.
Proof.
  intros Hwf. eexists. split; [reflexivity|]. split; [done|]. split; [done|].
  split; [done|].
  set (st1 := with_handlers _ st).
  assert (wf st1) as Hwf1 by done.
  destruct (capture_run r st1 Hwf1)
    as (p & lc & lq & sl & st2 & Hc & _ & _ & _ & _ & _ & Hh & _).
  unfold processRequest, mbind, M_bind at 1 3. rewrite Hc.
  unfold dispatch, mbind, M_bind at 1, gets. rewrite Hh. simpl.
  rewrite for_each_app. unfold mbind, M_bind. rewrite Hc.
  destruct (for_each (handlers st) _ st2) as [[[] st3]|]; [|done].
  simpl. unfold mbind, M_bind. by destruct (call_handler h p st3) as [[[] ?]|].
Qed.

(** X19: [isHexString] accepts exactly the strings all of whose bytes are
    hexadecimal digits of either case (a byte above 0x7F is never one,
    however it decodes); so it accepts every string of lowercase
    hexadecimal digits, and every token [generateUserToken] returns, which
    has 32 of them. *)
Theorem isHexString_accepts_tokens :
  (forall s, isHexString s
             = http.all_bytes (fun c => hex_rune (byte_val c)) s) /\
  (forall s, http.all_bytes is_lower_hex s = true -> isHexString s = true) /\
  (forall st, exists token st',
     generateUserToken st = Some (token, st') /\
     String.length token = 32 /\
     isHexString token = true).
Proof.
  assert (forall s, isHexString s
                    = http.all_bytes (fun c => hex_rune (byte_val c)) s) as H1.
  { intros s. by apply isHexString_loop_bytes. }
  assert (forall s, http.all_bytes is_lower_hex s = true -> isHexString s = true)
    as H2.
  { intros s Hs. rewrite H1. revert Hs. apply all_bytes_impl.
    intros c. unfold is_lower_hex, hex_rune. intros ->. done. }
  split; [done|]. split; [done|].
  intros st. destruct (generateUserToken_run st) as (st' & E & _).
  exists (token_at (now st)), st'. split; [done|].
  pose proof (token_shape (Sprintf_f (fst (rand_Float64
                 (rand_Seed (time_.UnixNano (now st))))))) as Hshape.
  unfold is_token in Hshape. apply andb_true_iff in Hshape as [Hl Hb].
  split; [by apply Nat.eqb_eq in Hl|]. by apply H2.
Qed.

End MoreProperties.

Section StatsProperties.
Context `{RT : Runtime}.
Variable Encode : json -> string.

(** X17: [StatsHandler] sets [Content-Type: application/json], sets no
    cookie, and writes the encoding of an array (never [null], also for an
    empty store) with one object for each record of the data store at the
    time of the call, in order; the data store, what its events show, the
    configuration and the handlers are as before. *)
Theorem StatsHandler_document (w : http.ResponseWriter) (r : http.Request)
        (st : State) :
  wf st ->
  exists w' st',
    StatsHandler Encode w r st = Some (w', st') /\
    http.ResponseHeader w' !! "Content-Type" = Some ["application/json"] /\
    http.Body w' =
      http.Body w +:+
      Encode (JArray (json_of_TrackingData st <$> records st (dataStore st))) /\
    http.SetCookies w' = http.SetCookies w /\
    records st' (dataStore st') = records st (dataStore st) /\
    events st' (dataStore st') = events st (dataStore st) /\
    config st' = config st /\ handlers st' = handlers st /\ wf st'.
Proof.
  intros Hwf. destruct (StatsHandler_run Encode w r st Hwf) as (h & E & Hr & Hw).
  eexists _, _. split; [exact E|]. simpl.
  split; [apply lookup_insert_eq|]. split; [done|]. split; [done|].
  unfold events, records, wf. simpl_state. rewrite Hr. done.
Qed.

(** X18: after a pixel request has been served (handlers only assigning to
    fields), the stats document ends with the object of that request: its
    cookies, host, path, referer, route variables and query; an [ip] member
    only when IP tracking is on and the client IP is not empty; the decay;
    the browser; the languages, [null] when the header is not empty and
    holds none; a [geo] member with the client IP, also when IP tracking is
    off; the domain and the timestamp. The timestamp is the clock reading
    that follows the one of the token when a cookie was issued, and the
    decay is computed from the reading after it. *)
Theorem stats_of_served_request (w : http.ResponseWriter)
        (r r' : http.Request) (st : State) :
  wf st -> Forall (Forall is_Assign) (handlers st) ->
  let n := if issues_cookie st r then S (clock_reads st) else clock_reads st in
  let accept := http.Get (http.Headers r) "Accept-Language" in
  exists st1 w' st2,
    serve r st = Some (tt, st1) /\
    StatsHandler Encode w r' st1 = Some (w', st2) /\
    http.Body w' =
      http.Body w +:+
      Encode
        (JArray
           ((json_of_TrackingData st1 <$> records st (dataStore st)) ++
            [JObject
               ([("cookies", JMap (cookie_map r));
                 ("host", JString (http.Host r));
                 ("path", JString (http.URL_Path r));
                 ("referer", JString (getReferer r));
                 ("params", json_of_map st1 (http.Vars r));
                 ("query", JMap (query_map r))]
                ++ (if TrackIP (config st) && nonempty (getClientIP r)
                    then [("ip", JString (getClientIP r))] else [])
                ++ [("decay",
                     JNumber
                       (if nonempty (http.Values_Get (http.Query r) "decay")
                        then 0%Z else decay_at (wall st (S n))));
                    ("useragent",
                     JObject
                       [("browser",
                         JString (Browser (parseUserAgent (http.UserAgent r))));
                        ("version",
                         JString (Version (parseUserAgent (http.UserAgent r))))]);
                    ("language",
                     if nonempty accept && bool_decide (language_list accept = [])
                     then JNull
                     else JArray (JString <$> language_list accept));
                    ("geo", JObject [("ip", JString (getClientIP r))]);
                    ("domain", JString (extractDomain (http.Host r)));
                    ("timestamp", JTime (wall st n))])])).
Proof.
  intros Hwf Hh n accept.
  destruct (serve_run r st Hwf Hh)
    as (st0 & lc & lq & sl & st1 & E & Hc0 & Hw0 & Hn0 & Hwf1 & _ & _ & Hrec
        & Hlc & Hlq & Hsl & Hslwf & Hnil & _).
  destruct (StatsHandler_run Encode w r' st1 Hwf1) as (h & Es & _).
  eexists st1, _, _. split; [exact E|]. split; [exact Es|]. simpl.
  rewrite Hrec, fmap_app. do 3 f_equal. simpl. f_equal.
  unfold json_of_TrackingData, built. cbn [Cookies Host Path Referer Params
    Query IP Decay UserAgent Language Geo Domain Timestamp].
  unfold json_of_map at 1 3, map_contents. rewrite Hlc, Hlq. simpl.
  unfold now. rewrite Hc0, Hw0, Hn0. fold n.
  assert (json_of_strings st1 sl
          = if nonempty accept && bool_decide (language_list accept = [])
            then JNull else JArray (JString <$> language_list accept)) as ->.
  { fold accept in Hsl, Hnil. destruct sl as [|a k c].
    - destruct Hnil as [Hnil _]. destruct (Hnil eq_refl) as [Ha Hl].
      apply nonempty_true in Ha. rewrite Ha, bool_decide_eq_true_2; done.
    - simpl. rewrite <-Hsl.
      destruct (nonempty accept) eqn:Ha; [|done].
      case_bool_decide as Hl; [|done].
      destruct Hnil as [_ Hnil]. exfalso.
      assert (Slice a k c = Nil); [|done]. apply Hnil.
      split; [by apply nonempty_true|]. by rewrite <-Hsl. }
  by destruct (TrackIP (config st)), (nonempty (getClientIP r)) eqn:Hip;
    simpl; rewrite ?Hip.
Qed.

End StatsProperties.

(** X4: when the [X-Forwarded-For] header is not empty, the client IP is a
    piece of that header with no comma in it and no ASCII white space at
    either end, and it depends on nothing else in the request: [X-Real-IP]
    and the remote address are not consulted, even when the first entry
    of the header is blank. *)
Theorem getClientIP_forwarded_clean (r : http.Request) :
  http.Get (http.Headers r) "X-Forwarded-For" <> EmptyString ->
  trimmed (getClientIP r) /\
  has_byte "," (getClientIP r) = false /\
  infix_of (getClientIP r) (http.Get (http.Headers r) "X-Forwarded-For") /\
  (forall r', http.Get (http.Headers r') "X-Forwarded-For"
              = http.Get (http.Headers r) "X-Forwarded-For" ->
     getClientIP r' = getClientIP r).
Proof.
  intros Hne.
  assert (forall r', http.Get (http.Headers r') "X-Forwarded-For"
                     = http.Get (http.Headers r) "X-Forwarded-For" ->
            getClientIP r'
            = strings_.TrimSpace
                (before_sep "," (http.Get (http.Headers r) "X-Forwarded-For")))
    as Heq.
  { intros r' E. unfold getClientIP. rewrite E.
    destruct (http.Get (http.Headers r) "X-Forwarded-For"); [done|].
    cbn [nonempty]. by rewrite index0_Split. }
  rewrite (Heq r eq_refl).
  set (f := http.Get (http.Headers r) "X-Forwarded-For") in *.
  destruct (before_sep_spec "," f) as (rest & _ & Hc & _).
  pose proof (TrimSpace_infix (before_sep "," f)) as Hi.
  split; [apply TrimSpace_trimmed|]. split; [by eapply has_byte_infix|].
  split; [eapply infix_trans; [exact Hi|apply before_sep_infix]|].
  intros r' E. by apply Heq.
Qed.

(** X7: [parseUserAgent] returns an empty version exactly with the browsers
    unknown (empty user agent) and other (no pattern matches); otherwise the
    version is not empty, holds no white space, and stands in the user
    agent right after the marker of the browser returned ([Edg/],
    [Firefox/], [Version/], [Chrome/], [Opera/] or [MSIE ]). A user agent
    where one of the markers [Edg/], [Firefox/], [Chrome/] and [Opera/] is
    followed by a character that is not white space is never unknown or
    other. *)
Theorem parseUserAgent_version_token (userAgent : string) :
  let b := parseUserAgent userAgent in
  ((Version b = EmptyString /\
    (Browser b = "unknown" /\ userAgent = EmptyString
     \/ Browser b = "other" /\ userAgent <> EmptyString))
   \/
   (Version b <> EmptyString /\
    http.all_bytes (in_class NotSpace) (Version b) = true /\
    exists marker, (Browser b, marker) ∈ markers
                   /\ infix_of (marker +:+ Version b) userAgent)) /\
  (forall pre name marker c post,
     (name, marker) ∈ markers -> name <> "Safari" -> name <> "MSIE" ->
     userAgent = pre +:+ marker +:+ String c post ->
     in_class NotSpace c = true ->
     Browser b <> "other" /\ Browser b <> "unknown").
Proof.
  intros b.
  assert (Forall (fun t => groups t.2 = 1) browserTests) as Hg
    by (repeat constructor).
  assert (userAgent <> EmptyString ->
          match first_match userAgent with
          | Some (name, re) =>
            (name, re) ∈ browserTests /\
            exists whole version,
              FindStringSubmatch re userAgent = [whole; version]
              /\ b = {| Browser := name; Version := version |}
          | None => b = {| Browser := "other"; Version := EmptyString |}
          end) as Hfind.
  { intros Hne. subst b. unfold parseUserAgent.
    destruct userAgent as [|a ua]; [done|]. cbn [nonempty].
    pose proof (parseUserAgent_loop_find (String a ua) browserTests Hg) as H.
    fold (first_match (String a ua)) in H.
    destruct (first_match (String a ua)) as [[name re]|] eqn:E; [|done].
    split; [by apply find_In_browserTests in E|done]. }
  split.
  - destruct userAgent as [|a ua]; [left; by split; [|left]|].
    specialize (Hfind ltac:(done)).
    destruct (first_match (String a ua)) as [[name re]|].
    + destruct Hfind as (Hin & whole & version & Hf & ->).
      apply FindStringSubmatch_sound in Hf as [Hd Hinf].
      destruct (browserTests_shape name re whole version Hin Hd)
        as (Hne & Hall & marker & rest & Hm & ->).
      right. simpl. split; [done|]. split; [done|].
      exists marker. split; [done|].
      eapply infix_trans; [|exact Hinf].
      exists EmptyString, rest. by rewrite append_Empty, append_assoc_s.
    + rewrite Hfind. left. simpl. split; [done|]. by right.
  - intros pre name marker c post Hin Hs Hm -> Hc.
    assert (pre +:+ marker +:+ String c post <> EmptyString) as Hne.
    { destruct pre; [|by rewrite append_String].
      rewrite append_Empty. destruct marker; [|by rewrite append_String].
      by rewrite append_Empty. }
    specialize (Hfind Hne).
    assert ((name, Cat (Lit marker) (Group (Plus NotSpace))) ∈ browserTests)
      as Hin'.
    { unfold markers in Hin. unfold browserTests.
      repeat (apply elem_of_cons in Hin as [[= -> ->]|Hin]);
        [..|by apply elem_of_nil in Hin]; try done; set_solver. }
    assert (matched (Cat (Lit marker) (Group (Plus NotSpace)))
              (pre +:+ marker +:+ String c post) = true) as Hmatched.
    { unfold matched.
      destruct (simple_pattern_matches marker c post Hc) as [m Hmh].
      pose proof (FindStringSubmatch_found _ pre _ _ Hmh) as Hf.
      by destruct (FindStringSubmatch _ _). }
    destruct (first_match _) as [[name' re']|] eqn:E.
    + destruct Hfind as (Hin'' & whole & version & _ & ->). simpl.
      unfold browserTests in Hin''.
      repeat (apply elem_of_cons in Hin'' as [[= -> ->]|Hin'']);
        [..|by apply elem_of_nil in Hin'']; done.
    + exfalso. unfold first_match in E.
      apply list_elem_of_In in Hin'.
      pose proof (find_none _ _ E _ Hin') as Hno. simpl in Hno. congruence.
Qed.

(** X20: [slicesEqual] never indexes out of range and returns true exactly
    when the two slices read the same strings in the same order. *)
Theorem slicesEqual_reflects (a b : list string) :
  slicesEqual a b = Some (bool_decide (a = b)).
Proof.
  unfold slicesEqual. case_bool_decide as Hl.
  - rewrite bool_decide_eq_false_2; [done|]. congruence.
  - apply (slicesEqual_loop_spec a [] b). by destruct (decide (length a = length b)).
Qed.

(** * The properties at concrete inputs *)

Import Sample.

(** The model of [md5.Sum] on the test vectors of RFC 1321. *)
Example md5_empty :
  hex.EncodeToString (md5.Sum EmptyString) = "d41d8cd98f00b204e9800998ecf8427e".
Proof. by vm_compute. Qed.

Example md5_abc :
  hex.EncodeToString (md5.Sum "abc") = "900150983cd24fb0d6963f7d28e17f72".
Proof. by vm_compute. Qed.

Example TrimSpace_ascii :
  strings_.TrimSpace " 198.51.100.2  " = "198.51.100.2".
Proof. by vm_compute. Qed.

Lemma wf_start : wf Sample.start.
Proof.
  exists []. split; [reflexivity|]. split; [reflexivity|]. apply Nat.le_refl.
Defined.

Lemma wf_busy : wf Sample.busy.
Proof.
  exists (Sample.record "x.example" :: Sample.record "y.example"
          :: Sample.record "z.example" :: [zeroTrackingData]).
  split; [vm_compute; reflexivity|]. split; [reflexivity|]. vm_compute. lia.
Defined.

Lemma reachable_tampered : reachable Sample.tampered.
Proof.
  apply (reach_step unit (Use Sample.tamper) tt Sample.start);
    [constructor|constructor|reflexivity].
Qed.

(** C1, counterexample: the router hands a HEAD request for [/pixel.gif]
    to [PixelHandler], and the body of the response is empty, not the 43
    bytes of the payload. *)
Lemma head_request_gets_no_body :
  route Sample.head_request = Some PixelEndpoint /\
  (fun out => String.length (http.body_sent Sample.head_request out.1.1))
    <$> PixelHandler http.NewRecorder Sample.head_request Sample.start
    = Some 0 /\
  (fun out => http.body_sent Sample.head_request out.1.1)
    <$> PixelHandler http.NewRecorder Sample.head_request Sample.start
    <> Some pixel1x1 /\
  (fun out => http.body_sent (Sample.request ∅ []) out.1.1)
    <$> PixelHandler http.NewRecorder (Sample.request ∅ []) Sample.start
    = Some pixel1x1.
Proof.
  split; [vm_compute; reflexivity|]. split; [vm_compute; reflexivity|].
  split; [|vm_compute; reflexivity].
  intros H. vm_compute in H. discriminate H.
Qed.

(** The store holds three events in an array of four: the append of the
    fourth is made in place, the next one moves the store to a new array;
    the snapshots are taken around the fourth. *)
Lemma store_snapshot_round_trip_witness :
  wf Sample.busy /\
  dataStore Sample.busy = Slice 4%positive 3 4 /\
  exists before st0 st1 after st2 st3,
    GetTrackingData Sample.busy = Some (before, st0) /\
    store_append (Sample.record "a.example") st0 = Some (tt, st1) /\
    GetTrackingData st1 = Some (after, st2) /\
    for_each [Sample.record "b.example"; Sample.record "c.example"]
      store_append st2 = Some (tt, st3) /\
    records st0 before = records Sample.busy (dataStore Sample.busy) /\
    records st2 after = records st0 before ++ [Sample.record "a.example"] /\
    events st2 after
      = events st0 before ++ [view Sample.busy (Sample.record "a.example")] /\
    records st3 before = records st0 before /\
    events st3 before = events st0 before /\
    records st3 after = records st2 after /\
    events st3 after = events st2 after /\
    records st3 (dataStore st3)
      = records st0 before
        ++ Sample.record "a.example"
           :: [Sample.record "b.example"; Sample.record "c.example"] /\
    before <> Nil /\ after <> Nil /\
    apart (dataStore st0) before /\
    apart (dataStore st1) before /\
    apart (dataStore st2) before /\
    apart (dataStore st2) after /\
    apart before after /\
    apart (dataStore st3) before /\
    apart (dataStore st3) after.
Proof.
  split; [exact wf_busy|]. split; [vm_compute; reflexivity|].
  exact (store_snapshot_round_trip Sample.busy (Sample.record "a.example")
           [Sample.record "b.example"; Sample.record "c.example"] wf_busy).
Defined.

(** C3, counterexample: after [Configure(Config{TrackIP: true})] the cookie
    name is empty; issuance is enabled and the request has no cookie, and
    the response sets no cookie. The same with a name that holds a
    space. *)
Lemma unnamed_cookie_not_set :
  DisableCookies (config Sample.unnamed) = false /\
  http.Request_Cookie Sample.id_request (CookieName (config Sample.unnamed))
    = None /\
  (fun out => http.SetCookies out.1.1)
    <$> PixelHandler http.NewRecorder Sample.id_request Sample.unnamed
    = Some [] /\
  DisableCookies (config Sample.misnamed) = false /\
  http.Request_Cookie Sample.id_request (CookieName (config Sample.misnamed))
    = None /\
  (fun out => http.SetCookies out.1.1)
    <$> PixelHandler http.NewRecorder Sample.id_request Sample.misnamed
    = Some [].
Proof. repeat split; vm_compute; reflexivity. Qed.

Lemma decay_of_captured_event_witness :
  wf Sample.start /\
  Decay <$> captured Sample.id_request Sample.start =
    Some (if nonempty (http.Values_Get (http.Query Sample.id_request) "decay")
          then 0%Z
          else decay_at (wall Sample.start (S (clock_reads Sample.start)))).
Proof.
  split; [exact wf_start|].
  exact (proj1 (decay_of_captured_event Sample.id_request Sample.start wf_start)).
Defined.

(** C6, counterexample: a request for [/pixel.gif?decay=] supplies a decay
    parameter, and the decay of its event is not 0. *)
Lemma decay_with_empty_value :
  http.Query Sample.empty_decay_request !! "decay" = Some [EmptyString] /\
  Decay <$> captured Sample.empty_decay_request Sample.start
    = Some 1700000300000%Z.
Proof. split; vm_compute; reflexivity. Qed.



Lemma ip_of_captured_event_witness :
  wf Sample.start /\
  IP <$> captured Sample.id_request Sample.start =
    Some (if TrackIP (config Sample.start) then getClientIP Sample.id_request
          else EmptyString) /\
  Geo <$> captured Sample.id_request Sample.start
    = Some {| Geo_IP := getClientIP Sample.id_request |}.
Proof.
  split; [exact wf_start|].
  destruct (ip_of_captured_event Sample.id_request Sample.start wf_start)
    as (H1 & H2 & _).
  split; [exact H1|exact H2].
Defined.

(** C8, counterexample: IP tracking is enabled and the request's
    forwarded-for header is [","]: the resolved client IP is empty, and so
    is the IP field of the event, which the JSON encoding then omits. *)
Lemma ip_omitted_while_tracking :
  TrackIP (config Sample.start) = true /\
  http.Get (http.Headers Sample.blank_forwarded_request) "X-Forwarded-For" = "," /\
  getClientIP Sample.blank_forwarded_request = EmptyString /\
  IP <$> captured Sample.blank_forwarded_request Sample.start
    = Some EmptyString.
Proof. repeat split; vm_compute; reflexivity. Qed.



(** * The further properties at concrete inputs *)

Import Visits.

Example render_sample :
  Visits.Encode
    (JArray [JObject [("host", JString "example.com"); ("decay", JNumber 1500);
                      ("language", JNull)]])
  = "[{" +:+ quote "host" +:+ ":" +:+ quote "example.com" +:+ ","
         +:+ quote "decay" +:+ ":1500," +:+ quote "language" +:+ ":null}]"
         +:+ String (byte_of 10) EmptyString.
Proof. by vm_compute. Qed.

Lemma getClientIP_forwarded_clean_witness :
  http.Get (http.Headers forwarded_request) "X-Forwarded-For" <> EmptyString /\
  trimmed (getClientIP forwarded_request) /\
  has_byte "," (getClientIP forwarded_request) = false.
Proof.
  assert (http.Get (http.Headers forwarded_request) "X-Forwarded-For"
          <> EmptyString) as Hne by (by vm_compute).
  split; [exact Hne|].
  destruct (getClientIP_forwarded_clean forwarded_request Hne) as (H1 & H2 & _).
  split; [exact H1|exact H2].
Defined.

Lemma issued_token_not_in_event_witness :
  wf start /\
  issues_cookie start id_request = true /\
  exists w' st1 p st2 d,
    PixelHandler http.NewRecorder id_request start
    = Some (w', (id_request, None), st1) /\
    http.Name <$> http.SetCookies w' = [CookieName (config start)] /\
    capture id_request st1 = Some (p, st2) /\
    last (records st2 (dataStore st2)) = Some d /\
    ev_Cookies (view st2 d) !! CookieName (config start) = None.
Proof.
  split; [exact wf_start|]. split; [reflexivity|].
  destruct (issued_token_not_in_event http.NewRecorder id_request start
              wf_start eq_refl)
    as (w' & st1 & p & st2 & d & H1 & H2 & H3 & H4 & _ & H6).
  exists w', st1, p, st2, d.
  split; [exact H1|]. split; [rewrite H2; reflexivity|].
  split; [exact H3|]. split; [exact H4|exact H6].
Defined.

Lemma tracker_cookie_only :
  filter (fun c => http.Name c = CookieName (config start))
    (http.Cookies returning_request) = [tracker_cookie].
Proof.
  assert (http.Cookies returning_request = [tracker_cookie]) as ->.
  { unfold http.Cookies, returning_request. cbn [http.CookiePairs omap list_omap].
    unfold http.readCookie. cbn [fst snd].
    rewrite parseCookieValue_token.
    change (http.isCookieNameValid "_tracker") with true. reflexivity. }
  rewrite filter_cons, decide_True by reflexivity. by rewrite filter_nil.
Defined.

Lemma returning_visitor_keeps_token_witness :
  wf start /\
  CookieName (config start) <> EmptyString /\
  issues_cookie start id_request = true /\
  filter (fun c => http.Name c = CookieName (config start))
    (http.Cookies returning_request) = [tracker_cookie] /\
  http.Value tracker_cookie = token_at (now start) /\
  exists w1' st1 w2' p st2 d,
    PixelHandler http.NewRecorder id_request start
    = Some (w1', (id_request, None), st1) /\
    PixelHandler http.NewRecorder returning_request st1
    = Some (w2', (returning_request, Some tracker_cookie), st1) /\
    http.SetCookies w2' = [] /\
    capture returning_request st1 = Some (p, st2) /\
    last (records st2 (dataStore st2)) = Some d /\
    ev_Cookies (view st2 d) !! CookieName (config start)
    = Some (token_at (now start)).
Proof.
  assert (CookieName (config start) <> EmptyString) as Hn by done.
  assert (issues_cookie start id_request = true) as Hi by reflexivity.
  assert (http.Value tracker_cookie = token_at (now start)) as Hv by reflexivity.
  split; [exact wf_start|]. split; [exact Hn|]. split; [exact Hi|].
  split; [exact tracker_cookie_only|]. split; [exact Hv|].
  destruct (returning_visitor_keeps_token http.NewRecorder http.NewRecorder
              id_request returning_request tracker_cookie start
              wf_start Hn Hi tracker_cookie_only Hv)
    as (w1' & st1 & w2' & p & st2 & d & H1 & _ & H3 & H4 & H5 & H6 & H7).
  exists w1', st1, w2', p, st2, d.
  split; [exact H1|]. split; [exact H3|]. split; [exact H4|].
  split; [exact H5|]. split; [exact H6|exact H7].
Defined.

Lemma processRequest_appends_one_witness :
  exists st',
    wf start /\
    processRequest id_request None start = Some (tt, st') /\
    exists d,
      captured id_request start = Some d /\
      records st' (dataStore st') = records start (dataStore start) ++ [d].
Proof.
  destruct (processRequest_assign_returns id_request None start wf_start
              (Forall_nil_2 _)) as [st' E].
  exists st'. split; [exact wf_start|]. split; [exact E|].
  destruct (processRequest_appends_one id_request None start st' wf_start E)
    as (d & H1 & H2 & _).
  exists d. split; assumption.
Defined.

Lemma requests_stored_in_order_witness :
  wf start /\
  Forall (Forall is_Assign) (handlers start) /\
  exists st' es,
    for_each [id_request; empty_decay_request] serve start = Some (tt, st') /\
    events st' (dataStore st')
    = (view st' <$> records start (dataStore start)) ++ es /\
    Forall2 (shows (config start)) [id_request; empty_decay_request] es.
Proof.
  split; [exact wf_start|]. split; [apply Forall_nil_2|].
  destruct (requests_stored_in_order [id_request; empty_decay_request] start
              wf_start (Forall_nil_2 _))
    as (st' & es & snap & st'' & H1 & H2 & H3 & _).
  exists st', es. repeat split; assumption.
Defined.

Lemma snapshot_shares_maps_witness :
  wf tampered /\
  FQuery <> FParams /\
  handlers tampered = [[MapStore FQuery "evil" "1"]] /\
  exists p st1 snap st2 st3 d,
    capture id_request tampered = Some (p, st1) /\
    GetTrackingData st1 = Some (snap, st2) /\
    dispatch p st2 = Some (tt, st3) /\
    last (records st2 snap) = Some d /\
    records st3 snap = records st2 snap /\
    map_contents st3 (Query d) = <["evil" := "1"]> (map_contents st2 (Query d)).
Proof.
  assert (FQuery <> FParams) as Hm by discriminate.
  split; [exact wf_start|]. split; [exact Hm|]. split; [reflexivity|].
  destruct (snapshot_shares_maps id_request FQuery "evil" "1" tampered
              wf_start Hm eq_refl)
    as (p & st1 & snap & st2 & st3 & d & H1 & H2 & H3 & _ & H5 & H6 & _ & H8).
  exists p, st1, snap, st2, st3, d. repeat split; assumption.
Defined.

Lemma Configure_replaces_config_witness :
  wf start /\
  exists st1,
    Configure anonymous start = Some (tt, st1) /\
    config st1 = anonymous /\
    (forall w r, exists w' spawned st2,
       PixelHandler w r st1 = Some (w', spawned, st2) /\
       http.SetCookies w' = http.SetCookies w ++ []) /\
    (forall r, IP <$> captured r st1 = Some EmptyString) /\
    (forall r, Geo <$> captured r st1 = Some {| Geo_IP := getClientIP r |}).
Proof.
  split; [exact wf_start|].
  destruct (Configure_replaces_config anonymous start wf_start)
    as (st1 & H1 & H2 & _ & _ & _ & H6 & H7 & H8).
  exists st1. repeat split; assumption.
Defined.

Lemma Use_runs_handler_last_witness :
  wf start /\
  exists st1,
    Use tamper start = Some (tt, st1) /\
    handlers st1 = handlers start ++ [tamper] /\
    processRequest id_request None st1
    = (p ← capture id_request;
       for_each (handlers start) (fun handler => call_handler handler p) ;;
       call_handler tamper p) st1.
Proof.
  split; [exact wf_start|].
  destruct (Use_runs_handler_last tamper id_request None start wf_start)
    as (st1 & H1 & H2 & _ & _ & H5).
  exists st1. repeat split; assumption.
Defined.

Lemma StatsHandler_document_witness :
  wf start /\
  exists w' st',
    StatsHandler Visits.Encode http.NewRecorder id_request start
    = Some (w', st') /\
    http.ResponseHeader w' !! "Content-Type" = Some ["application/json"] /\
    http.Body w' =
      http.Body http.NewRecorder +:+
      Visits.Encode
        (JArray (json_of_TrackingData start
                   <$> records start (dataStore start))) /\
    records st' (dataStore st') = records start (dataStore start).
Proof.
  split; [exact wf_start|].
  destruct (StatsHandler_document Visits.Encode http.NewRecorder id_request
              start wf_start)
    as (w' & st' & H1 & H2 & H3 & _ & H5 & _).
  exists w', st'. repeat split; assumption.
Defined.

Lemma stats_of_served_request_witness :
  wf start /\
  Forall (Forall is_Assign) (handlers start) /\
  exists st1 w' st2,
    serve forwarded_request start = Some (tt, st1) /\
    StatsHandler Visits.Encode http.NewRecorder id_request st1
    = Some (w', st2).
Proof.
  split; [exact wf_start|]. split; [apply Forall_nil_2|].
  destruct (stats_of_served_request Visits.Encode http.NewRecorder
              forwarded_request id_request start wf_start (Forall_nil_2 _))
    as (st1 & w' & st2 & H1 & H2 & _).
  exists st1, w', st2. split; assumption.
Defined.
